(** * boynton/repl: the line buffer and the key-dispatch loop of repl.go

    A shallow embedding of [src/repl.go].  The edit buffer [lineBuf] is a
    record; its methods are computations in a small state-and-panic monad,
    because Go's index and slice expressions panic when they are out of
    range and the struct behind the pointer keeps whatever was written
    before the panic.

    Go's [int] is 64 bits wide.  Every integer the buffer computes lies
    between [-1] and [len(buf) + 10], and a Go slice is far shorter than
    [2^63 - 10], so no operation of this file wraps around; integers are
    modelled as [Z].  Bytes are [ascii] (eight bits), Go strings are
    [string], and [string(bs)] / [[]byte(s)] are the two conversions
    between [list ascii] and [string]. *)

From Stdlib Require Import ZArith List String Ascii Bool Lia.
Import ListNotations.
Open Scope Z_scope.

Definition byte := ascii.

(** ** Go slices of bytes *)

Module Go.

Definition len {A : Type} (l : list A) : Z := Z.of_nat (List.length l).

(** [make([]byte, n)]: [n] zero bytes. *)
Definition make (n : Z) : list byte := repeat zero (Z.to_nat n).

(** [copy(dst, src)]: the first [min(len(dst), len(src))] elements of [src]
    overwrite the start of [dst]; the result is the new [dst].  Go copies as
    if [src] were read whole before [dst] is written, so overlapping slices
    of one array are handled by passing the old contents as [src]. *)
Definition copy {A : Type} (dst src : list A) : list A :=
  let n := Nat.min (List.length dst) (List.length src) in
  firstn n src ++ skipn n dst.

(** [b[i]], [None] when the index is out of range. *)
Definition index {A : Type} (b : list A) (i : Z) : option A :=
  if (0 <=? i) && (i <? len b) then nth_error b (Z.to_nat i) else None.

(** [b[lo:hi]] for a slice whose capacity equals its length. *)
Definition slice {A : Type} (b : list A) (lo hi : Z) : option (list A) :=
  if (0 <=? lo) && (lo <=? hi) && (hi <=? len b)
  then Some (firstn (Z.to_nat (hi - lo)) (skipn (Z.to_nat lo) b))
  else None.

(** [b[i] = x]. *)
Definition update {A : Type} (b : list A) (i : Z) (x : A) : option (list A) :=
  if (0 <=? i) && (i <? len b)
  then Some (firstn (Z.to_nat i) b ++ x :: skipn (S (Z.to_nat i)) b)
  else None.

(** [string(bs)] and [[]byte(s)]. *)
Definition string_of_bytes (bs : list byte) : string := string_of_list_ascii bs.
Definition bytes_of_string (s : string) : list byte := list_ascii_of_string s.

End Go.

(** ** Computations that may panic *)

Inductive fault : Type :=
| IndexOutOfRange (i n : Z)
| SliceOutOfRange (lo hi n : Z).

Inductive result (S A : Type) : Type :=
| Ok (a : A) (s : S)
| Panic (f : fault) (s : S).
Arguments Ok {S A} a s.
Arguments Panic {S A} f s.

Definition M (S A : Type) : Type := S -> result S A.

Definition ret {S A : Type} (a : A) : M S A := fun s => Ok a s.

Definition bind {S A B : Type} (c : M S A) (k : A -> M S B) : M S B :=
  fun s => match c s with
           | Ok a s' => k a s'
           | Panic f s' => Panic f s'
           end.

Definition get {S : Type} : M S S := fun s => Ok s s.
Definition modify {S : Type} (f : S -> S) : M S unit := fun s => Ok tt (f s).
Definition panic {S A : Type} (f : fault) : M S A := fun s => Panic f s.

(** The state a computation leaves behind, however it ended. *)
Definition final {S A : Type} (r : result S A) : S :=
  match r with Ok _ s => s | Panic _ s => s end.

Definition returned {S A : Type} (r : result S A) : option A :=
  match r with Ok a _ => Some a | Panic _ _ => None end.

Declare Scope go_scope.
Delimit Scope go_scope with go.
Notation "x <- c1 ; c2" := (bind c1 (fun x => c2))
  (at level 61, c1 at next level, right associativity) : go_scope.
Notation "c1 ;; c2" := (bind c1 (fun _ => c2))
  (at level 61, right associativity) : go_scope.
Open Scope go_scope.

(** ** Key codes *)

Definition CTRL_A : byte := ascii_of_nat 1.
Definition CTRL_B : byte := ascii_of_nat 2.
Definition CTRL_C : byte := ascii_of_nat 3.
Definition CTRL_D : byte := ascii_of_nat 4.
Definition CTRL_E : byte := ascii_of_nat 5.
Definition CTRL_F : byte := ascii_of_nat 6.
Definition BEEP : byte := ascii_of_nat 7.
Definition BACKSPACE : byte := ascii_of_nat 8.
Definition TAB : byte := ascii_of_nat 9.
Definition NEWLINE : byte := ascii_of_nat 10.
Definition CTRL_K : byte := ascii_of_nat 11.
Definition CTRL_L : byte := ascii_of_nat 12.
Definition RETURN : byte := ascii_of_nat 13.
Definition CTRL_N : byte := ascii_of_nat 14.
Definition CTRL_P : byte := ascii_of_nat 16.
Definition CTRL_Y : byte := ascii_of_nat 25.
Definition ESCAPE : byte := ascii_of_nat 27.
Definition SPACE : byte := ascii_of_nat 32.
Definition DELETE : byte := ascii_of_nat 127.
Definition OPEN_PAREN : byte := ascii_of_nat 40.
Definition CLOSE_PAREN : byte := ascii_of_nat 41.
Definition OPEN_BRACKET : byte := ascii_of_nat 91.
Definition CLOSE_BRACKET : byte := ascii_of_nat 93.
Definition OPEN_BRACE : byte := ascii_of_nat 123.
Definition CLOSE_BRACE : byte := ascii_of_nat 125.

(** ** The edit buffer *)

Record lineBuf : Type := mkLineBuf {
  length : Z;
  cursor : Z;
  buf : list byte;
  yanked : string;
  yanking : bool;
  history : option (list string);   (* [None] is the nil slice *)
  historyIndex : Z
}.

Definition set_length (n : Z) (lb : lineBuf) : lineBuf :=
  mkLineBuf n lb.(cursor) lb.(buf) lb.(yanked) lb.(yanking) lb.(history) lb.(historyIndex).
Definition set_cursor (c : Z) (lb : lineBuf) : lineBuf :=
  mkLineBuf lb.(length) c lb.(buf) lb.(yanked) lb.(yanking) lb.(history) lb.(historyIndex).
Definition set_buf (b : list byte) (lb : lineBuf) : lineBuf :=
  mkLineBuf lb.(length) lb.(cursor) b lb.(yanked) lb.(yanking) lb.(history) lb.(historyIndex).
Definition set_yanked (y : string) (lb : lineBuf) : lineBuf :=
  mkLineBuf lb.(length) lb.(cursor) lb.(buf) y lb.(yanking) lb.(history) lb.(historyIndex).
Definition set_yanking (y : bool) (lb : lineBuf) : lineBuf :=
  mkLineBuf lb.(length) lb.(cursor) lb.(buf) lb.(yanked) y lb.(history) lb.(historyIndex).
Definition set_history (h : option (list string)) (lb : lineBuf) : lineBuf :=
  mkLineBuf lb.(length) lb.(cursor) lb.(buf) lb.(yanked) lb.(yanking) h lb.(historyIndex).
Definition set_historyIndex (i : Z) (lb : lineBuf) : lineBuf :=
  mkLineBuf lb.(length) lb.(cursor) lb.(buf) lb.(yanked) lb.(yanking) lb.(history) i.

(** [len(lb.buf)]; the slice is always made with capacity equal to length. *)
Definition capacity (lb : lineBuf) : Z := Go.len lb.(buf).

(** [lb.buf[i]]. *)
Definition load (i : Z) : M lineBuf byte :=
  fun lb => match Go.index lb.(buf) i with
            | Some x => Ok x lb
            | None => Panic (IndexOutOfRange i (capacity lb)) lb
            end.

(** [lb.buf[i] = ch]. *)
Definition store (i : Z) (ch : byte) : M lineBuf unit :=
  fun lb => match Go.update lb.(buf) i ch with
            | Some b => Ok tt (set_buf b lb)
            | None => Panic (IndexOutOfRange i (capacity lb)) lb
            end.

(** [lb.buf[lo:hi]]. *)
Definition sliced (lo hi : Z) : M lineBuf (list byte) :=
  fun lb => match Go.slice lb.(buf) lo hi with
            | Some bs => Ok bs lb
            | None => Panic (SliceOutOfRange lo hi (capacity lb)) lb
            end.

(** [copy(lb.buf[d:], lb.buf[s:])]: both slices share the array of
    [lb.buf], so the bytes before [d] stay and the copy lands after them. *)
Definition copy_within (d s : Z) : M lineBuf unit :=
  fun lb =>
    let n := capacity lb in
    match Go.slice lb.(buf) d n, Go.slice lb.(buf) s n with
    | Some dst, Some src =>
        Ok tt (set_buf (firstn (Z.to_nat d) lb.(buf) ++ Go.copy dst src) lb)
    | None, _ => Panic (SliceOutOfRange d n n) lb
    | _, None => Panic (SliceOutOfRange s n n) lb
    end.

Definition newLineBuf (capacity : Z) : lineBuf :=
  mkLineBuf 0 0 (Go.make capacity) "" false None (-1).

Definition IsEmpty : M lineBuf bool :=
  lb <- get ; ret (lb.(length) =? 0).

Definition Clear : M lineBuf unit :=
  modify (set_length 0) ;;
  modify (set_cursor 0) ;;
  modify (set_yanking false).

Definition Insert (ch : byte) : M lineBuf unit :=
  modify (set_yanking false) ;;
  lb <- get ;
  let n := Go.len lb.(buf) in
  (if lb.(length) =? n
   then modify (set_buf (Go.copy (Go.make (n + 10)) (firstn (Z.to_nat n) lb.(buf))))
   else ret tt) ;;
  lb <- get ;
  (if lb.(cursor) =? lb.(length)
   then store lb.(cursor) ch
   else copy_within (lb.(cursor) + 1) lb.(cursor) ;;
        store lb.(cursor) ch) ;;
  lb <- get ;
  modify (set_cursor (lb.(cursor) + 1)) ;;
  modify (set_length (lb.(length) + 1)).

Fixpoint InsertBytes (chs : list byte) : M lineBuf unit :=
  match chs with
  | [] => ret tt
  | ch :: rest => Insert ch ;; InsertBytes rest
  end.

Definition Delete : M lineBuf bool :=
  modify (set_yanking false) ;;
  lb <- get ;
  if lb.(cursor) <? lb.(length)
  then copy_within lb.(cursor) (lb.(cursor) + 1) ;;
       modify (set_length (lb.(length) - 1)) ;;
       ret true
  else ret false.

(** The register update shared by the two kills: append while [yanking],
    replace otherwise. *)
Definition kill (bs : list byte) (lb : lineBuf) : lineBuf :=
  if lb.(yanking)
  then set_yanked (lb.(yanked) ++ Go.string_of_bytes bs)%string lb
  else set_yanked (Go.string_of_bytes bs) lb.

Definition KillToEnd : M lineBuf Z :=
  lb <- get ;
  let n := lb.(length) - lb.(cursor) in
  bs <- sliced lb.(cursor) lb.(length) ;
  modify (kill bs) ;;
  modify (set_length lb.(cursor)) ;;
  modify (set_yanking false) ;;
  ret n.

Definition DeleteRange (begin end_ : Z) : M lineBuf Z :=
  lb <- get ;
  match (if begin <? 0 then Some 0
         else if begin >? lb.(length) then None else Some begin) with
  | None => ret 0
  | Some begin =>
    match (if end_ >? lb.(length) then Some lb.(length)
           else if end_ <? 0 then None else Some end_) with
    | None => ret 0
    | Some end_ =>
      let n := end_ - begin in
      (if n >? 0
       then bs <- sliced begin end_ ;
            modify (kill bs) ;;
            copy_within begin end_ ;;
            modify (set_length (lb.(length) - n)) ;;
            modify (set_cursor begin)
       else ret tt) ;;
      ret n
    end
  end.

Definition is_space (x : byte) : bool := Ascii.eqb x SPACE.

(** The loops below run [i] towards a bound one step at a time, so they are
    written by recursion on the number [k] of steps left to the bound:
    [k = i] for [for ; i > 0; i--] and [k = length - i] for
    [for ; i < lb.length; i++].  When [k] is [0] the loop condition is
    false. *)

(** [for ; i > 0; i-- { if lb.buf[i] != SPACE { break } }]: [i] at the exit. *)
Fixpoint back_over_spaces (k : nat) (i : Z) : M lineBuf Z :=
  match k with
  | O => ret i
  | S k' => x <- load i ;
            if negb (is_space x) then ret i else back_over_spaces k' (i - 1)
  end.

(** [for ; i > 0; i-- { if lb.buf[i] == SPACE { return ... i ... } }]:
    [Some i] when the body returns at [i], [None] when the loop runs out. *)
Fixpoint back_to_space (k : nat) (i : Z) : M lineBuf (option Z) :=
  match k with
  | O => ret None
  | S k' => x <- load i ;
            if is_space x then ret (Some i) else back_to_space k' (i - 1)
  end.

(** [for ; i < lb.length; i++ { if lb.buf[i] != SPACE { break } }]. *)
Fixpoint forward_over_spaces (k : nat) (i : Z) : M lineBuf Z :=
  match k with
  | O => ret i
  | S k' => x <- load i ;
            if negb (is_space x) then ret i else forward_over_spaces k' (i + 1)
  end.

(** [for ; i < lb.length; i++ { if lb.buf[i] == SPACE { return ... i ... } }]. *)
Fixpoint forward_to_space (k : nat) (i : Z) : M lineBuf (option Z) :=
  match k with
  | O => ret None
  | S k' => x <- load i ;
            if is_space x then ret (Some i) else forward_to_space k' (i + 1)
  end.

Definition WordBackspace : M lineBuf Z :=
  lb <- get ;
  let i := if lb.(cursor) >? 0 then lb.(cursor) - 1 else lb.(cursor) in
  i <- back_over_spaces (Z.to_nat i) i ;
  x <- load i ;
  r <- (if negb (is_space x) then back_to_space (Z.to_nat i) i else ret None) ;
  match r with
  | Some i => DeleteRange (i + 1) lb.(cursor)
  | None => DeleteRange 0 lb.(cursor)
  end.

Definition WordDelete : M lineBuf Z :=
  lb <- get ;
  let i := lb.(cursor) - 1 in
  i <- forward_over_spaces (Z.to_nat (lb.(length) - i)) i ;
  r <- forward_to_space (Z.to_nat (lb.(length) - i)) i ;
  match r with
  | Some i => DeleteRange lb.(cursor) i
  | None => ret 0
  end.

Definition WordForward : M lineBuf unit :=
  lb <- get ;
  let i := lb.(cursor) in
  i <- forward_over_spaces (Z.to_nat (lb.(length) - i)) i ;
  r <- forward_to_space (Z.to_nat (lb.(length) - i)) i ;
  match r with
  | Some i => modify (set_cursor i)
  | None => modify (set_cursor lb.(length))
  end.

Definition WordBackward : M lineBuf unit :=
  lb <- get ;
  let i := if lb.(cursor) >? 0 then lb.(cursor) - 1 else lb.(cursor) in
  i <- back_over_spaces (Z.to_nat i) i ;
  x <- load i ;
  r <- (if negb (is_space x) then back_to_space (Z.to_nat i) i else ret None) ;
  match r with
  | Some i => modify (set_cursor (i + 1))
  | None => modify (set_cursor 0)
  end.

Definition Yank : M lineBuf Z :=
  modify (set_yanking true) ;;
  lb <- get ;
  InsertBytes (Go.bytes_of_string lb.(yanked)) ;;
  lb <- get ;
  ret (Z.of_nat (String.length lb.(yanked))).

Definition Backward : M lineBuf bool :=
  modify (set_yanking false) ;;
  lb <- get ;
  if lb.(cursor) >? 0
  then modify (set_cursor (lb.(cursor) - 1)) ;; ret true
  else ret false.

Definition Forward : M lineBuf bool :=
  modify (set_yanking false) ;;
  lb <- get ;
  if lb.(cursor) <? lb.(length)
  then modify (set_cursor (lb.(cursor) + 1)) ;; ret true
  else ret false.

Definition Begin : M lineBuf unit :=
  modify (set_yanking false) ;;
  modify (set_cursor 0).

Definition End : M lineBuf unit :=
  modify (set_yanking false) ;;
  lb <- get ;
  modify (set_cursor lb.(length)).

(** [append(lb.history, line)] on a nil slice gives a one-element slice. *)
Definition append_history (h : option (list string)) (line : string) : option (list string) :=
  match h with
  | None => Some [line]
  | Some l => Some (l ++ [line])
  end.

Definition AddToHistory (line : string) : M lineBuf unit :=
  lb <- get ;
  modify (set_history (append_history lb.(history) line)) ;;
  modify (set_historyIndex (-1)).

(** [lb.history[lb.historyIndex]]. *)
Definition history_entry : M lineBuf string :=
  fun lb => match lb.(history) with
            | Some h => match Go.index h lb.(historyIndex) with
                        | Some e => Ok e lb
                        | None => Panic (IndexOutOfRange lb.(historyIndex) (Go.len h)) lb
                        end
            | None => Panic (IndexOutOfRange lb.(historyIndex) 0) lb
            end.

Definition PrevInHistory : M lineBuf Z :=
  lb <- get ;
  let n := lb.(length) in
  match lb.(history) with
  | Some h =>
    (if lb.(historyIndex) <? 0
     then modify (set_historyIndex (Go.len h - 1))
     else modify (set_historyIndex (lb.(historyIndex) - 1))) ;;
    lb <- get ;
    if lb.(historyIndex) >=? 0
    then modify (set_length 0) ;;
         modify (set_cursor 0) ;;
         e <- history_entry ;
         InsertBytes (Go.bytes_of_string e) ;;
         lb <- get ;
         ret (if lb.(length) >? n then lb.(length) else n)
    else modify (set_historyIndex 0) ;;
         ret n
  | None => ret n
  end.

Definition NextInHistory : M lineBuf Z :=
  lb <- get ;
  let n := lb.(length) in
  match lb.(history) with
  | Some h =>
    if lb.(historyIndex) >=? 0
    then modify (set_historyIndex (lb.(historyIndex) + 1)) ;;
         lb <- get ;
         if lb.(historyIndex) <? Go.len h
         then modify (set_length 0) ;;
              modify (set_cursor 0) ;;
              e <- history_entry ;
              InsertBytes (Go.bytes_of_string e) ;;
              lb <- get ;
              ret (if lb.(length) >? n then lb.(length) else n)
         else modify (set_historyIndex (lb.(historyIndex) - 1)) ;;
              ret n
    else ret n
  | None => ret n
  end.

(** [lb.String()]: [string(lb.buf[0:lb.length])].  The name carries an
    underscore because [String] is the constructor of [string]. *)
Definition String_ : M lineBuf string :=
  lb <- get ;
  bs <- sliced 0 lb.(length) ;
  ret (Go.string_of_bytes bs).

(** The text of the buffer as a pure function, for statements. *)
Definition content (lb : lineBuf) : list byte :=
  firstn (Z.to_nat lb.(length)) lb.(buf).

Definition text (lb : lineBuf) : string := Go.string_of_bytes (content lb).

(** [0 <= cursor <= length <= capacity]. *)
Definition inv (lb : lineBuf) : Prop :=
  0 <= lb.(cursor) /\ lb.(cursor) <= lb.(length) /\ lb.(length) <= capacity lb.

(** ** What the operations leave behind *)

(** The bytes of the buffer text in [lo, hi). *)
Definition span (s : lineBuf) (lo hi : Z) : list byte :=
  firstn (Z.to_nat (hi - lo)) (skipn (Z.to_nat lo) (content s)).

(** What [Insert] leaves: the byte at the cursor, the bytes after it one
    place to the right, cursor and length one larger, the flag cleared. *)
Definition inserted (ch : byte) (s s' : lineBuf) : Prop :=
  s'.(length) = s.(length) + 1 /\
  s'.(cursor) = s.(cursor) + 1 /\
  s'.(yanked) = s.(yanked) /\
  s'.(yanking) = false /\
  s'.(history) = s.(history) /\
  s'.(historyIndex) = s.(historyIndex) /\
  s'.(length) <= capacity s' /\
  capacity s <= capacity s' /\
  content s' = firstn (Z.to_nat s.(cursor)) (content s)
               ++ ch :: skipn (Z.to_nat s.(cursor)) (content s).

(** What [InsertBytes] leaves. *)
Definition inserted_bytes (chs : list byte) (s s' : lineBuf) : Prop :=
  s'.(length) = s.(length) + Go.len chs /\
  s'.(cursor) = s.(cursor) + Go.len chs /\
  s'.(yanked) = s.(yanked) /\
  s'.(yanking) = match chs with [] => s.(yanking) | _ :: _ => false end /\
  s'.(history) = s.(history) /\
  s'.(historyIndex) = s.(historyIndex) /\
  s'.(length) <= capacity s' /\
  capacity s <= capacity s' /\
  content s' = firstn (Z.to_nat s.(cursor)) (content s)
               ++ chs ++ skipn (Z.to_nat s.(cursor)) (content s).

(** What [KillToEnd] leaves. *)
Definition killed_to_end (s s' : lineBuf) : Prop :=
  s' = mkLineBuf s.(cursor) s.(cursor) s.(buf)
         (if s.(yanking)
          then (s.(yanked) ++ Go.string_of_bytes (span s s.(cursor) s.(length)))%string
          else Go.string_of_bytes (span s s.(cursor) s.(length)))
         false s.(history) s.(historyIndex).

(** What [DeleteRange] leaves when the clamped range [lo, hi) is not empty. *)
Definition range_deleted (lo hi : Z) (s s' : lineBuf) : Prop :=
  s'.(length) = s.(length) - (hi - lo) /\
  s'.(cursor) = lo /\
  s'.(yanked) = (if s.(yanking)
                 then (s.(yanked) ++ Go.string_of_bytes (span s lo hi))%string
                 else Go.string_of_bytes (span s lo hi)) /\
  s'.(yanking) = s.(yanking) /\
  s'.(history) = s.(history) /\
  s'.(historyIndex) = s.(historyIndex) /\
  capacity s' = capacity s /\
  content s' = firstn (Z.to_nat lo) (content s) ++ skipn (Z.to_nat hi) (content s).

(** Replacing the text by the history entry under [historyIndex], as both
    history moves do: the entry becomes the text, or the index is out of
    range and the panic leaves an empty buffer. *)
Definition recalled (n : Z) (s : lineBuf) (r : Z) (s' : lineBuf) : Prop :=
  exists h e,
    s.(history) = Some h /\ Go.index h s.(historyIndex) = Some e /\
    inserted_bytes (Go.bytes_of_string e) (set_cursor 0 (set_length 0 s)) s' /\
    r = (if s'.(length) >? n then s'.(length) else n).

(** The operations of the edit buffer, as values. *)
Inductive operation : Type :=
| OpInsert (ch : byte)
| OpInsertBytes (chs : list byte)
| OpDelete
| OpKillToEnd
| OpDeleteRange (begin end_ : Z)
| OpWordBackspace
| OpWordDelete
| OpWordForward
| OpWordBackward
| OpYank
| OpBackward
| OpForward
| OpBegin
| OpEnd
| OpClear
| OpPrevInHistory
| OpNextInHistory
| OpAddToHistory (line : string).

(** Calling an operation and dropping what it returns. *)
Definition discard {A : Type} (c : M lineBuf A) : M lineBuf unit := c ;; ret tt.

Definition perform (o : operation) : M lineBuf unit :=
  match o with
  | OpInsert ch => Insert ch
  | OpInsertBytes chs => InsertBytes chs
  | OpDelete => discard Delete
  | OpKillToEnd => discard KillToEnd
  | OpDeleteRange begin end_ => discard (DeleteRange begin end_)
  | OpWordBackspace => discard WordBackspace
  | OpWordDelete => discard WordDelete
  | OpWordForward => WordForward
  | OpWordBackward => WordBackward
  | OpYank => discard Yank
  | OpBackward => discard Backward
  | OpForward => discard Forward
  | OpBegin => Begin
  | OpEnd => End
  | OpClear => Clear
  | OpPrevInHistory => discard PrevInHistory
  | OpNextInHistory => discard NextInHistory
  | OpAddToHistory line => AddToHistory line
  end.

(** The operations whose array reads are not all guarded by the invariant
    [0 <= cursor <= length <= capacity] alone. *)
Definition reads_unguarded (o : operation) : bool :=
  match o with
  | OpWordBackspace | OpWordDelete | OpWordForward | OpWordBackward
  | OpPrevInHistory | OpNextInHistory => true
  | _ => false
  end.

(** A run of operations from a state, ignoring what they return. *)
Definition keys (ops : list operation) (s : lineBuf) : lineBuf :=
  fold_left (fun s o => final (perform o s)) ops s.

(** The history scenario: four steps back, three steps forward, reading the
    text after each step and the history index at the end. *)
Definition browse : M lineBuf (list string * Z) :=
  PrevInHistory ;; t1 <- String_ ;
  PrevInHistory ;; t2 <- String_ ;
  PrevInHistory ;; t3 <- String_ ;
  PrevInHistory ;; t4 <- String_ ;
  NextInHistory ;; t5 <- String_ ;
  NextInHistory ;; t6 <- String_ ;
  NextInHistory ;; t7 <- String_ ;
  lb <- get ;
  ret ([t1; t2; t3; t4; t5; t6; t7], lb.(historyIndex)).

(** ** A weakest precondition for computations that may panic

    [wp c Q R s]: run from [s], [c] either returns [a] in a state [s'] with
    [Q a s'], or panics in a state [s'] with [R s'].  With [R] empty, [c]
    returns. *)
Definition wp {S A : Type} (c : M S A) (Q : A -> S -> Prop) (R : S -> Prop) (s : S) : Prop :=
  match c s with
  | Ok a s' => Q a s'
  | Panic _ s' => R s'
  end.

Definition never {S : Type} : S -> Prop := fun _ => False.

(** ** The terminal, the handler and the loop *)

Definition matching (ch : byte) : byte :=
  if Ascii.eqb ch CLOSE_PAREN then OPEN_PAREN
  else if Ascii.eqb ch CLOSE_BRACKET then OPEN_BRACKET
  else if Ascii.eqb ch CLOSE_BRACE then OPEN_BRACE
  else zero.

(** What the session does to the outside, in order. *)
Inductive event : Type :=
| Write (s : string)                       (* one write to standard output *)
| Sleep (ms : Z)
| Restore                                  (* the deferred [restore] *)
| CallStart
| CallPrompt
| CallEval (expr : string)
| CallComplete (expr : string)
| CallReset
| CallStop (history : option (list string)).

(** One [syscall.Read] of a single byte. *)
Inductive read (error : Type) : Type :=
| ReadByte (b : byte)
| ReadEOF                                  (* [n == 0], no error *)
| ReadErr (e : error).
Arguments ReadByte {error} b.
Arguments ReadEOF {error}.
Arguments ReadErr {error} e.

Definition getChar {error : Type} (r : read error) : byte * option error :=
  match r with
  | ReadByte b => (b, None)
  | ReadEOF => (zero, None)
  | ReadErr e => (zero, Some e)
  end.

Section Repl.

(** The handler's private state, the values [Eval] yields and Go's [error]. *)
Variables H value error : Type.

(** The text [fmt.Println] prints for a value and for an error. *)
Variable show_value : value -> string.
Variable show_error : error -> string.

Record ReplHandler : Type := mkHandler {
  Eval : string -> H -> (value * bool * option error) * H;
  Complete : string -> H -> (string * option (list string)) * H;
  Reset : H -> H;
  Prompt : H -> string * H;
  Start : H -> option (list string) * H;
  Stop : option (list string) -> H -> H
}.

Variable handler : ReplHandler.

Record world : Type := mkWorld {
  lb : lineBuf;            (* the struct behind [buf] *)
  hs : H;
  out : list event
}.

Definition set_lb (b : lineBuf) (w : world) : world := mkWorld b w.(hs) w.(out).
Definition set_hs (h : H) (w : world) : world := mkWorld w.(lb) h w.(out).

Definition emit (e : event) : M world unit :=
  modify (fun w => mkWorld w.(lb) w.(hs) (w.(out) ++ [e])).

(** A method call on the buffer. *)
Definition on_buf {A : Type} (c : M lineBuf A) : M world A :=
  fun w => match c w.(lb) with
           | Ok a b => Ok a (set_lb b w)
           | Panic f b => Panic f (set_lb b w)
           end.

Definition putChar (b : byte) : M world unit := emit (Write (String b "")).
Definition putString (s : string) : M world unit := emit (Write s).
Definition cursorBackward : M world unit :=
  emit (Write (String ESCAPE "[1D")).
Definition cursorForward : M world unit :=
  emit (Write (String ESCAPE "[1C")).

Definition println (s : string) : M world unit :=
  emit (Write (s ++ String NEWLINE "")%string).

Fixpoint times (n : nat) (c : M world unit) : M world unit :=
  match n with
  | O => ret tt
  | S n' => c ;; times n' c
  end.

Definition drawline (prompt : string) (extra : Z) : M world unit :=
  putChar RETURN ;;
  putString prompt ;;
  s <- on_buf String_ ;
  putString s ;;
  times (Z.to_nat extra) (putChar SPACE) ;;
  b <- on_buf get ;
  times (Z.to_nat (b.(length) + extra - b.(cursor))) cursorBackward.

(** The loop [for i > 0 { i--; ... }] of [highlightMatch], by recursion on
    the [k = i] iterations left. *)
Fixpoint highlight_scan (prompt : string) (chOpen chClose : byte)
    (k : nat) (i count : Z) : M world unit :=
  match k with
  | O => putChar BEEP
  | S k' =>
    let i := i - 1 in
    x <- on_buf (load i) ;
    if Ascii.eqb x chOpen then
      let count := count - 1 in
      if count =? 0 then
        b <- on_buf get ;
        let tmp := b.(cursor) in
        on_buf (modify (set_cursor i)) ;;
        drawline prompt 0 ;;
        emit (Sleep 150) ;;
        on_buf (modify (set_cursor tmp)) ;;
        drawline prompt 0
      else highlight_scan prompt chOpen chClose k' i count
    else if Ascii.eqb x chClose then
      highlight_scan prompt chOpen chClose k' i (count + 1)
    else highlight_scan prompt chOpen chClose k' i count
  end.

Definition highlightMatch (prompt : string) (chOpen chClose : byte) : M world unit :=
  b <- on_buf get ;
  let i := b.(cursor) - 1 in
  highlight_scan prompt chOpen chClose (Z.to_nat i) i 1.

Definition call_Eval (s : string) : M world (value * bool * option error) :=
  emit (CallEval s) ;;
  fun w => let (r, h) := handler.(Eval) s w.(hs) in Ok r (set_hs h w).
Definition call_Complete (s : string) : M world (string * option (list string)) :=
  emit (CallComplete s) ;;
  fun w => let (r, h) := handler.(Complete) s w.(hs) in Ok r (set_hs h w).
Definition call_Reset : M world unit :=
  emit CallReset ;;
  modify (fun w => set_hs (handler.(Reset) w.(hs)) w).
Definition call_Prompt : M world string :=
  emit CallPrompt ;;
  fun w => let (r, h) := handler.(Prompt) w.(hs) in Ok r (set_hs h w).
Definition call_Start : M world (option (list string)) :=
  emit CallStart ;;
  fun w => let (r, h) := handler.(Start) w.(hs) in Ok r (set_hs h w).
Definition call_Stop (history : option (list string)) : M world unit :=
  emit (CallStop history) ;;
  modify (fun w => set_hs (handler.(Stop) history w.(hs)) w).

(** The world after [handler.Stop(buf.history)]. *)
Definition stopped (w : world) : world :=
  mkWorld w.(lb) (handler.(Stop) w.(lb).(history) w.(hs))
          (w.(out) ++ [CallStop w.(lb).(history)]).

(** The variables of [repl] that live across iterations. *)
Record locals : Type := mkLocals {
  prompt : string;
  meta : bool;
  lastChar : byte;
  options : option (list string)
}.

Definition set_prompt (p : string) (l : locals) : locals :=
  mkLocals p l.(meta) l.(lastChar) l.(options).
Definition set_meta (m : bool) (l : locals) : locals :=
  mkLocals l.(prompt) m l.(lastChar) l.(options).
Definition set_lastChar (c : byte) (l : locals) : locals :=
  mkLocals l.(prompt) l.(meta) c l.(options).
Definition set_options (o : option (list string)) (l : locals) : locals :=
  mkLocals l.(prompt) l.(meta) l.(lastChar) o.

(** How one pass through the loop body ends. *)
Inductive flow : Type :=
| Next (l : locals)                (* falls through to [lastChar = ch] *)
| Return (err : option error).     (* [return err] / [return nil] *)

Fixpoint print_options (opts : list string) : M world unit :=
  match opts with
  | [] => ret tt
  | opt :: rest => putChar NEWLINE ;; putString opt ;; print_options rest
  end.

Definition printable (ch : byte) : bool :=
  (nat_of_ascii SPACE <=? nat_of_ascii ch)%nat && (nat_of_ascii ch <? 127)%nat.

(** The body of [switch ch] after ESCAPE. *)
Definition meta_key (ch : byte) (l : locals) : M world flow :=
  (if Ascii.eqb ch DELETE then
     n <- on_buf WordBackspace ; drawline l.(prompt) n
   else if Ascii.eqb ch "d"%char then
     n <- on_buf WordDelete ; drawline l.(prompt) n
   else if Ascii.eqb ch "b"%char then
     on_buf WordBackward ;; drawline l.(prompt) 0
   else if Ascii.eqb ch "f"%char then
     on_buf WordForward ;; drawline l.(prompt) 0
   else putChar BEEP) ;;
  ret (Next l).

Definition key_RETURN (l : locals) : M world flow :=
  e <- on_buf IsEmpty ;
  (if negb e then putChar NEWLINE else ret tt) ;;
  s <- on_buf String_ ;
  on_buf (AddToHistory s) ;;
  on_buf Clear ;;
  r <- call_Eval s ;
  let '(result, more, err) := r in
  match err with
  | Some err =>
    println ("*** " ++ show_error err)%string ;;
    on_buf Clear ;;
    p <- call_Prompt ;
    putString p ;;
    ret (Next (set_prompt p l))
  | None =>
    if more then ret (Next (set_prompt "" l))
    else println (show_value result) ;;
         p <- call_Prompt ;
         putString p ;;
         ret (Next (set_prompt p l))
  end.

Definition key_TAB (l : locals) : M world flow :=
  if Ascii.eqb l.(lastChar) TAB then
    match l.(options) with
    | Some opts =>
      print_options opts ;;
      putChar NEWLINE ;;
      drawline l.(prompt) 0
    | None => ret tt
    end ;;
    putChar BEEP ;;
    ret (Next l)
  else
    b <- on_buf get ;
    bs <- on_buf (sliced 0 b.(cursor)) ;
    r <- call_Complete (Go.string_of_bytes bs) ;
    let (addendum, opt) := r in
    (if (0 <? String.length addendum)%nat
     then on_buf (InsertBytes (Go.bytes_of_string addendum))
     else ret tt) ;;
    l' <- (if (match opt with Some o => List.length o | None => O end =? 1)%nat
           then on_buf (Insert " "%char) ;; ret (set_options None l)
           else putChar BEEP ;; ret (set_options opt l)) ;
    drawline l.(prompt) 0 ;;
    ret (Next l').

(** The body of [switch ch] outside a meta sequence. *)
Definition plain_key (ch : byte) (l : locals) : M world flow :=
  if Ascii.eqb ch ESCAPE then ret (Next (set_meta true l))
  else if Ascii.eqb ch CTRL_D then
    e <- on_buf IsEmpty ;
    if e then
      putString (String NEWLINE "") ;;
      b <- on_buf get ;
      call_Stop b.(history) ;;
      ret (Return None)
    else on_buf Delete ;; drawline l.(prompt) 1 ;; ret (Next l)
  else if Ascii.eqb ch CTRL_A then
    on_buf Begin ;; drawline l.(prompt) 0 ;; ret (Next l)
  else if Ascii.eqb ch CTRL_E then
    on_buf End ;; drawline l.(prompt) 0 ;; ret (Next l)
  else if Ascii.eqb ch CTRL_F then
    moved <- on_buf Forward ;
    (if moved then cursorForward ;; drawline l.(prompt) 0 else ret tt) ;;
    ret (Next l)
  else if Ascii.eqb ch CTRL_B then
    moved <- on_buf Backward ;
    (if moved then cursorBackward ;; drawline l.(prompt) 0 else ret tt) ;;
    ret (Next l)
  else if Ascii.eqb ch CTRL_C then
    putString ("*** Interrupt ***" ++ String NEWLINE "")%string ;;
    on_buf Clear ;;
    call_Reset ;;
    p <- call_Prompt ;
    putString p ;;
    ret (Next (set_prompt p l))
  else if Ascii.eqb ch CTRL_K then
    n <- on_buf KillToEnd ; drawline l.(prompt) n ;; ret (Next l)
  else if Ascii.eqb ch CTRL_Y then
    n <- on_buf Yank ; drawline l.(prompt) n ;; ret (Next l)
  else if Ascii.eqb ch CTRL_L then
    putString (String NEWLINE "") ;; drawline l.(prompt) 0 ;; ret (Next l)
  else if Ascii.eqb ch CTRL_N then
    n <- on_buf NextInHistory ; drawline l.(prompt) n ;; ret (Next l)
  else if Ascii.eqb ch CTRL_P then
    n <- on_buf PrevInHistory ; drawline l.(prompt) n ;; ret (Next l)
  else if Ascii.eqb ch TAB then key_TAB l
  else if Ascii.eqb ch DELETE then
    moved <- on_buf Backward ;
    (if moved then on_buf Delete ;; drawline l.(prompt) 1 else putChar BEEP) ;;
    ret (Next l)
  else if Ascii.eqb ch RETURN then key_RETURN l
  else if printable ch then
    on_buf (Insert ch) ;;
    drawline l.(prompt) 0 ;;
    (let m := matching ch in
     if negb (Ascii.eqb m zero) then highlightMatch l.(prompt) m ch else ret tt) ;;
    ret (Next l)
  else putChar BEEP ;; ret (Next l).

(** One pass through the body of [for true], given what [getChar] returned. *)
Definition iteration (r : byte * option error) (l : locals) : M world flow :=
  let (ch, err) := r in
  match err with
  | Some err =>
    b <- on_buf get ;
    call_Stop b.(history) ;;
    ret (Return (Some err))
  | None =>
    f <- (if l.(meta) then meta_key ch (set_meta false l) else plain_key ch l) ;
    match f with
    | Next l' => ret (Next (set_lastChar ch l'))
    | Return e => ret (Return e)
    end
  end.

(** What a run over a finite script of reads amounts to: the function
    returned, or it is blocked in [getChar] waiting for the next byte. *)
Inductive outcome : Type :=
| Returned (err : option error)
| Waiting (l : locals).

Fixpoint loop (input : list (read error)) (l : locals) : M world outcome :=
  match input with
  | [] => ret (Waiting l)
  | r :: rest =>
    f <- iteration (getChar r) l ;
    match f with
    | Next l' => loop rest l'
    | Return e => ret (Returned e)
    end
  end.

Definition repl (input : list (read error)) : M world outcome :=
  on_buf (fun _ => Ok tt (newLineBuf 1024)) ;;
  hist <- call_Start ;
  match hist with
  | Some h => on_buf (modify (set_history (Some h)))
  | None => ret tt
  end ;;
  p <- call_Prompt ;
  putString p ;;
  loop input (mkLocals p false zero None).

(** [REPL]: [cbreak] is what [makeCbreak] answered, [None] for success.  The
    value of [repl(handler)] is dropped and [nil] returned; the deferred
    [restore] runs when the function is left, also by a panic. *)
Definition REPL (cbreak : option error) (input : list (read error)) : M world outcome :=
  match cbreak with
  | None =>
    fun w => match repl input w with
             | Ok (Returned _) w' => (emit Restore ;; ret (Returned None)) w'
             | Ok (Waiting l) w' => Ok (Waiting l) w'
             | Panic f w' => (emit Restore ;; panic f) w'
             end
  | Some err => ret (Returned (Some err))
  end.

End Repl.

Arguments mkWorld {H} lb hs out.
Arguments lb {H} w.
Arguments hs {H} w.
Arguments out {H} w.
Arguments set_lb {H} b w.
Arguments set_hs {H} h w.
Arguments emit {H} e.
Arguments on_buf {H A} c.
Arguments putChar {H} b.
Arguments putString {H} s.
Arguments cursorBackward {H}.
Arguments cursorForward {H}.
Arguments println {H} s.
Arguments times {H} n c.
Arguments drawline {H} prompt extra.
Arguments highlight_scan {H} prompt chOpen chClose k i count.
Arguments highlightMatch {H} prompt chOpen chClose.
Arguments mkHandler {H value error}.
Arguments Eval {H value error} r.
Arguments Complete {H value error} r.
Arguments Reset {H value error} r.
Arguments Prompt {H value error} r.
Arguments Start {H value error} r.
Arguments Stop {H value error} r.
Arguments Next {error} l.
Arguments Return {error} err.
Arguments Returned {error} err.
Arguments Waiting {error} l.
Arguments call_Stop {H value error} handler history.
Arguments call_Eval {H value error} handler s.
Arguments call_Prompt {H value error} handler.
Arguments call_Start {H value error} handler.
Arguments stopped {H value error} handler w.
Arguments call_Complete {H value error} handler s.
Arguments call_Reset {H value error} handler.
Arguments key_TAB {H value error} handler l.
Arguments print_options {H} opts.
Arguments key_RETURN {H value error} show_value show_error handler l.
Arguments plain_key {H value error} show_value show_error handler ch l.
Arguments meta_key {H error} ch l.
Arguments iteration {H value error} show_value show_error handler r l.
Arguments loop {H value error} show_value show_error handler input l.
Arguments repl {H value error} show_value show_error handler input.
Arguments REPL {H value error} show_value show_error handler cbreak input.

(** A handler to run sessions with: every line evaluates to itself, there
    is nothing to complete, the prompt is "> " and no history is kept from
    one session to the next. *)
Definition echo : ReplHandler unit string string :=
  mkHandler (fun s h => ((s, false, None), h))
            (fun _ h => ((""%string, None), h))
            (fun h => h)
            (fun h => ("> "%string, h))
            (fun h => (None, h))
            (fun _ h => h).

(** The world a session starts in. *)
Definition boot : world unit := mkWorld (newLineBuf 0) tt [].

(** The entries of a history slice, oldest first; the nil slice has none. *)
Definition entries (h : option (list string)) : list string :=
  match h with
  | Some l => l
  | None => []
  end.

(** What [drawline] writes for a buffer, one event per write. *)
Definition rendered (prompt : string) (extra : Z) (b : lineBuf) : list event :=
  [Write (String RETURN ""); Write prompt; Write (text b)]
  ++ repeat (Write (String SPACE "")) (Z.to_nat extra)
  ++ repeat (Write (String ESCAPE "[1D")) (Z.to_nat (b.(length) + extra - b.(cursor))).

(** The bracket search in the words of the specification: going back from
    just before the closer, a closer raises the depth by one, an opener
    lowers it by one, and the opener at which the depth reaches zero is the
    match; [before] lists the bytes before the closer, the nearest first,
    and the result is the position of the match in the buffer. *)
Fixpoint opener_before (chOpen chClose : byte) (before : list byte) (depth : Z) : option Z :=
  match before with
  | [] => None
  | x :: rest =>
    if Ascii.eqb x chOpen then
      if depth - 1 =? 0 then Some (Go.len rest)
      else opener_before chOpen chClose rest (depth - 1)
    else if Ascii.eqb x chClose then opener_before chOpen chClose rest (depth + 1)
    else opener_before chOpen chClose rest depth
  end.


(** ** More of the buffer, for the statements below *)

(** The buffer part of the DELETE key in [repl]:
    [if buf.Backward() { buf.Delete() }]. *)
Definition backspace : M lineBuf unit :=
  moved <- Backward ;
  if moved then Delete ;; ret tt else ret tt.

Fixpoint backspaces (n : nat) : M lineBuf unit :=
  match n with
  | O => ret tt
  | S n' => backspace ;; backspaces n'
  end.

(** The byte of the array at [i], when there is one. *)
Definition byte_at (s : lineBuf) (i : Z) : option byte := Go.index s.(buf) i.

(** [len(lb.history)]; the nil slice has length 0. *)
Definition history_length (s : lineBuf) : Z :=
  match s.(history) with
  | Some h => Go.len h
  | None => 0
  end.

(** The history index is -1, or an index of the history, or 0 (where the
    step back from the oldest entry puts it, also in an empty history). *)
Definition hist_ok (s : lineBuf) : Prop :=
  -1 <= s.(historyIndex) /\ s.(historyIndex) <= Z.max 0 (history_length s - 1).

(** The states the loop keeps the buffer in: the invariant, an array that
    is not empty, and a history index in range. *)
Definition sound (s : lineBuf) : Prop :=
  inv s /\ 0 < capacity s /\ hist_ok s.

(** What a step in the history keeps and returns. *)
Definition stepped (s : lineBuf) (r : Z) (s' : lineBuf) : Prop :=
  inv s' /\ hist_ok s' /\ s'.(history) = s.(history) /\
  capacity s <= capacity s' /\ r = Z.max s.(length) s'.(length).

(** What every operation keeps: a sound buffer, and an array that has not
    become shorter. *)
Definition kept (s s' : lineBuf) : Prop :=
  sound s' /\ capacity s <= capacity s'.

(** A computation of the loop is safe when, started with a sound buffer,
    it returns with a sound buffer. *)
Definition safe {H A : Type} (c : M (world H) A) : Prop :=
  forall w, sound w.(lb) -> wp c (fun _ w' => sound w'.(lb)) never w.


(** What [highlightMatch] writes for a buffer: the one BEEP byte when the
    search finds no opener, and otherwise the line with the cursor on the
    opener, the pause, and the line as it is. *)
Definition flashed (prompt : string) (chOpen chClose : byte) (b : lineBuf) : list event :=
  match opener_before chOpen chClose
          (rev (firstn (Z.to_nat (b.(cursor) - 1)) b.(buf))) 1 with
  | None => [Write (String BEEP "")]
  | Some j => rendered prompt 0 (set_cursor j b) ++ [Sleep 150] ++ rendered prompt 0 b
  end.

(** A handler that answers every completion request with one candidate. *)
Definition completer (addendum cand : string) : ReplHandler unit string string :=
  mkHandler (fun s h => ((s, false, None), h))
            (fun _ h => ((addendum, Some [cand]), h))
            (fun h => h)
            (fun h => ("> "%string, h))
            (fun h => (None, h))
            (fun _ h => h).
(** * Verification *)

(** ** Slices *)

Lemma len_nonneg {A : Type} (l : list A) : 0 <= Go.len l.
Proof. unfold Go.len. lia. Qed.

Lemma index_in_range {A : Type} (b : list A) (i : Z) :
  0 <= i < Go.len b -> exists x, Go.index b i = Some x.
Proof.
  intros Hi. unfold Go.index.
  replace ((0 <=? i) && (i <? Go.len b)) with true
    by (symmetry; apply andb_true_iff; split; [apply Z.leb_le | apply Z.ltb_lt]; lia).
  destruct (nth_error b (Z.to_nat i)) as [x|] eqn:E; [now exists x|].
  apply nth_error_None in E. unfold Go.len in Hi. lia.
Qed.

Lemma index_out_of_range {A : Type} (b : list A) (i : Z) :
  i < 0 \/ Go.len b <= i -> Go.index b i = None.
Proof.
  intros Hi. unfold Go.index.
  destruct (0 <=? i) eqn:E1; [|reflexivity].
  destruct (i <? Go.len b) eqn:E2; [|reflexivity].
  apply Z.leb_le in E1. apply Z.ltb_lt in E2. lia.
Qed.

Lemma slice_in_range {A : Type} (b : list A) (lo hi : Z) :
  0 <= lo -> lo <= hi -> hi <= Go.len b ->
  Go.slice b lo hi = Some (firstn (Z.to_nat (hi - lo)) (skipn (Z.to_nat lo) b)).
Proof.
  intros H1 H2 H3. unfold Go.slice.
  apply Z.leb_le in H1, H2, H3. now rewrite H1, H2, H3.
Qed.

Lemma slice_to_end {A : Type} (b : list A) (lo : Z) :
  0 <= lo -> lo <= Go.len b ->
  Go.slice b lo (Go.len b) = Some (skipn (Z.to_nat lo) b).
Proof.
  intros H1 H2. rewrite slice_in_range by lia. f_equal.
  apply firstn_all2. rewrite length_skipn. unfold Go.len in *. lia.
Qed.

Lemma update_in_range {A : Type} (b : list A) (i : Z) (x : A) :
  0 <= i < Go.len b ->
  Go.update b i x = Some (firstn (Z.to_nat i) b ++ x :: skipn (S (Z.to_nat i)) b).
Proof.
  intros [H1 H2]. unfold Go.update.
  apply Z.leb_le in H1. apply Z.ltb_lt in H2. now rewrite H1, H2.
Qed.

Lemma length_copy {A : Type} (dst src : list A) :
  List.length (Go.copy dst src) = List.length dst.
Proof.
  unfold Go.copy. rewrite length_app, length_firstn, length_skipn. lia.
Qed.

Lemma length_updated {A : Type} (b : list A) (i : nat) (x : A) :
  (i < List.length b)%nat ->
  List.length (firstn i b ++ x :: skipn (S i) b) = List.length b.
Proof.
  intros Hi. rewrite length_app, length_firstn, length_cons, length_skipn. lia.
Qed.

Lemma firstn_exact {A : Type} (p q : list A) (n : nat) :
  List.length p = n -> firstn n (p ++ q) = p.
Proof.
  intros <-. rewrite firstn_app, Nat.sub_diag, firstn_all. simpl. apply app_nil_r.
Qed.

Lemma skipn_exact {A : Type} (p q : list A) (n : nat) :
  List.length p = n -> skipn n (p ++ q) = q.
Proof.
  intros <-. rewrite skipn_app, Nat.sub_diag, skipn_all. reflexivity.
Qed.

(** Growing the array: [copy(make(n+10), b[:n])] is [b] followed by ten
    zero bytes. *)
Lemma grow_copy (b : list byte) :
  Go.copy (Go.make (Go.len b + 10)) (firstn (Z.to_nat (Go.len b)) b)
  = b ++ repeat zero 10.
Proof.
  unfold Go.copy, Go.make, Go.len.
  rewrite Nat2Z.id, firstn_all, repeat_length.
  replace (Z.to_nat (Z.of_nat (List.length b) + 10)) with (List.length b + 10)%nat by lia.
  rewrite Nat.min_r by lia. rewrite firstn_all. f_equal.
  rewrite repeat_app, skipn_exact by apply repeat_length. reflexivity.
Qed.

(** Opening a gap at [c]: [copy(b[c+1:], b[c:])] then [b[c] = x]. *)
Lemma shift_right_store {A : Type} (b : list A) (c : nat) (x : A) :
  (c < List.length b)%nat ->
  let b' := firstn (S c) b ++ Go.copy (skipn (S c) b) (skipn c b) in
  firstn c b' ++ x :: skipn (S c) b'
  = firstn c b ++ x :: firstn (List.length b - S c) (skipn c b).
Proof.
  intros Hc b'. subst b'.
  assert (Hs : List.length (firstn (S c) b) = S c) by (rewrite length_firstn; lia).
  rewrite skipn_exact by exact Hs.
  rewrite <- (firstn_skipn c (firstn (S c) b)) at 1.
  rewrite firstn_firstn, Nat.min_l by lia.
  rewrite <- app_assoc, firstn_exact by (rewrite length_firstn; lia).
  f_equal. f_equal. unfold Go.copy.
  rewrite !length_skipn, Nat.min_l by lia.
  rewrite (@skipn_all2 _ (List.length b - S c)%nat (skipn (S c) b))
    by (rewrite length_skipn; lia).
  apply app_nil_r.
Qed.

(** Closing the range [lo, hi): [copy(b[lo:], b[hi:])]. *)
Lemma shift_left {A : Type} (b : list A) (lo hi : nat) :
  (lo <= hi)%nat -> (hi <= List.length b)%nat ->
  firstn lo b ++ Go.copy (skipn lo b) (skipn hi b)
  = firstn lo b ++ skipn hi b ++ skipn (List.length b - (hi - lo)) b.
Proof.
  intros H1 H2. f_equal. unfold Go.copy.
  rewrite !length_skipn, Nat.min_r by lia.
  rewrite firstn_all2 by (rewrite length_skipn; lia).
  f_equal. rewrite skipn_skipn. f_equal. lia.
Qed.

Lemma firstn_gap {A : Type} (p q : list A) (x : A) (c m : nat) :
  List.length p = c -> firstn (S (c + m)) (p ++ x :: q) = p ++ x :: firstn m q.
Proof.
  intros <-. rewrite firstn_app.
  rewrite firstn_all2 by lia. f_equal.
  replace (S (List.length p + m) - List.length p)%nat with (S m) by lia.
  apply firstn_cons.
Qed.

(** The text cut at [c] and put together again. *)
Lemma cut_and_join {A : Type} (l : list A) (c n : nat) :
  (c <= n)%nat ->
  firstn c (firstn c l) ++ skipn c (firstn n l) ++ skipn c (firstn c l) = firstn n l.
Proof.
  intros Hcn. rewrite firstn_firstn, Nat.min_id.
  rewrite (skipn_all2 (firstn c l)) by (rewrite length_firstn; lia).
  rewrite app_nil_r.
  replace (firstn c l) with (firstn c (firstn n l))
    by (rewrite firstn_firstn; f_equal; lia).
  apply firstn_skipn.
Qed.

(** ** Rules of the weakest precondition *)

Section Rules.
Context {S : Type}.

Lemma wp_ret {A : Type} (a : A) (Q : A -> S -> Prop) R s :
  Q a s -> wp (ret a) Q R s.
Proof. exact (fun q => q). Qed.

Lemma wp_get (Q : S -> S -> Prop) R s : Q s s -> wp get Q R s.
Proof. exact (fun q => q). Qed.

Lemma wp_modify (f : S -> S) (Q : unit -> S -> Prop) R s :
  Q tt (f s) -> wp (modify f) Q R s.
Proof. exact (fun q => q). Qed.

Lemma wp_bind {A B : Type} (c : M S A) (k : A -> M S B) (Q : B -> S -> Prop) R s :
  wp c (fun a s' => wp (k a) Q R s') R s -> wp (bind c k) Q R s.
Proof. unfold wp, bind. now destruct (c s). Qed.

Lemma wp_conseq {A : Type} (c : M S A) (Q Q' : A -> S -> Prop) (R R' : S -> Prop) s :
  wp c Q R s -> (forall a s', Q a s' -> Q' a s') -> (forall s', R s' -> R' s') ->
  wp c Q' R' s.
Proof. unfold wp. destruct (c s); auto. Qed.

Lemma wp_mid {A : Type} (c : M S A) (I Q : A -> S -> Prop) R s :
  wp c I R s -> (forall a s', I a s' -> Q a s') -> wp c Q R s.
Proof. intros Hc HQ. eapply wp_conseq; eauto. Qed.

Lemma wp_returns {A : Type} (c : M S A) (Q : A -> S -> Prop) s :
  wp c Q never s -> exists a s', c s = Ok a s' /\ Q a s'.
Proof. unfold wp, never. destruct (c s); [eauto | tauto]. Qed.

Lemma wp_final {A : Type} (c : M S A) (Q : A -> S -> Prop) R s :
  wp c Q R s -> (forall a s', Q a s' -> R s') -> R (final (c s)).
Proof. unfold wp. destruct (c s); cbn; eauto. Qed.

Lemma wp_of_eq {A : Type} (c : M S A) (Q : A -> S -> Prop) R s a s' :
  c s = Ok a s' -> Q a s' -> wp c Q R s.
Proof. unfold wp. now intros ->. Qed.

End Rules.

Ltac fields :=
  cbv beta iota delta [set_length set_cursor set_buf set_yanked set_yanking
                       set_history set_historyIndex] in *;
  cbn [length cursor buf yanked yanking history historyIndex] in *.

(** One step through a computation.  The rules are applied with their
    arguments read off the goal, so that unification never unfolds [wp]. *)
Ltac step1 :=
  lazymatch goal with
  | |- wp (bind ?c ?k) ?Q ?R ?s => apply (wp_bind c k Q R s)
  | |- wp (ret ?a) ?Q ?R ?s => apply (wp_ret a Q R s)
  | |- wp get ?Q ?R ?s => apply (wp_get Q R s)
  | |- wp (modify ?f) ?Q ?R ?s => apply (wp_modify f Q R s)
  end; cbv beta.

Ltac steps := repeat step1; fields.

Lemma wp_load (i : Z) (Q : byte -> lineBuf -> Prop) R (s : lineBuf) :
  (forall x, Go.index s.(buf) i = Some x -> Q x s) ->
  (Go.index s.(buf) i = None -> R s) ->
  wp (load i) Q R s.
Proof.
  intros HQ HR. unfold wp, load. destruct (Go.index (buf s) i); auto.
Qed.

Lemma wp_store (i : Z) (ch : byte) (Q : unit -> lineBuf -> Prop) R (s : lineBuf) :
  0 <= i < capacity s ->
  Q tt (set_buf (firstn (Z.to_nat i) s.(buf) ++ ch :: skipn (S (Z.to_nat i)) s.(buf)) s) ->
  wp (store i ch) Q R s.
Proof.
  intros Hi HQ. unfold wp, store. now rewrite update_in_range.
Qed.

Lemma wp_sliced (lo hi : Z) (Q : list byte -> lineBuf -> Prop) R (s : lineBuf) :
  0 <= lo -> lo <= hi -> hi <= capacity s ->
  Q (firstn (Z.to_nat (hi - lo)) (skipn (Z.to_nat lo) s.(buf))) s ->
  wp (sliced lo hi) Q R s.
Proof.
  intros H1 H2 H3 HQ. unfold wp, sliced. now rewrite slice_in_range.
Qed.

Lemma wp_copy_within (d r : Z) (Q : unit -> lineBuf -> Prop) R (s : lineBuf) :
  0 <= d <= capacity s -> 0 <= r <= capacity s ->
  Q tt (set_buf (firstn (Z.to_nat d) s.(buf)
                 ++ Go.copy (skipn (Z.to_nat d) s.(buf)) (skipn (Z.to_nat r) s.(buf))) s) ->
  wp (copy_within d r) Q R s.
Proof.
  intros Hd Hr HQ. unfold wp, copy_within, capacity in *.
  now rewrite !slice_to_end by lia.
Qed.

(** ** The buffer operations, one by one *)

Lemma load_in_range (i : Z) (s : lineBuf) :
  0 <= i < capacity s -> exists x, load i s = Ok x s /\ Go.index s.(buf) i = Some x.
Proof.
  intros Hi. destruct (index_in_range s.(buf) i Hi) as [x Hx].
  exists x. unfold load. now rewrite Hx.
Qed.

Lemma content_length (s : lineBuf) :
  0 <= s.(length) <= capacity s -> Go.len (content s) = s.(length).
Proof.
  intros Hs. unfold content, Go.len, capacity, Go.len in *.
  rewrite length_firstn. lia.
Qed.

Lemma Insert_spec (ch : byte) (s : lineBuf) :
  inv s -> wp (Insert ch) (fun _ s' => inserted ch s s') never s.
Proof.
  intros (Hc0 & Hcl & Hlc).
  destruct s as [n c b y yk h hi]; unfold capacity in *; fields.
  unfold Insert. steps.
  (* the array after the optional growth *)
  apply wp_mid with (I := fun _ s1 =>
    exists b1, s1 = mkLineBuf n c b1 y false h hi /\ n < Go.len b1 /\
               Go.len b <= Go.len b1 /\ firstn (Z.to_nat n) b1 = firstn (Z.to_nat n) b).
  { destruct (Z.eqb_spec n (Go.len b)) as [E|E]; steps.
    - exists (b ++ repeat zero 10). rewrite grow_copy. split; [reflexivity|].
      unfold Go.len in *. rewrite length_app, repeat_length. repeat split; try lia.
      rewrite firstn_app. replace (Z.to_nat n - List.length b)%nat with O by lia.
      apply app_nil_r.
    - exists b. repeat split; lia. }
  intros _ s1 (b1 & -> & Hn1 & Hcap & Hpre). steps.
  (* the gap and the store *)
  assert (Hc1 : List.length (firstn (Z.to_nat c) b1) = Z.to_nat c)
    by (rewrite length_firstn; unfold Go.len in *; lia).
  apply wp_mid with (I := fun _ s2 =>
    exists b2, s2 = mkLineBuf n c b2 y false h hi /\ Go.len b2 = Go.len b1 /\
      firstn (Z.to_nat (n + 1)) b2
      = firstn (Z.to_nat c) b1 ++ ch :: firstn (Z.to_nat (n - c)) (skipn (Z.to_nat c) b1)).
  { replace (Z.to_nat (n + 1)) with (S (Z.to_nat c + Z.to_nat (n - c))) by lia.
    destruct (Z.eqb_spec c n) as [E|E].
    - apply wp_store; [unfold capacity; fields; lia|]. fields.
      eexists; split; [reflexivity|]. split.
      + unfold Go.len in *. rewrite length_updated; lia.
      + rewrite firstn_gap by exact Hc1.
        now replace (Z.to_nat (n - c)) with O by lia.
    - step1. apply wp_copy_within; unfold capacity; fields; try lia.
      apply wp_store.
      { unfold capacity; fields. unfold Go.len in *.
        rewrite length_app, length_copy, length_firstn, length_skipn. lia. }
      fields. eexists; split; [reflexivity|].
      replace (Z.to_nat (c + 1)) with (S (Z.to_nat c)) by lia.
      rewrite shift_right_store by (unfold Go.len in *; lia).
      split.
      + unfold Go.len in *.
        rewrite length_app, length_cons, !length_firstn, length_skipn. lia.
      + rewrite firstn_gap by exact Hc1. do 2 f_equal.
        rewrite firstn_firstn. f_equal. unfold Go.len in *. lia. }
  intros _ s2 (b2 & -> & Hlen2 & Hcont). steps.
  unfold inserted, capacity, content; fields.
  repeat split; try lia.
  rewrite Hcont, <- Hpre, firstn_firstn, skipn_firstn_comm.
  do 3 f_equal; lia.
Qed.

Lemma inserted_inv (ch : byte) (s s' : lineBuf) :
  inv s -> inserted ch s s' -> inv s'.
Proof.
  intros (H0 & H1 & H2) (Hl & Hc & _ & _ & _ & _ & Hcap & _). unfold inv. lia.
Qed.

Lemma InsertBytes_spec (chs : list byte) (s : lineBuf) :
  inv s -> wp (InsertBytes chs) (fun _ s' => inserted_bytes chs s s') never s.
Proof.
  revert s. induction chs as [|ch rest IH]; intros s Hs; cbn [InsertBytes].
  - step1. destruct Hs as (H0 & H1 & H2).
    unfold inserted_bytes, Go.len. cbn [List.length app].
    rewrite firstn_skipn. repeat split; lia.
  - step1. eapply wp_mid; [apply (Insert_spec ch s Hs)|].
    intros ? s1 Hins. cbv beta in *.
    eapply wp_mid; [apply (IH s1 (inserted_inv ch s s1 Hs Hins))|].
    intros ? s2 Hrest. cbv beta in *.
    destruct Hs as (H0 & H1 & H2).
    destruct Hins as (Il & Ic & Iy & Ik & Ih & Ii & Icap & Igrow & Icont).
    destruct Hrest as (Rl & Rc & Ry & Rk & Rh & Ri & Rcap & Rgrow & Rcont).
    unfold inserted_bytes, Go.len in *. cbn [List.length].
    repeat split; try congruence; try lia.
    + destruct rest; congruence.
    + rewrite Rcont, Icont, Ic.
      assert (Hp : List.length (firstn (Z.to_nat (cursor s)) (content s)) = Z.to_nat (cursor s)).
      { rewrite length_firstn. pose proof (content_length s) as Hcl.
        unfold Go.len in Hcl. lia. }
      replace (Z.to_nat (cursor s + 1)) with (S (Z.to_nat (cursor s) + 0)) by lia.
      rewrite firstn_gap by exact Hp. rewrite firstn_0.
      replace (S (Z.to_nat (cursor s) + 0)) with (1 + Z.to_nat (cursor s))%nat by lia.
      rewrite <- skipn_skipn, skipn_exact by exact Hp.
      cbn [skipn]. rewrite <- app_assoc. reflexivity.
Qed.

Lemma inserted_bytes_inv (chs : list byte) (s s' : lineBuf) :
  inv s -> inserted_bytes chs s s' -> inv s'.
Proof.
  intros (H0 & H1 & H2) (Hl & Hc & _ & _ & _ & _ & Hcap & _).
  pose proof (len_nonneg chs). unfold inv. lia.
Qed.

Lemma Clear_inv (s : lineBuf) :
  inv s -> wp Clear (fun _ s' => inv s') never s.
Proof.
  intros (H0 & H1 & H2). unfold Clear. steps. unfold inv, capacity in *; fields. lia.
Qed.

Lemma Delete_inv (s : lineBuf) :
  inv s -> wp Delete (fun _ s' => inv s') never s.
Proof.
  intros (H0 & H1 & H2). unfold Delete. steps.
  destruct (Z.ltb_spec (cursor s) (length s)) as [E|E]; steps.
  - apply wp_copy_within; unfold capacity in *; fields; try lia.
    steps. unfold inv, capacity, Go.len in *; fields.
    rewrite length_app, length_copy, length_firstn, length_skipn. lia.
  - unfold inv, capacity in *; fields. lia.
Qed.

Lemma span_buf (s : lineBuf) (lo hi : Z) :
  0 <= lo -> hi <= s.(length) ->
  firstn (Z.to_nat (hi - lo)) (skipn (Z.to_nat lo) s.(buf)) = span s lo hi.
Proof.
  intros Hlo Hhi. unfold span, content.
  rewrite skipn_firstn_comm, firstn_firstn. f_equal. lia.
Qed.

Lemma KillToEnd_spec (s : lineBuf) :
  inv s ->
  wp KillToEnd (fun n s' => n = s.(length) - s.(cursor) /\ killed_to_end s s') never s.
Proof.
  intros (H0 & H1 & H2). unfold KillToEnd. steps.
  apply wp_sliced; try lia. steps.
  split; [reflexivity|]. unfold killed_to_end, kill.
  rewrite span_buf by lia. destruct (yanking s); reflexivity.
Qed.

Lemma delete_body (lo hi : Z) (s : lineBuf) :
  inv s -> 0 <= lo -> lo < hi -> hi <= s.(length) ->
  wp (bs <- sliced lo hi ;
      modify (kill bs) ;;
      copy_within lo hi ;;
      modify (set_length (s.(length) - (hi - lo))) ;;
      modify (set_cursor lo))
     (fun _ s' => range_deleted lo hi s s') never s.
Proof.
  intros (H0 & H1 & H2) Hlo Hlh Hhi. step1.
  apply wp_sliced; try lia. steps.
  assert (Hb : buf (kill (firstn (Z.to_nat (hi - lo)) (skipn (Z.to_nat lo) (buf s))) s) = buf s)
    by (unfold kill; destruct (yanking s); reflexivity).
  apply wp_copy_within; unfold capacity in *; rewrite ?Hb; try lia.
  steps. unfold range_deleted, capacity, content; fields.
  unfold kill. rewrite span_buf by lia.
  assert (Hlen : (Z.to_nat hi <= List.length (buf s))%nat) by (unfold Go.len in *; lia).
  rewrite shift_left by lia.
  repeat split; try (destruct (yanking s) eqn:Ey; cbn; congruence).
  - unfold Go.len. f_equal.
    rewrite !length_app, length_firstn, !length_skipn. lia.
  - assert (Hp : List.length (firstn (Z.to_nat lo) (buf s)) = Z.to_nat lo)
      by (rewrite length_firstn; lia).
    rewrite firstn_app, Hp, firstn_firstn, firstn_app, length_skipn.
    rewrite firstn_firstn, skipn_firstn_comm.
    replace (Nat.min (Z.to_nat (length s - (hi - lo))) (Z.to_nat lo)) with (Z.to_nat lo) by lia.
    replace (Nat.min (Z.to_nat lo) (Z.to_nat (length s))) with (Z.to_nat lo) by lia.
    f_equal.
    unfold Go.len in *.
    replace (Z.to_nat (length s - (hi - lo)) - Z.to_nat lo - (List.length (buf s) - Z.to_nat hi))%nat
      with O by lia.
    rewrite firstn_0, app_nil_r. f_equal. lia.
Qed.

Lemma DeleteRange_spec (begin end_ : Z) (s : lineBuf) :
  inv s ->
  wp (DeleteRange begin end_)
     (fun n s' =>
        if (begin >? s.(length)) || (end_ <? 0) then n = 0 /\ s' = s
        else let lo := Z.max begin 0 in
             let hi := Z.min end_ s.(length) in
             n = hi - lo /\
             if lo <? hi then range_deleted lo hi s s' else s' = s)
     never s.
Proof.
  intros Hs. pose proof Hs as (H0 & H1 & H2). unfold DeleteRange. steps.
  destruct (Z.ltb_spec begin 0) as [Eb|Eb];
    destruct (Z.gtb_spec begin (length s)) as [Eb'|Eb'];
    destruct (Z.gtb_spec end_ (length s)) as [Ee|Ee];
    destruct (Z.ltb_spec end_ 0) as [Ee'|Ee'];
    cbn [orb]; cbv iota; try (exfalso; lia); try (steps; tauto); cbv zeta.
  all: match goal with
       | |- context [Z.max ?a ?b] =>
           first [ replace (Z.max a b) with a by lia | replace (Z.max a b) with b by lia ]
       end.
  all: match goal with
       | |- context [Z.min ?a ?b] =>
           first [ replace (Z.min a b) with a by lia | replace (Z.min a b) with b by lia ]
       end.
  all: rewrite Z.gtb_ltb;
       match goal with |- context [0 <? ?hi - ?lo] =>
         replace (0 <? hi - lo) with (lo <? hi)
           by (destruct (Z.ltb_spec lo hi), (Z.ltb_spec 0 (hi - lo)); (reflexivity || lia));
         destruct (Z.ltb_spec lo hi)
       end.
  all: try (steps; tauto).
  all: step1; eapply wp_mid; [apply delete_body; (assumption || lia)|];
       intros ? s' Hd; cbv beta in *; steps; tauto.
Qed.

Lemma DeleteRange_inv (begin end_ : Z) (s : lineBuf) :
  inv s -> wp (DeleteRange begin end_) (fun _ s' => inv s') never s.
Proof.
  intros Hs. eapply wp_mid; [apply (DeleteRange_spec begin end_ s Hs)|].
  intros n s'. cbv beta zeta. pose proof Hs as (H0 & H1 & H2).
  destruct ((begin >? length s) || (end_ <? 0)) eqn:E; [now intros (_ & ->)|].
  apply orb_false_iff in E. destruct E as (E1 & E2).
  rewrite Z.gtb_ltb in E1. apply Z.ltb_ge in E1, E2.
  intros (_ & Hr).
  destruct (Z.ltb_spec (Z.max begin 0) (Z.min end_ (length s))) as [E|E]; [|now subst].
  destruct Hr as (Hl & Hc & _ & _ & _ & _ & Hcap & _).
  unfold inv. lia.
Qed.

(** The scanning loops only read: whether they return or panic, the buffer
    is as it was, and the index they return lies within the steps taken. *)
Lemma back_over_spaces_spec (k : nat) (i : Z) (s : lineBuf) :
  wp (back_over_spaces k i)
     (fun j s' => s' = s /\ i - Z.of_nat k <= j <= i) (fun s' => s' = s) s.
Proof.
  revert i. induction k as [|k IH]; intros i; cbn [back_over_spaces].
  - step1. split; [reflexivity|lia].
  - step1. apply wp_load; [|reflexivity]. intros x _.
    destruct (negb (is_space x)).
    + step1. split; [reflexivity|lia].
    + eapply wp_mid; [apply IH|]. cbv beta. intros j s' (-> & Hj).
      split; [reflexivity|lia].
Qed.

Lemma back_to_space_spec (k : nat) (i : Z) (s : lineBuf) :
  wp (back_to_space k i)
     (fun r s' => s' = s /\
        match r with Some j => i - Z.of_nat k < j <= i | None => True end)
     (fun s' => s' = s) s.
Proof.
  revert i. induction k as [|k IH]; intros i; cbn [back_to_space].
  - step1. split; [reflexivity|exact I].
  - step1. apply wp_load; [|reflexivity]. intros x _.
    destruct (is_space x).
    + step1. split; [reflexivity|lia].
    + eapply wp_mid; [apply IH|]. cbv beta. intros [j|] s' (-> & Hj);
        (split; [reflexivity|]); [lia|exact I].
Qed.

Lemma forward_over_spaces_spec (k : nat) (i : Z) (s : lineBuf) :
  wp (forward_over_spaces k i)
     (fun j s' => s' = s /\ i <= j <= i + Z.of_nat k) (fun s' => s' = s) s.
Proof.
  revert i. induction k as [|k IH]; intros i; cbn [forward_over_spaces].
  - step1. split; [reflexivity|lia].
  - step1. apply wp_load; [|reflexivity]. intros x _.
    destruct (negb (is_space x)).
    + step1. split; [reflexivity|lia].
    + eapply wp_mid; [apply IH|]. cbv beta. intros j s' (-> & Hj).
      split; [reflexivity|lia].
Qed.

Lemma forward_to_space_spec (k : nat) (i : Z) (s : lineBuf) :
  wp (forward_to_space k i)
     (fun r s' => s' = s /\
        match r with Some j => i <= j < i + Z.of_nat k | None => True end)
     (fun s' => s' = s) s.
Proof.
  revert i. induction k as [|k IH]; intros i; cbn [forward_to_space].
  - step1. split; [reflexivity|exact I].
  - step1. apply wp_load; [|reflexivity]. intros x _.
    destruct (is_space x).
    + step1. split; [reflexivity|lia].
    + eapply wp_mid; [apply IH|]. cbv beta. intros [j|] s' (-> & Hj);
        (split; [reflexivity|]); [lia|exact I].
Qed.

(** A computation that returns also satisfies the weaker triple that lets
    it panic in a state satisfying [R]. *)
Lemma wp_never {S A : Type} (c : M S A) (Q : A -> S -> Prop) (R : S -> Prop) s :
  wp c Q never s -> wp c Q R s.
Proof. intros H. eapply wp_conseq; [exact H|auto|]. intros s' []. Qed.

Lemma WordBackspace_inv (s : lineBuf) :
  inv s -> wp WordBackspace (fun _ s' => inv s') inv s.
Proof.
  intros Hs. unfold WordBackspace. steps.
  eapply wp_conseq; [apply back_over_spaces_spec| |now intros s' ->].
  cbv beta. intros i s' (-> & Hi). step1.
  apply wp_load; [|auto]. intros x _. step1.
  eapply wp_conseq with (Q := fun r s' => s' = s) (R := fun s' => s' = s).
  - destruct (negb (is_space x)).
    + eapply wp_mid; [apply back_to_space_spec|]. now intros r s' (-> & _).
    + now step1.
  - cbv beta. intros [j|] s' ->; apply wp_never, DeleteRange_inv, Hs.
  - now intros s' ->.
Qed.

Lemma WordDelete_inv (s : lineBuf) :
  inv s -> wp WordDelete (fun _ s' => inv s') inv s.
Proof.
  intros Hs. unfold WordDelete. steps.
  eapply wp_conseq; [apply forward_over_spaces_spec| |now intros s' ->].
  cbv beta. intros i s' (-> & Hi). step1.
  eapply wp_conseq; [apply forward_to_space_spec| |now intros s' ->].
  cbv beta. intros [j|] s' (-> & Hj).
  - apply wp_never, DeleteRange_inv, Hs.
  - now step1.
Qed.

Lemma WordForward_inv (s : lineBuf) :
  inv s -> wp WordForward (fun _ s' => inv s') inv s.
Proof.
  intros Hs. pose proof Hs as (H0 & H1 & H2). unfold WordForward. steps.
  eapply wp_conseq; [apply forward_over_spaces_spec| |now intros s' ->].
  cbv beta. intros i s' (-> & Hi). step1.
  eapply wp_conseq; [apply forward_to_space_spec| |now intros s' ->].
  cbv beta. intros [j|] s' (-> & Hj); steps; unfold inv, capacity in *; fields; lia.
Qed.

Lemma WordBackward_inv (s : lineBuf) :
  inv s -> wp WordBackward (fun _ s' => inv s') inv s.
Proof.
  intros Hs. pose proof Hs as (H0 & H1 & H2). unfold WordBackward. steps.
  eapply wp_conseq; [apply back_over_spaces_spec| |now intros s' ->].
  cbv beta. intros i s' (-> & Hi). step1.
  apply wp_load; [|auto]. intros x _. step1.
  eapply wp_conseq with
    (Q := fun r s' => s' = s /\ match r with Some j => 0 < j <= i | None => True end)
    (R := fun s' => s' = s).
  - destruct (negb (is_space x)).
    + eapply wp_mid; [apply back_to_space_spec|].
      intros [j|] s' (-> & Hj); (split; [reflexivity|]); [|exact I].
      destruct (Z.gtb_spec (cursor s) 0); lia.
    + step1. now split.
  - cbv beta. intros [j|] s' (-> & Hj); steps; unfold inv, capacity in *; fields;
      destruct (Z.gtb_spec (cursor s) 0); lia.
  - now intros s' ->.
Qed.

Lemma Yank_spec (s : lineBuf) :
  inv s ->
  wp Yank (fun n s' =>
             n = Z.of_nat (String.length s.(yanked)) /\
             inserted_bytes (Go.bytes_of_string s.(yanked)) (set_yanking true s) s')
     never s.
Proof.
  intros Hs. unfold Yank. step1. step1. cbv beta. step1. step1. cbv beta. step1.
  eapply wp_mid; [apply InsertBytes_spec; exact Hs|].
  intros ? s' Hins. cbv beta in *. steps. split; [|exact Hins].
  destruct Hins as (_ & _ & Hy & _). rewrite Hy. reflexivity.
Qed.

Lemma Yank_inv (s : lineBuf) :
  inv s -> wp Yank (fun _ s' => inv s') never s.
Proof.
  intros Hs. eapply wp_mid; [apply (Yank_spec s Hs)|].
  intros n s' (_ & Hins). eapply inserted_bytes_inv; [|exact Hins]. exact Hs.
Qed.

Lemma Backward_inv (s : lineBuf) :
  inv s -> wp Backward (fun _ s' => inv s') never s.
Proof.
  intros (H0 & H1 & H2). unfold Backward. steps.
  destruct (Z.gtb_spec (cursor s) 0); steps; unfold inv, capacity in *; fields; lia.
Qed.

Lemma Forward_inv (s : lineBuf) :
  inv s -> wp Forward (fun _ s' => inv s') never s.
Proof.
  intros (H0 & H1 & H2). unfold Forward. steps.
  destruct (Z.ltb_spec (cursor s) (length s)); steps; unfold inv, capacity in *; fields; lia.
Qed.

Lemma Begin_inv (s : lineBuf) :
  inv s -> wp Begin (fun _ s' => inv s') never s.
Proof.
  intros (H0 & H1 & H2). unfold Begin. steps. unfold inv, capacity in *; fields; lia.
Qed.

Lemma End_inv (s : lineBuf) :
  inv s -> wp End (fun _ s' => inv s') never s.
Proof.
  intros (H0 & H1 & H2). unfold End. steps. unfold inv, capacity in *; fields; lia.
Qed.

Lemma AddToHistory_inv (line : string) (s : lineBuf) :
  inv s -> wp (AddToHistory line) (fun _ s' => inv s') never s.
Proof.
  intros (H0 & H1 & H2). unfold AddToHistory. steps.
  unfold inv, capacity in *; fields; lia.
Qed.

Lemma String_spec (s : lineBuf) :
  0 <= s.(length) -> s.(length) <= capacity s -> String_ s = Ok (text s) s.
Proof.
  intros H0 H1. unfold String_, bind, get, sliced, capacity in *.
  rewrite slice_in_range by lia.
  unfold ret, text, content. now rewrite Z.sub_0_r.
Qed.

Lemma recall_returns (n : Z) (s : lineBuf) (h : list string) (e : string) :
  s.(history) = Some h -> Go.index h s.(historyIndex) = Some e ->
  wp (modify (set_length 0) ;;
      modify (set_cursor 0) ;;
      e <- history_entry ;
      InsertBytes (Go.bytes_of_string e) ;;
      lb <- get ;
      ret (if lb.(length) >? n then lb.(length) else n))
     (recalled n s) never s.
Proof.
  intros Eh Ee.
  assert (Hs : inv (set_cursor 0 (set_length 0 s))).
  { unfold inv, capacity; fields. pose proof (len_nonneg (buf s)). lia. }
  do 4 step1. step1.
  apply wp_of_eq with (a := e) (s' := set_cursor 0 (set_length 0 s)).
  { unfold history_entry; fields. now rewrite Eh, Ee. }
  step1.
  eapply wp_mid; [apply InsertBytes_spec; exact Hs|].
  intros ? s' Hins. cbv beta in *. steps.
  exists h, e. 
  split; [assumption|split; [assumption|split; [assumption|reflexivity]]].
Qed.

Lemma recall_spec (n : Z) (s : lineBuf) :
  wp (modify (set_length 0) ;;
      modify (set_cursor 0) ;;
      e <- history_entry ;
      InsertBytes (Go.bytes_of_string e) ;;
      lb <- get ;
      ret (if lb.(length) >? n then lb.(length) else n))
     (recalled n s) inv s.
Proof.
  assert (Hs : inv (set_cursor 0 (set_length 0 s))).
  { unfold inv, capacity; fields. pose proof (len_nonneg (buf s)). lia. }
  destruct (history s) as [h|] eqn:Eh.
  - destruct (Go.index h (historyIndex s)) as [e|] eqn:Ee.
    + apply wp_never. now apply recall_returns with (h := h) (e := e).
    + do 4 step1. step1. unfold wp at 1, history_entry; fields. now rewrite Eh, Ee.
  - do 4 step1. step1. unfold wp at 1, history_entry; fields. now rewrite Eh.
Qed.

Lemma recalled_inv (n : Z) (s : lineBuf) (r : Z) (s' : lineBuf) :
  recalled n s r s' -> inv s'.
Proof.
  intros (h & e & _ & _ & Hins & _).
  eapply inserted_bytes_inv; [|exact Hins].
  unfold inv, capacity; fields. pose proof (len_nonneg (buf s)). lia.
Qed.

Lemma PrevInHistory_inv (s : lineBuf) :
  inv s -> wp PrevInHistory (fun _ s' => inv s') inv s.
Proof.
  intros Hs. pose proof Hs as (H0 & H1 & H2). unfold PrevInHistory. steps.
  destruct (history s) as [h|] eqn:Eh; [|now step1].
  step1.
  apply wp_mid with (I := fun _ s1 => exists i, s1 = set_historyIndex i s).
  { destruct (historyIndex s <? 0); step1; eexists; reflexivity. }
  intros ? s1 (i & ->). cbv beta. do 2 step1. fields.
  destruct (i >=? 0).
  - eapply wp_conseq; [apply recall_spec| |auto].
    intros r s'. apply recalled_inv.
  - steps. unfold inv, capacity in *; fields. lia.
Qed.

Lemma NextInHistory_inv (s : lineBuf) :
  inv s -> wp NextInHistory (fun _ s' => inv s') inv s.
Proof.
  intros Hs. pose proof Hs as (H0 & H1 & H2). unfold NextInHistory. steps.
  destruct (history s) as [h|] eqn:Eh; [|now step1].
  destruct (historyIndex s >=? 0); [|now step1].
  steps.
  destruct (historyIndex s + 1 <? Go.len h).
  - eapply wp_conseq; [apply recall_spec| |auto].
    intros r s'. apply recalled_inv.
  - steps. unfold inv, capacity in *; fields. lia.
Qed.

Lemma recalled_text (n : Z) (s : lineBuf) (r : Z) (s' : lineBuf) (h : list string) (e : string) :
  s.(history) = Some h -> Go.index h s.(historyIndex) = Some e ->
  recalled n s r s' ->
  text s' = e /\ s'.(history) = Some h /\ s'.(historyIndex) = s.(historyIndex) /\ inv s'.
Proof.
  intros Eh Ee Hr. pose proof (recalled_inv _ _ _ _ Hr) as Hi.
  destruct Hr as (h' & e' & Eh' & Ee' & Hins & _).
  assert (h' = h) by congruence. subst h'.
  assert (e' = e) by congruence. subst e'.
  destruct Hins as (_ & _ & _ & _ & Hh & Hx & _ & _ & Hcont).
  fields. split; [|split; [congruence|split; [congruence|exact Hi]]].
  unfold text. rewrite Hcont. unfold content; fields. cbn [Z.to_nat firstn skipn app].
  rewrite app_nil_r. apply string_of_list_ascii_of_string.
Qed.

(** A step back lands on the entry before the one shown, or on the newest
    entry when the history is not being browsed. *)
Lemma PrevInHistory_lands (s : lineBuf) (h : list string) (e : string) (i : Z) :
  s.(history) = Some h ->
  i = (if s.(historyIndex) <? 0 then Go.len h - 1 else s.(historyIndex) - 1) ->
  Go.index h i = Some e ->
  wp PrevInHistory
     (fun _ s' => text s' = e /\ s'.(history) = Some h /\ s'.(historyIndex) = i /\ inv s')
     never s.
Proof.
  intros Eh Ei Ee. unfold PrevInHistory. steps. rewrite Eh. step1.
  apply wp_mid with (I := fun _ s1 => s1 = set_historyIndex i s).
  { subst i. destruct (historyIndex s <? 0); now step1. }
  intros ? s1 ->. do 2 step1. fields.
  assert (Hi : 0 <= i).
  { unfold Go.index in Ee. destruct (Z.leb_spec 0 i); [assumption|discriminate]. }
  replace (i >=? 0) with true by (symmetry; apply Z.geb_le; lia).
  eapply wp_mid; [apply recall_returns with (h := h) (e := e); fields; assumption|].
  intros r s' Hr.
  apply recalled_text with (h := h) (e := e) in Hr; fields; assumption.
Qed.

(** A step back from the oldest entry stays there. *)
Lemma PrevInHistory_pins (s : lineBuf) (h : list string) :
  s.(history) = Some h -> s.(historyIndex) = 0 ->
  wp PrevInHistory (fun _ s' => s' = s) never s.
Proof.
  intros Eh E0. unfold PrevInHistory. steps. rewrite Eh, E0. cbn [Z.ltb Z.compare].
  steps. change (0 - 1 >=? 0) with false. cbv iota. steps.
  destruct s; fields. congruence.
Qed.

Lemma NextInHistory_lands (s : lineBuf) (h : list string) (e : string) :
  s.(history) = Some h -> 0 <= s.(historyIndex) ->
  Go.index h (s.(historyIndex) + 1) = Some e ->
  wp NextInHistory
     (fun _ s' => text s' = e /\ s'.(history) = Some h /\
                  s'.(historyIndex) = s.(historyIndex) + 1 /\ inv s')
     never s.
Proof.
  intros Eh Hi Ee. unfold NextInHistory. steps. rewrite Eh.
  replace (historyIndex s >=? 0) with true by (symmetry; apply Z.geb_le; lia).
  steps.
  assert (Hlt : historyIndex s + 1 < Go.len h).
  { unfold Go.index in Ee. destruct (0 <=? historyIndex s + 1); [|discriminate].
    destruct (Z.ltb_spec (historyIndex s + 1) (Go.len h)); [assumption|discriminate]. }
  apply Z.ltb_lt in Hlt. rewrite Hlt.
  eapply wp_mid; [apply recall_returns with (h := h) (e := e); fields; assumption|].
  intros r s' Hr.
  apply recalled_text with (h := h) (e := e) in Hr; fields; assumption.
Qed.

(** A step forward from the newest entry stays there: the index goes up
    and comes back down, the buffer is not touched. *)
Lemma NextInHistory_stays (s : lineBuf) (h : list string) :
  s.(history) = Some h -> 0 <= s.(historyIndex) -> Go.len h <= s.(historyIndex) + 1 ->
  wp NextInHistory (fun r s' => r = s.(length) /\ s' = s) never s.
Proof.
  intros Eh Hi Hlast. unfold NextInHistory. steps. rewrite Eh.
  replace (historyIndex s >=? 0) with true by (symmetry; apply Z.geb_le; lia).
  steps.
  replace (historyIndex s + 1 <? Go.len h) with false by (symmetry; apply Z.ltb_ge; lia).
  steps. split; [reflexivity|]. destruct s; fields. f_equal. lia.
Qed.

Lemma wp_String (s : lineBuf) (Q : string -> lineBuf -> Prop) R :
  inv s -> Q (text s) s -> wp String_ Q R s.
Proof.
  intros (H0 & H1 & H2) HQ. apply wp_of_eq with (a := text s) (s' := s); [|exact HQ].
  apply String_spec; lia.
Qed.

Lemma wp_discard {A : Type} (c : M lineBuf A) (P R : lineBuf -> Prop) (s : lineBuf) :
  wp c (fun _ s' => P s') R s -> wp (discard c) (fun _ s' => P s') R s.
Proof.
  intros H. unfold discard. step1. eapply wp_mid; [exact H|]. now intros a s' HP.
Qed.

Lemma perform_inv (o : operation) (s : lineBuf) :
  inv s -> wp (perform o) (fun _ s' => inv s') inv s.
Proof.
  intros Hs. destruct o; cbn [perform]; try apply wp_discard.
  - eapply wp_never, wp_mid; [apply Insert_spec, Hs|].
    intros ? s'. now apply inserted_inv.
  - eapply wp_never, wp_mid; [apply InsertBytes_spec, Hs|].
    intros ? s'. now apply inserted_bytes_inv.
  - now apply wp_never, Delete_inv.
  - eapply wp_never, wp_mid; [apply KillToEnd_spec, Hs|].
    intros n s' (_ & ->). destruct Hs as (H0 & H1 & H2).
    unfold inv, capacity in *; fields. lia.
  - now apply wp_never, DeleteRange_inv.
  - now apply WordBackspace_inv.
  - now apply WordDelete_inv.
  - now apply WordForward_inv.
  - now apply WordBackward_inv.
  - now apply wp_never, Yank_inv.
  - now apply wp_never, Backward_inv.
  - now apply wp_never, Forward_inv.
  - now apply wp_never, Begin_inv.
  - now apply wp_never, End_inv.
  - now apply wp_never, Clear_inv.
  - now apply PrevInHistory_inv.
  - now apply NextInHistory_inv.
  - now apply wp_never, AddToHistory_inv.
Qed.

(** C1.  Every operation of the edit buffer, started in a state with
    [0 <= cursor <= length <= capacity], leaves a state with
    [0 <= cursor <= length <= capacity]; this is the state the operation
    returns in or, where an array read of the operation is out of range,
    the state the struct is left in by the panic. *)
Theorem invariant_preserved (o : operation) (s : lineBuf) :
  inv s -> inv (final (perform o s)).
Proof.
  intros Hs. eapply wp_final; [apply perform_inv, Hs|]. auto.
Qed.

(** Inserting a byte in the middle of a full two-byte buffer. *)
Lemma invariant_preserved_witness :
  let s := mkLineBuf 2 1 (Go.bytes_of_string "ab") "" false None (-1) in
  inv s /\ inv (final (perform (OpInsert "x"%char) s)).
Proof.
  intros s.
  assert (Hs : inv s) by (unfold inv, capacity, Go.len; cbn; lia).
  split; [exact Hs|]. exact (invariant_preserved (OpInsert "x"%char) s Hs).
Defined.

(** The operations with guarded reads return. *)
Lemma perform_returns (o : operation) (s : lineBuf) :
  inv s -> reads_unguarded o = false ->
  exists s', perform o s = Ok tt s' /\ inv s'.
Proof.
  intros Hs Ho.
  assert (H : wp (perform o) (fun _ s' => inv s') never s).
  { destruct o; try discriminate Ho; cbn [perform]; try apply wp_discard.
    - eapply wp_mid; [apply Insert_spec, Hs|]. intros ? s'. now apply inserted_inv.
    - eapply wp_mid; [apply InsertBytes_spec, Hs|].
      intros ? s'. now apply inserted_bytes_inv.
    - now apply Delete_inv.
    - eapply wp_mid; [apply KillToEnd_spec, Hs|].
      intros n s' (_ & ->). destruct Hs as (H0 & H1 & H2).
      unfold inv, capacity in *; fields. lia.
    - now apply DeleteRange_inv.
    - now apply Yank_inv.
    - now apply Backward_inv.
    - now apply Forward_inv.
    - now apply Begin_inv.
    - now apply End_inv.
    - now apply Clear_inv.
    - now apply AddToHistory_inv. }
  destruct (wp_returns _ _ _ H) as ([] & s' & E & Hs'). now exists s'.
Qed.

Lemma span_to_end (s : lineBuf) :
  inv s -> span s s.(cursor) s.(length) = skipn (Z.to_nat s.(cursor)) (content s).
Proof.
  intros (H0 & H1 & H2). unfold span. apply firstn_all2.
  rewrite length_skipn. pose proof (content_length s) as Hc.
  unfold Go.len in Hc. lia.
Qed.

(** C4.  [DeleteRange(begin, end)] on a buffer with
    [0 <= cursor <= length <= capacity]: when [begin > length] or [end < 0]
    it returns 0 and changes nothing; otherwise, with [begin] raised to 0
    and [end] lowered to [length], a non-empty range is removed from the
    text (the bytes after it move left), the removed bytes are appended to
    the register when [yanking] is set and replace it otherwise, the cursor
    is the clamped [begin] and the count removed is returned. *)
Theorem DeleteRange_contract (begin end_ : Z) (s : lineBuf) :
  inv s ->
  (begin > s.(length) \/ end_ < 0 -> DeleteRange begin end_ s = Ok 0 s) /\
  (begin <= s.(length) -> 0 <= end_ ->
   let lo := Z.max begin 0 in
   let hi := Z.min end_ s.(length) in
   lo < hi ->
   exists s', DeleteRange begin end_ s = Ok (hi - lo) s' /\
     content s' = firstn (Z.to_nat lo) (content s) ++ skipn (Z.to_nat hi) (content s) /\
     s'.(length) = s.(length) - (hi - lo) /\
     s'.(cursor) = lo /\
     s'.(yanked) = (if s.(yanking)
                    then (s.(yanked) ++ Go.string_of_bytes (span s lo hi))%string
                    else Go.string_of_bytes (span s lo hi)) /\
     s'.(yanking) = s.(yanking) /\
     s'.(history) = s.(history) /\
     s'.(historyIndex) = s.(historyIndex)).
Proof.
  intros Hs.
  destruct (wp_returns _ _ _ (DeleteRange_spec begin end_ s Hs)) as (n & s' & E & H).
  split.
  - intros Hout.
    replace ((begin >? length s) || (end_ <? 0)) with true in H.
    + destruct H as (-> & ->). exact E.
    + symmetry. apply orb_true_iff. rewrite Z.gtb_ltb, !Z.ltb_lt. lia.
  - intros Hb He lo hi Hlh.
    replace ((begin >? length s) || (end_ <? 0)) with false in H.
    + cbv zeta in H. fold lo hi in H. destruct H as (-> & H).
      apply Z.ltb_lt in Hlh. rewrite Hlh in H.
      destruct H as (Hl & Hc & Hy & Hk & Hh & Hi & _ & Hcont).
      exists s'. repeat split; assumption.
    + symmetry. apply orb_false_iff. rewrite Z.gtb_ltb, !Z.ltb_ge. lia.
Qed.

(** A buffer holding "ab cd" with the cursor after "ab", ready for a
    deletion that also clamps. *)
Lemma DeleteRange_contract_witness :
  let s := mkLineBuf 5 2 (Go.bytes_of_string "ab cd") "" false None (-1) in
  inv s /\
  exists s', DeleteRange (-3) 2 s = Ok 2 s' /\
             text s' = " cd"%string /\ s'.(cursor) = 0 /\ s'.(yanked) = "ab"%string.
Proof.
  intros s.
  assert (Hs : inv s) by (unfold inv, capacity, Go.len; cbn; lia).
  split; [exact Hs|].
  destruct (DeleteRange_contract (-3) 2 s Hs) as (_ & H).
  destruct H as (s' & E & Hcont & _ & Hc & Hy & _); try (cbn; lia).
  exists s'. split; [exact E|]. unfold text. rewrite Hcont, Hy.
  split; [reflexivity|]. split; [exact Hc|reflexivity].
Defined.

(** ** Kill and yank *)

(** Splits a conjunction into its parts, and nothing else. *)
Ltac conjuncts := repeat match goal with |- _ /\ _ => split end.

(** C3, as the code has it.  When the coalescing flag is clear or the yank
    register is empty, [KillToEnd()] followed at once by [Yank()] gives back
    the text ([String()]) and the length the buffer had before the kill. *)
Theorem kill_then_yank_restores (s : lineBuf) :
  inv s -> s.(yanking) = false \/ s.(yanked) = ""%string ->
  exists n1 s1 n2 s2 t,
    KillToEnd s = Ok n1 s1 /\ Yank s1 = Ok n2 s2 /\
    String_ s = Ok t s /\ String_ s2 = Ok t s2 /\
    s2.(length) = s.(length).
Proof.
  intros Hs Hreg. pose proof Hs as (H0 & H1 & H2).
  destruct (wp_returns _ _ _ (KillToEnd_spec s Hs)) as (n1 & s1 & E1 & _ & Hk).
  unfold killed_to_end in Hk.
  assert (Hs1 : inv s1) by (subst s1; unfold inv, capacity in *; fields; lia).
  destruct (wp_returns _ _ _ (Yank_spec s1 Hs1)) as (n2 & s2 & E2 & _ & Hins).
  assert (Hs2 : inv s2).
  { eapply inserted_bytes_inv; [|exact Hins]. exact Hs1. }
  assert (Hy : Go.bytes_of_string (yanked s1) = skipn (Z.to_nat (cursor s)) (content s)).
  { rewrite Hk; fields. rewrite span_to_end by exact Hs.
    destruct Hreg as [-> | Hy].
    - apply list_ascii_of_string_of_list_ascii.
    - rewrite Hy. destruct (yanking s); apply list_ascii_of_string_of_list_ascii. }
  destruct Hins as (Hl & _ & _ & _ & _ & _ & _ & _ & Hcont). fields.
  rewrite Hy in Hl, Hcont.
  assert (Hlen : length s2 = length s).
  { rewrite Hl, Hk; fields. unfold Go.len. rewrite length_skipn.
    pose proof (content_length s) as Hc. unfold Go.len in Hc. lia. }
  exists n1, s1, n2, s2, (text s). repeat split; try assumption.
  - apply String_spec; lia.
  - rewrite String_spec by (destruct Hs2; lia). f_equal.
    unfold text. f_equal. rewrite Hcont. subst s1. unfold content. fields.
    apply cut_and_join. clear - H0 H1. lia.
Qed.

(** The kill of "cd" out of "abcd" and its yank. *)
Lemma kill_then_yank_restores_witness :
  let s := mkLineBuf 4 2 (Go.bytes_of_string "abcd") "" false None (-1) in
  inv s /\ (s.(yanking) = false \/ s.(yanked) = ""%string) /\
  exists n1 s1 n2 s2 t,
    KillToEnd s = Ok n1 s1 /\ Yank s1 = Ok n2 s2 /\
    String_ s = Ok t s /\ String_ s2 = Ok t s2 /\ s2.(length) = s.(length).
Proof.
  intros s.
  assert (Hs : inv s) by (unfold inv, capacity, Go.len; cbn; lia).
  assert (Hf : s.(yanking) = false \/ s.(yanked) = ""%string) by (left; reflexivity).
  split; [exact Hs|]. split; [exact Hf|].
  exact (kill_then_yank_restores s Hs Hf).
Defined.

(** C3 as stated fails: type "ab", yank the empty register (the flag stays
    set), kill the word backwards (the register is now "ab", the flag still
    set); the buffer is empty, and a kill to the end followed by a yank
    leaves "ab" in it. *)
Lemma kill_then_yank_counterexample :
  let s := keys [OpInsertBytes (Go.bytes_of_string "ab"); OpYank; OpWordBackspace]
                (newLineBuf 1024) in
  inv s /\
  exists n1 s1 n2 s2,
    KillToEnd s = Ok n1 s1 /\ Yank s1 = Ok n2 s2 /\
    String_ s = Ok ""%string s /\ String_ s2 = Ok "ab"%string s2 /\
    s.(length) = 0 /\ s2.(length) = 2.
Proof.
  intros s. split.
  - unfold inv, capacity, Go.len. vm_compute. conjuncts; discriminate.
  - exists 0, (final (KillToEnd s)), 2, (final (Yank (final (KillToEnd s)))).
    conjuncts; vm_compute; reflexivity.
Qed.

(** C2, as the code has it.  [KillToEnd] stores its span under the
    coalescing rule (appended to the register when the flag was set,
    replacing it otherwise) and leaves the flag clear; so a second
    [KillToEnd] at once after it replaces the register by its own span, which
    is empty. *)
Theorem second_kill_replaces (s : lineBuf) :
  inv s ->
  exists n1 s1 n2 s2,
    KillToEnd s = Ok n1 s1 /\
    s1.(yanking) = false /\
    s1.(yanked) = (if s.(yanking)
                   then (s.(yanked) ++ Go.string_of_bytes (span s s.(cursor) s.(length)))%string
                   else Go.string_of_bytes (span s s.(cursor) s.(length))) /\
    KillToEnd s1 = Ok n2 s2 /\
    n2 = 0 /\ span s1 s1.(cursor) s1.(length) = [] /\
    s2.(yanked) = ""%string /\ s2.(yanking) = false.
Proof.
  intros Hs. pose proof Hs as (H0 & H1 & H2).
  destruct (wp_returns _ _ _ (KillToEnd_spec s Hs)) as (n1 & s1 & E1 & _ & Hk).
  unfold killed_to_end in Hk.
  assert (Hs1 : inv s1) by (subst s1; unfold inv, capacity in *; fields; lia).
  destruct (wp_returns _ _ _ (KillToEnd_spec s1 Hs1)) as (n2 & s2 & E2 & Hn2 & Hk2).
  unfold killed_to_end in Hk2.
  assert (Hspan : span s1 (cursor s1) (length s1) = []).
  { unfold span. subst s1; fields. now rewrite Z.sub_diag. }
  assert (Hflag : yanking s1 = false) by (subst s1; reflexivity).
  exists n1, s1, n2, s2.
  split; [exact E1|]. split; [exact Hflag|].
  split; [subst s1; reflexivity|]. split; [exact E2|].
  split; [subst s1 n2; fields; lia|]. split; [exact Hspan|].
  subst s2. fields. rewrite Hflag, Hspan. split; reflexivity.
Qed.

Lemma second_kill_replaces_witness :
  let s := mkLineBuf 2 0 (Go.bytes_of_string "ab") "" false None (-1) in
  inv s /\
  exists n1 s1 n2 s2,
    KillToEnd s = Ok n1 s1 /\ s1.(yanking) = false /\ s1.(yanked) = "ab"%string /\
    KillToEnd s1 = Ok n2 s2 /\ n2 = 0 /\ s2.(yanked) = ""%string.
Proof.
  intros s.
  assert (Hs : inv s) by (unfold inv, capacity, Go.len; cbn; lia).
  split; [exact Hs|].
  destruct (second_kill_replaces s Hs)
    as (n1 & s1 & n2 & s2 & E1 & Hk & Hy & E2 & Hn & _ & Hy2 & _).
  exists n1, s1, n2, s2. repeat split; assumption.
Defined.

(** C2 as stated fails: with "ab" after the cursor, the first [KillToEnd]
    kills "ab" and leaves the flag clear, the second kills nothing and
    leaves the register empty, not "ab". *)
Lemma coalescing_counterexample :
  let s := keys [OpInsertBytes (Go.bytes_of_string "ab"); OpBegin] (newLineBuf 1024) in
  exists s1 s2,
    KillToEnd s = Ok 2 s1 /\ s1.(yanked) = "ab"%string /\ s1.(yanking) <> true /\
    KillToEnd s1 = Ok 0 s2 /\ s2.(yanked) <> ("ab" ++ "")%string.
Proof.
  intros s. exists (final (KillToEnd s)), (final (KillToEnd (final (KillToEnd s)))).
  conjuncts; vm_compute; (reflexivity || discriminate).
Qed.

(** ** History *)

Lemma fresh_history (c : Z) :
  keys [OpAddToHistory "a"; OpAddToHistory "b"; OpAddToHistory "c"] (newLineBuf c)
  = mkLineBuf 0 0 (Go.make c) "" false (Some ["a"; "b"; "c"]%string) (-1).
Proof. reflexivity. Qed.

(** C6, as the code has it.  With "a", "b", "c" added in this order to a
    fresh buffer, three steps back show "c", "b", "a", a fourth leaves "a",
    three steps forward show "b", "c" and again "c"; after the last step the
    history index is still 2, the place of the newest entry. *)
Theorem history_walk (c : Z) :
  0 <= c ->
  exists s',
    browse (keys [OpAddToHistory "a"; OpAddToHistory "b"; OpAddToHistory "c"] (newLineBuf c))
    = Ok (["c"; "b"; "a"; "a"; "b"; "c"; "c"]%string, 2) s'.
Proof.
  intros Hc. rewrite fresh_history.
  set (h := ["a"; "b"; "c"]%string).
  set (s0 := mkLineBuf 0 0 (Go.make c) "" false (Some h) (-1)).
  enough (H : wp browse (fun r _ => r = (["c"; "b"; "a"; "a"; "b"; "c"; "c"]%string, 2)) never s0).
  { destruct (wp_returns _ _ _ H) as (r & s' & E & ->). now exists s'. }
  unfold browse.
  step1. eapply wp_mid; [apply PrevInHistory_lands with (h := h) (e := "c"%string) (i := 2); reflexivity|].
  intros ? s1 (T1 & Eh1 & I1 & V1). cbv beta. step1. apply wp_String; [exact V1|]. rewrite T1.
  step1. eapply wp_mid; [apply PrevInHistory_lands with (h := h) (e := "b"%string) (i := 1);
                         [exact Eh1|rewrite I1; reflexivity|reflexivity]|].
  intros ? s2 (T2 & Eh2 & I2 & V2). cbv beta. step1. apply wp_String; [exact V2|]. rewrite T2.
  step1. eapply wp_mid; [apply PrevInHistory_lands with (h := h) (e := "a"%string) (i := 0);
                         [exact Eh2|rewrite I2; reflexivity|reflexivity]|].
  intros ? s3 (T3 & Eh3 & I3 & V3). cbv beta. step1. apply wp_String; [exact V3|]. rewrite T3.
  step1. eapply wp_mid; [apply PrevInHistory_pins with (h := h); assumption|].
  intros ? s4 ->. cbv beta. step1. apply wp_String; [exact V3|]. rewrite T3.
  step1. eapply wp_mid; [apply NextInHistory_lands with (h := h) (e := "b"%string);
                         [exact Eh3|lia|rewrite I3; reflexivity]|].
  intros ? s5 (T5 & Eh5 & I5 & V5). cbv beta. step1. apply wp_String; [exact V5|]. rewrite T5.
  step1. eapply wp_mid; [apply NextInHistory_lands with (h := h) (e := "c"%string);
                         [exact Eh5|lia|rewrite I5, I3; reflexivity]|].
  intros ? s6 (T6 & Eh6 & I6 & V6). cbv beta. step1. apply wp_String; [exact V6|]. rewrite T6.
  step1. eapply wp_mid; [apply NextInHistory_stays with (h := h);
                         [exact Eh6|lia|rewrite I6, I5, I3; cbn; lia]|].
  intros ? s7 (_ & ->). cbv beta. step1. apply wp_String; [exact V6|]. rewrite T6.
  steps. rewrite I6, I5, I3. reflexivity.
Qed.

Lemma history_walk_witness :
  0 <= 1024 /\
  exists s',
    browse (keys [OpAddToHistory "a"; OpAddToHistory "b"; OpAddToHistory "c"] (newLineBuf 1024))
    = Ok (["c"; "b"; "a"; "a"; "b"; "c"; "c"]%string, 2) s'.
Proof.
  split; [lia|]. apply (history_walk 1024). lia.
Defined.

(** C6 as stated fails: after the third step forward the history index is
    not the value -1 that stands for "not browsing". *)
Lemma history_walk_counterexample :
  option_map snd
    (returned (browse (keys [OpAddToHistory "a"; OpAddToHistory "b"; OpAddToHistory "c"]
                            (newLineBuf 1024))))
  <> Some (-1).
Proof. vm_compute. discriminate. Qed.

(** ** Rendering and the bracket highlight *)

Section Terminal.
Context {H : Type}.

Lemma wp_on_buf {A : Type} (c : M lineBuf A) (Q : A -> world H -> Prop) R (w : world H) :
  wp c (fun a b => Q a (set_lb b w)) (fun b => R (set_lb b w)) w.(lb) ->
  wp (on_buf c) Q R w.
Proof. unfold wp, on_buf. now destruct (c (lb w)). Qed.

Lemma times_emit (n : nat) (e : event) (w : world H) :
  times n (emit e) w = Ok tt (mkWorld w.(lb) w.(hs) (w.(out) ++ repeat e n)).
Proof.
  revert w. induction n as [|n IH]; intros w; cbn [times repeat].
  - destruct w; cbn. now rewrite app_nil_r.
  - unfold bind. cbn [emit modify]. rewrite IH. cbn [lb hs out].
    now rewrite <- app_assoc.
Qed.

Lemma bind_ok {S A B : Type} (c : M S A) (k : A -> M S B) (s s' : S) (a : A) :
  c s = Ok a s' -> bind c k s = k a s'.
Proof. unfold bind. now intros ->. Qed.

Lemma drawline_spec (prompt : string) (extra : Z) (w : world H) :
  0 <= w.(lb).(length) -> w.(lb).(length) <= capacity w.(lb) ->
  drawline prompt extra w
  = Ok tt (mkWorld w.(lb) w.(hs) (w.(out) ++ rendered prompt extra w.(lb))).
Proof.
  intros H0 H1. destruct w as [b h o]. cbn [lb hs out] in *.
  unfold drawline.
  rewrite bind_ok with (a := tt) (s' := mkWorld b h (o ++ [Write (String RETURN "")]))
    by reflexivity.
  rewrite bind_ok with (a := tt)
    (s' := mkWorld b h ((o ++ [Write (String RETURN "")]) ++ [Write prompt]))
    by reflexivity.
  rewrite bind_ok with (a := text b)
    (s' := mkWorld b h ((o ++ [Write (String RETURN "")]) ++ [Write prompt]))
    by (unfold on_buf; cbn [lb]; now rewrite String_spec).
  rewrite bind_ok with (a := tt)
    (s' := mkWorld b h (((o ++ [Write (String RETURN "")]) ++ [Write prompt]) ++ [Write (text b)]))
    by reflexivity.
  erewrite bind_ok by apply times_emit. cbn [lb hs out].
  rewrite bind_ok with (a := b)
    (s' := mkWorld b h ((((o ++ [Write (String RETURN "")]) ++ [Write prompt])
                         ++ [Write (text b)]) ++ repeat (Write (String SPACE "")) (Z.to_nat extra)))
    by (destruct b; reflexivity).
  unfold cursorBackward. rewrite times_emit. cbn [lb hs out].
  unfold rendered. do 2 f_equal. rewrite <- !app_assoc. reflexivity.
Qed.

Lemma firstn_succ {A : Type} (l : list A) (k : nat) (x : A) :
  nth_error l k = Some x -> firstn (S k) l = firstn k l ++ [x].
Proof.
  revert l. induction k as [|k IH]; intros [|y l] Hx; try discriminate.
  - injection Hx as ->. reflexivity.
  - cbn [firstn app]. f_equal. now apply IH.
Qed.

(** The loop of [highlightMatch] finds what the search of the
    specification finds, and leaves the buffer as it was. *)
Lemma highlight_scan_spec (prompt : string) (chOpen chClose : byte) (k : nat) :
  forall (i count : Z) (w : world H),
    Z.of_nat k = i -> i <= capacity w.(lb) ->
    0 <= w.(lb).(length) -> w.(lb).(length) <= capacity w.(lb) ->
    highlight_scan prompt chOpen chClose k i count w
    = Ok tt (mkWorld w.(lb) w.(hs)
               (w.(out) ++
                match opener_before chOpen chClose (rev (firstn k w.(lb).(buf))) count with
                | None => [Write (String BEEP "")]
                | Some j => rendered prompt 0 (set_cursor j w.(lb))
                            ++ [Sleep 150] ++ rendered prompt 0 w.(lb)
                end)).
Proof.
  induction k as [|k IH]; intros i count w Hk Hi H0 H1.
  - destruct w; reflexivity.
  - cbn [highlight_scan]. unfold bind at 1.
    assert (Hin : 0 <= i - 1 < capacity (lb w)) by lia.
    destruct (load_in_range (i - 1) (lb w) Hin) as (x & Hload & Hx).
    unfold on_buf at 1. rewrite Hload.
    assert (Hnth : nth_error (buf (lb w)) k = Some x).
    { unfold Go.index in Hx. replace (Z.to_nat (i - 1)) with k in Hx by lia.
      destruct ((0 <=? i - 1) && (i - 1 <? Go.len (buf (lb w)))); [assumption|discriminate]. }
    rewrite (firstn_succ _ _ _ Hnth), rev_app_distr. cbn [rev app opener_before].
    replace (Go.len (rev (firstn k (buf (lb w))))) with (i - 1).
    2:{ unfold Go.len, capacity, Go.len in *. rewrite length_rev, length_firstn. lia. }
    replace (set_lb (lb w) w) with w by (destruct w; reflexivity).
    destruct (Ascii.eqb x chOpen).
    + destruct (count - 1 =? 0).
      * destruct w as [b h o]. cbn [lb hs out] in *.
        rewrite bind_ok with (a := b) (s' := mkWorld b h o) by reflexivity.
        rewrite bind_ok with (a := tt) (s' := mkWorld (set_cursor (i - 1) b) h o)
          by reflexivity.
        erewrite bind_ok by (apply drawline_spec; assumption). cbn [lb hs out].
        set (o1 := o ++ rendered prompt 0 (set_cursor (i - 1) b)).
        rewrite bind_ok with (a := tt) (s' := mkWorld (set_cursor (i - 1) b) h (o1 ++ [Sleep 150]))
          by reflexivity.
        rewrite bind_ok with (a := tt) (s' := mkWorld b h (o1 ++ [Sleep 150]))
          by (destruct b; reflexivity).
        rewrite drawline_spec by assumption. cbn [lb hs out]. subst o1.
        do 2 f_equal. rewrite <- !app_assoc. reflexivity.
      * apply IH; lia.
    + destruct (Ascii.eqb x chClose); apply IH; lia.
Qed.

End Terminal.

(** C8.  On a buffer with [0 <= cursor <= length <= capacity],
    [highlightMatch] returns and leaves the buffer exactly as it was
    (cursor, length and text included); all it does is write: when the
    search of the specification finds no opener it writes the one BEEP byte,
    and when it finds one at [j] it draws the line with the cursor at [j],
    sleeps, and draws the line as it is. *)
Theorem highlightMatch_restores {H : Type} (prompt : string) (chOpen chClose : byte)
    (w : world H) :
  inv w.(lb) ->
  exists evs,
    highlightMatch prompt chOpen chClose w = Ok tt (mkWorld w.(lb) w.(hs) (w.(out) ++ evs)) /\
    match opener_before chOpen chClose
            (rev (firstn (Z.to_nat (w.(lb).(cursor) - 1)) w.(lb).(buf))) 1 with
    | None => evs = [Write (String BEEP "")]
    | Some j => evs = rendered prompt 0 (set_cursor j w.(lb))
                      ++ [Sleep 150] ++ rendered prompt 0 w.(lb)
    end.
Proof.
  intros (H0 & H1 & H2).
  exists (match opener_before chOpen chClose
                  (rev (firstn (Z.to_nat (w.(lb).(cursor) - 1)) w.(lb).(buf))) 1 with
          | None => [Write (String BEEP "")]
          | Some j => rendered prompt 0 (set_cursor j w.(lb))
                      ++ [Sleep 150] ++ rendered prompt 0 w.(lb)
          end).
  split.
  - unfold highlightMatch.
    rewrite bind_ok with (a := lb w) (s' := w) by (destruct w; reflexivity).
    destruct (Z.eq_dec (cursor (lb w)) 0) as [E|E].
    + rewrite E. cbn [Z.sub Z.opp Z.add Z.to_nat highlight_scan firstn rev opener_before].
      destruct w; reflexivity.
    + apply highlight_scan_spec; lia.
  - destruct (opener_before _ _ _ _); reflexivity.
Qed.

(** The buffer after "(a)" has been typed. *)
Lemma highlightMatch_restores_witness :
  let w := mkWorld (mkLineBuf 3 3 (Go.bytes_of_string "(a)") "" false None (-1)) tt [] in
  inv w.(lb) /\
  exists evs,
    highlightMatch "> " OPEN_PAREN CLOSE_PAREN w = Ok tt (mkWorld w.(lb) w.(hs) (w.(out) ++ evs)).
Proof.
  intros w.
  assert (Hw : inv w.(lb)) by (unfold inv, capacity, Go.len; cbn; lia).
  split; [exact Hw|].
  destruct (highlightMatch_restores "> " OPEN_PAREN CLOSE_PAREN w Hw) as (evs & E & _).
  exists evs. exact E.
Defined.

(** ** The loop *)

Section Session.
Context {H value error : Type}.
Variable show_value : value -> string.
Variable show_error : error -> string.
Variable handler : ReplHandler H value error.

Local Abbreviation iteration_ := (iteration show_value show_error handler).
Local Abbreviation loop_ := (loop show_value show_error handler).
Local Abbreviation repl_ := (repl show_value show_error handler).
Local Abbreviation REPL_ := (REPL show_value show_error handler).
Local Abbreviation key_RETURN_ := (key_RETURN show_value show_error handler).

Local Abbreviation stopped_ := (stopped handler).

Lemma iteration_read_error (e : error) (l : locals) (w : world H) :
  iteration_ (getChar (ReadErr e)) l w = Ok (Return (Some e)) (stopped_ w).
Proof. destruct w as [b h o]. reflexivity. Qed.

Lemma loop_read_error (e : error) (input : list (read error)) :
  forall (l l' : locals) (w w' : world H),
    loop_ input l w = Ok (Waiting l') w' ->
    loop_ (input ++ [ReadErr e]) l w = Ok (Returned (Some e)) (stopped_ w').
Proof.
  induction input as [|r rest IH]; intros l l' w w' Hrun.
  - injection Hrun as <- <-. cbn [app loop].
    rewrite bind_ok with (1 := iteration_read_error e l w). reflexivity.
  - cbn [app loop] in *. unfold bind in *.
    destruct (iteration_ (getChar r) l w) as [[l1|err] w1|f w1]; try discriminate.
    now apply IH with (l' := l').
Qed.

Lemma bind_inv {S A B : Type} (c : M S A) (k : A -> M S B) (s s' : S) (b : B) :
  bind c k s = Ok b s' -> exists a s1, c s = Ok a s1 /\ k a s1 = Ok b s'.
Proof.
  unfold bind. destruct (c s) as [a s1|f s1]; [|discriminate]. eauto.
Qed.

Lemma repl_read_error (e : error) (input : list (read error)) (l' : locals) (w w' : world H) :
  repl_ input w = Ok (Waiting l') w' ->
  repl_ (input ++ [ReadErr e]) w = Ok (Returned (Some e)) (stopped_ w').
Proof.
  unfold repl. intros Hrun.
  do 5 (apply bind_inv in Hrun as (? & ? & E & Hrun); rewrite bind_ok with (1 := E); clear E).
  now apply loop_read_error with (l' := l').
Qed.

(** C7, on the code.  Whenever a read fails while the loop_ is waiting for a
    byte, [repl] calls [Stop] with the history accumulated so far and returns
    the read error; [REPL] runs the deferred restore and returns nil: the
    error does not reach its caller. *)
Theorem read_error_is_dropped (e : error) (input : list (read error)) (l' : locals)
    (w w' : world H) :
  repl_ input w = Ok (Waiting l') w' ->
  repl_ (input ++ [ReadErr e]) w = Ok (Returned (Some e)) (stopped_ w') /\
  REPL_ None (input ++ [ReadErr e]) w
  = Ok (Returned None)
       (mkWorld (stopped_ w').(lb) (stopped_ w').(hs) ((stopped_ w').(out) ++ [Restore])).
Proof.
  intros Hrun. pose proof (repl_read_error e input l' w w' Hrun) as Hrepl.
  split; [exact Hrepl|]. cbn [REPL]. now rewrite Hrepl.
Qed.

Lemma plain_key_RETURN (l : locals) :
  plain_key show_value show_error handler RETURN l = key_RETURN_ l.
Proof. reflexivity. Qed.

Lemma call_Eval_eq (s : string) (w : world H) :
  call_Eval handler s w
  = let (r, h) := handler.(Eval) s w.(hs) in
    Ok r (mkWorld w.(lb) h (w.(out) ++ [CallEval s])).
Proof.
  destruct w as [b h o]. unfold call_Eval, bind, emit, modify. cbn [lb hs out set_hs].
  now destruct (Eval handler s h).
Qed.

(** What the Return key does, whatever the buffer holds. *)
Lemma key_RETURN_trace (l : locals) (w : world H) :
  0 <= w.(lb).(length) -> w.(lb).(length) <= capacity w.(lb) ->
  exists f w' rest,
    key_RETURN_ l w = Ok (Next f) w' /\
    w'.(lb).(history) = append_history w.(lb).(history) (text w.(lb)) /\
    w'.(lb).(historyIndex) = -1 /\
    w'.(lb).(length) = 0 /\
    w'.(out) = w.(out)
               ++ (if w.(lb).(length) =? 0 then [] else [Write (String NEWLINE "")])
               ++ CallEval (text w.(lb)) :: rest.
Proof.
  intros H0 H1. destruct w as [b h o]. cbn [lb hs out] in *.
  unfold key_RETURN.
  rewrite bind_ok with (a := length b =? 0) (s' := mkWorld b h o)
    by (destruct b; reflexivity).
  set (o1 := o ++ (if length b =? 0 then [] else [Write (String NEWLINE "")])).
  rewrite bind_ok with (a := tt) (s' := mkWorld b h o1).
  2:{ subst o1. destruct (length b =? 0); cbn [negb]; [|reflexivity].
      unfold ret. now rewrite app_nil_r. }
  rewrite bind_ok with (a := text b) (s' := mkWorld b h o1)
    by (unfold on_buf; cbn [lb]; now rewrite String_spec).
  set (b2 := mkLineBuf 0 0 (buf b) (yanked b) false
               (append_history (history b) (text b)) (-1)).
  rewrite bind_ok with (a := tt)
    (s' := mkWorld (set_historyIndex (-1) (set_history (append_history (history b) (text b)) b)) h o1)
    by reflexivity.
  rewrite bind_ok with (a := tt) (s' := mkWorld b2 h o1) by reflexivity.
  unfold bind at 1. rewrite call_Eval_eq. cbn [lb hs out].
  destruct (Eval handler (text b) h) as [[[val more] err] h1].
  destruct err as [err|]; [|destruct more].
  - unfold call_Prompt, println, putString, bind, emit, modify, ret, on_buf.
    cbn [lb hs out set_hs set_lb].
    change (Clear b2) with (Ok tt b2 : result lineBuf unit). cbn [lb hs out set_hs set_lb].
    destruct (Prompt handler h1) as [p h2]. cbn [lb hs out set_hs set_lb].
    eexists _, _, _. split; [reflexivity|]. cbn [lb hs out]. subst o1.
    repeat (split; [reflexivity|]). rewrite <- !app_assoc. reflexivity.
  - eexists _, _, []. split; [reflexivity|]. cbn [lb hs out]. subst o1.
    repeat (split; [reflexivity|]). rewrite <- !app_assoc. reflexivity.
  - unfold call_Prompt, println, putString, bind, emit, modify, ret, on_buf.
    cbn [lb hs out set_hs set_lb].
    destruct (Prompt handler h1) as [p h2]. cbn [lb hs out set_hs set_lb].
    eexists _, _, _. split; [reflexivity|]. cbn [lb hs out]. subst o1.
    repeat (split; [reflexivity|]). rewrite <- !app_assoc. reflexivity.
Qed.

(** C10.  Return on an empty buffer (outside a meta sequence): the history
    becomes the old entries followed by the empty string (a one-entry
    history when it was nil), the history index is set to -1, and [Eval] is
    called with the empty string, with nothing written before the call; on
    a buffer with text the same happens for the text, after a newline is
    written. *)
Theorem Return_on_empty_buffer (l : locals) (w : world H) :
  l.(meta) = false ->
  (w.(lb).(length) = 0 ->
   exists f w' rest,
     iteration_ (getChar (ReadByte RETURN)) l w = Ok (Next f) w' /\
     w'.(lb).(history) = Some (entries w.(lb).(history) ++ [""%string]) /\
     w'.(lb).(historyIndex) = -1 /\
     w'.(out) = w.(out) ++ CallEval ""%string :: rest) /\
  (0 < w.(lb).(length) -> w.(lb).(length) <= capacity w.(lb) ->
   exists f w' rest,
     iteration_ (getChar (ReadByte RETURN)) l w = Ok (Next f) w' /\
     w'.(lb).(history) = Some (entries w.(lb).(history) ++ [text w.(lb)]) /\
     w'.(lb).(historyIndex) = -1 /\
     w'.(out) = w.(out) ++ Write (String NEWLINE "") :: CallEval (text w.(lb)) :: rest).
Proof.
  intros Hmeta.
  assert (Hit : forall f w', key_RETURN_ l w = Ok (Next f) w' ->
            iteration_ (getChar (ReadByte RETURN)) l w = Ok (Next (set_lastChar RETURN f)) w').
  { intros f w' Hk. unfold iteration. cbn [getChar]. rewrite Hmeta.
    rewrite plain_key_RETURN. now rewrite bind_ok with (1 := Hk). }
  assert (Happ : forall line,
            append_history (history (lb w)) line = Some (entries (history (lb w)) ++ [line]))
    by (intros line; destruct (history (lb w)); reflexivity).
  split.
  - intros Hlen.
    destruct (key_RETURN_trace l w) as (f & w' & rest & Hk & Hh & Hi & _ & Ho).
    { lia. } { rewrite Hlen. apply len_nonneg. }
    assert (Ht : text (lb w) = ""%string) by (unfold text, content; now rewrite Hlen).
    rewrite Happ in Hh. rewrite Hlen, Ht in *. cbn [Z.eqb app] in Ho.
    exists (set_lastChar RETURN f), w', rest. auto.
  - intros Hpos Hcap.
    destruct (key_RETURN_trace l w) as (f & w' & rest & Hk & Hh & Hi & _ & Ho); try lia.
    rewrite Happ in Hh.
    replace (length (lb w) =? 0) with false in Ho by (symmetry; apply Z.eqb_neq; lia).
    exists (set_lastChar RETURN f), w', rest. auto.
Qed.

End Session.

(** A session with the echo handler: Return on the fresh, empty buffer. *)
Lemma Return_on_empty_buffer_witness :
  let l := mkLocals "> " false zero None in
  let w := mkWorld (newLineBuf 1024) tt [] in
  l.(meta) = false /\ w.(lb).(length) = 0 /\
  exists f w' rest,
    iteration (fun s => s) (fun e => e) echo (getChar (ReadByte RETURN)) l w = Ok (Next f) w' /\
    w'.(lb).(history) = Some [""%string] /\
    w'.(lb).(historyIndex) = -1 /\
    w'.(out) = CallEval ""%string :: rest.
Proof.
  intros l w.
  assert (Hm : l.(meta) = false) by reflexivity.
  assert (Hl : w.(lb).(length) = 0) by reflexivity.
  split; [exact Hm|]. split; [exact Hl|].
  destruct (Return_on_empty_buffer (fun s => s) (fun e => e) echo l w Hm) as (Hempty & _).
  exact (Hempty Hl).
Defined.

(** A read that fails at the first byte of an echo session. *)
Lemma read_error_is_dropped_witness :
  exists l' w',
    repl (fun s => s) (fun e => e) echo [] boot = Ok (Waiting l') w' /\
    repl (fun s => s) (fun e => e) echo ([] ++ [ReadErr "EIO"%string]) boot
    = Ok (Returned (Some "EIO"%string)) (stopped echo w') /\
    REPL (fun s => s) (fun e => e) echo None ([] ++ [ReadErr "EIO"%string]) boot
    = Ok (Returned None)
         (mkWorld (stopped echo w').(lb) (stopped echo w').(hs)
                  ((stopped echo w').(out) ++ [Restore])).
Proof.
  eexists _, _.
  assert (Hrun : repl (fun s => s) (fun e => e) echo [] boot
                 = Ok (Waiting (mkLocals "> " false zero None))
                      (mkWorld (newLineBuf 1024) tt [CallStart; CallPrompt; Write "> "]))
    by reflexivity.
  split; [exact Hrun|].
  exact (read_error_is_dropped (fun s => s) (fun e => e) echo "EIO"%string [] _ boot _ Hrun).
Defined.

(** ** The word operations *)

Lemma wp_load_in_range (i : Z) (Q : byte -> lineBuf -> Prop) R (s : lineBuf) :
  0 <= i < capacity s -> (forall x, Q x s) -> wp (load i) Q R s.
Proof.
  intros Hi HQ. destruct (load_in_range i s Hi) as (x & E & _).
  now apply wp_of_eq with (a := x) (s' := s).
Qed.

Lemma forward_over_spaces_returns (k : nat) (i : Z) (s : lineBuf) :
  0 <= i -> i + Z.of_nat k <= capacity s ->
  wp (forward_over_spaces k i)
     (fun j s' => s' = s /\ i <= j <= i + Z.of_nat k) never s.
Proof.
  revert i. induction k as [|k IH]; intros i H0 H1; cbn [forward_over_spaces].
  - step1. split; [reflexivity|lia].
  - step1. apply wp_load_in_range; [lia|]. intros x.
    destruct (negb (is_space x)).
    + step1. split; [reflexivity|lia].
    + eapply wp_mid; [apply IH; lia|]. cbv beta. intros j s' (-> & Hj).
      split; [reflexivity|lia].
Qed.

Lemma forward_to_space_returns (k : nat) (i : Z) (s : lineBuf) :
  0 <= i -> i + Z.of_nat k <= capacity s ->
  wp (forward_to_space k i)
     (fun r s' => s' = s /\
        match r with Some j => i <= j < i + Z.of_nat k | None => True end)
     never s.
Proof.
  revert i. induction k as [|k IH]; intros i H0 H1; cbn [forward_to_space].
  - step1. split; [reflexivity|exact I].
  - step1. apply wp_load_in_range; [lia|]. intros x.
    destruct (is_space x).
    + step1. split; [reflexivity|lia].
    + eapply wp_mid; [apply IH; lia|]. cbv beta. intros [j|] s' (-> & Hj);
        (split; [reflexivity|]); [lia|exact I].
Qed.

(** With the cursor after the first byte, every read of [WordDelete] is in
    range and it returns. *)
Lemma WordDelete_returns (s : lineBuf) :
  inv s -> 0 < s.(cursor) -> wp WordDelete (fun _ s' => inv s') never s.
Proof.
  intros Hs Hc. pose proof Hs as (H0 & H1 & H2). unfold WordDelete. steps.
  eapply wp_mid; [apply forward_over_spaces_returns; lia|].
  cbv beta. intros i s' (-> & Hi). step1.
  eapply wp_mid; [apply forward_to_space_returns; lia|].
  cbv beta. intros [j|] s' (-> & Hj).
  - apply DeleteRange_inv, Hs.
  - now step1.
Qed.

(** With the cursor at the start of the line, the first read of
    [WordDelete] is [lb.buf[-1]]. *)
Lemma WordDelete_panics_at_start (s : lineBuf) :
  s.(cursor) = 0 -> 0 <= s.(length) ->
  WordDelete s = Panic (IndexOutOfRange (-1) (capacity s)) s.
Proof.
  intros Hc Hl. unfold WordDelete, bind, get. rewrite Hc.
  replace (Z.to_nat (length s - (0 - 1))) with (S (Z.to_nat (length s))) by lia.
  cbn [forward_over_spaces]. unfold bind, load.
  now rewrite index_out_of_range by lia.
Qed.

(** [WordForward] returns on every buffer that satisfies the invariant. *)
Lemma WordForward_returns (s : lineBuf) :
  inv s -> wp WordForward (fun _ s' => inv s') never s.
Proof.
  intros Hs. pose proof Hs as (H0 & H1 & H2). unfold WordForward. steps.
  eapply wp_mid; [apply forward_over_spaces_returns; lia|].
  cbv beta. intros i s' (-> & Hi). step1.
  eapply wp_mid; [apply forward_to_space_returns; lia|].
  cbv beta. intros [j|] s' (-> & Hj); steps; unfold inv, capacity in *; fields; lia.
Qed.

(** [WordBackspace] scans as [WordBackward] does and deletes from where
    [WordBackward] would put the cursor up to the cursor. *)
Lemma WordBackspace_scan (s : lineBuf) :
  match WordBackward s with
  | Ok _ s' => WordBackspace s = DeleteRange s'.(cursor) s.(cursor) s
  | Panic f s' => WordBackspace s = Panic f s'
  end.
Proof.
  unfold WordBackward, WordBackspace, bind, get.
  set (i0 := if cursor s >? 0 then cursor s - 1 else cursor s).
  pose proof (back_over_spaces_spec (Z.to_nat i0) i0 s) as H1. unfold wp in H1.
  destruct (back_over_spaces (Z.to_nat i0) i0 s) as [i s1|f s1]; [|reflexivity].
  destruct H1 as (-> & _).
  unfold load. destruct (Go.index (buf s) i) as [x|]; [|reflexivity].
  destruct (negb (is_space x)).
  - pose proof (back_to_space_spec (Z.to_nat i) i s) as H2. unfold wp in H2.
    destruct (back_to_space (Z.to_nat i) i s) as [[j|] s2|f s2]; try reflexivity.
    + destruct H2 as (-> & _). reflexivity.
    + destruct H2 as (-> & _). reflexivity.
  - reflexivity.
Qed.

(** C5, on the code.  With "ab" in the buffer and the cursor between the
    two bytes, the scan of [WordForward] runs over "b" to the end of the
    line and deleting that span would remove one byte; [WordDelete] returns
    0 and removes nothing. *)
Theorem WordDelete_misses_the_word :
  let s := keys [OpInsertBytes (Go.bytes_of_string "ab"); OpBackward] (newLineBuf 1024) in
  text s = "ab"%string /\ s.(cursor) = 1 /\
  WordForward s = Ok tt (set_cursor 2 s) /\
  WordDelete s = Ok 0 s /\
  exists s', DeleteRange 1 2 s = Ok 1 s' /\ text s' = "a"%string.
Proof.
  intros s. conjuncts; try (vm_compute; reflexivity).
  exists (final (DeleteRange 1 2 s)). conjuncts; vm_compute; reflexivity.
Qed.

(** C9, on the code.  With "ab" in the buffer and the cursor at the start
    of the line (a state satisfying the invariant), [WordDelete] reads
    [lb.buf[-1]] and panics; the session in which "ab", Ctrl-A, ESC, d are
    typed ends in that panic. *)
Theorem WordDelete_at_line_start :
  let s := keys [OpInsertBytes (Go.bytes_of_string "ab"); OpBegin] (newLineBuf 1024) in
  inv s /\ text s = "ab"%string /\ s.(cursor) = 0 /\
  WordDelete s = Panic (IndexOutOfRange (-1) 1024) s /\
  exists w,
    REPL (fun v => v) (fun e => e) echo None
         (map ReadByte [ "a"; "b"; CTRL_A; ESCAPE; "d" ]%char) boot
    = Panic (IndexOutOfRange (-1) 1024) w.
Proof.
  intros s. conjuncts; try (vm_compute; reflexivity).
  - unfold inv, capacity, Go.len. vm_compute. conjuncts; discriminate.
  - eexists. vm_compute. reflexivity.
Qed.

(** * More of the code *)

(** ** Insert, Delete and the DELETE key *)

(** X1.  [Insert] on a buffer with [0 <= cursor <= length <= capacity]
    returns; the byte is at the old cursor position, the bytes after it one
    place to the right, cursor and length grow by one, the coalescing flag
    is clear and register and history are as before. *)
Theorem Insert_contract (ch : byte) (s : lineBuf) :
  inv s ->
  exists s',
    Insert ch s = Ok tt s' /\
    content s' = firstn (Z.to_nat s.(cursor)) (content s)
                 ++ ch :: skipn (Z.to_nat s.(cursor)) (content s) /\
    s'.(cursor) = s.(cursor) + 1 /\
    s'.(length) = s.(length) + 1 /\
    s'.(yanking) = false /\
    s'.(yanked) = s.(yanked) /\
    s'.(history) = s.(history) /\
    s'.(historyIndex) = s.(historyIndex).
Proof.
  intros Hs.
  destruct (wp_returns _ _ _ (Insert_spec ch s Hs)) as ([] & s' & E & Hins).
  destruct Hins as (Hl & Hc & Hy & Hk & Hh & Hi & _ & _ & Hcont).
  exists s'. repeat split; assumption.
Qed.

Lemma Insert_contract_witness :
  let s := mkLineBuf 2 1 (Go.bytes_of_string "ab") "" false None (-1) in
  inv s /\
  exists s', Insert "x"%char s = Ok tt s' /\ text s' = "axb"%string /\ s'.(cursor) = 2.
Proof.
  intros s.
  assert (Hs : inv s) by (unfold inv, capacity, Go.len; cbn; lia).
  split; [exact Hs|].
  destruct (Insert_contract "x"%char s Hs) as (s' & E & Hcont & Hc & _).
  exists s'. split; [exact E|]. unfold text. rewrite Hcont. split; [reflexivity|exact Hc].
Defined.

Lemma Insert_capacity_wp (ch : byte) (s : lineBuf) :
  inv s ->
  wp (Insert ch)
     (fun _ s' => capacity s' = if s.(length) =? capacity s then capacity s + 10 else capacity s)
     never s.
Proof.
  intros (Hc0 & Hcl & Hlc).
  destruct s as [n c b y yk h hi]; unfold capacity in *; fields.
  unfold Insert. steps.
  apply wp_mid with (I := fun _ s1 =>
    exists b1, s1 = mkLineBuf n c b1 y false h hi /\ n < Go.len b1 /\
               Go.len b1 = if n =? Go.len b then Go.len b + 10 else Go.len b).
  { destruct (Z.eqb_spec n (Go.len b)) as [E|E]; steps.
    - exists (b ++ repeat zero 10). rewrite grow_copy. split; [reflexivity|].
      unfold Go.len in *. rewrite length_app, repeat_length. lia.
    - exists b. repeat split; lia. }
  intros ? s1 (b1 & -> & Hn1 & Hlen1). steps.
  apply wp_mid with (I := fun _ s2 =>
    exists b2, s2 = mkLineBuf n c b2 y false h hi /\ Go.len b2 = Go.len b1).
  { destruct (Z.eqb_spec c n) as [E|E].
    - apply wp_store; [unfold capacity; fields; lia|]. fields.
      eexists; split; [reflexivity|].
      unfold Go.len in *. rewrite length_updated; lia.
    - step1. apply wp_copy_within; unfold capacity; fields; try lia.
      apply wp_store.
      { unfold capacity; fields. unfold Go.len in *.
        rewrite length_app, length_copy, length_firstn, length_skipn. lia. }
      fields. eexists; split; [reflexivity|].
      unfold Go.len in *. rewrite length_updated.
      + rewrite length_app, length_copy, length_firstn, length_skipn. lia.
      + rewrite length_app, length_copy, length_firstn, length_skipn. lia. }
  intros ? s2 (b2 & -> & Hlen2). steps. unfold capacity; fields. congruence.
Qed.

(** X2.  [Insert] grows the array by exactly ten bytes when the buffer is
    full ([length = capacity]) and leaves its size alone otherwise. *)
Theorem Insert_grows_by_ten (ch : byte) (s : lineBuf) :
  inv s ->
  capacity (final (Insert ch s))
  = if s.(length) =? capacity s then capacity s + 10 else capacity s.
Proof.
  intros Hs. pose proof (Insert_capacity_wp ch s Hs) as H. unfold wp in H.
  destruct (Insert ch s); [exact H|destruct H].
Qed.

Lemma Insert_grows_by_ten_witness :
  let s := mkLineBuf 2 1 (Go.bytes_of_string "ab") "" false None (-1) in
  inv s /\ capacity (final (Insert "x"%char s)) = 12.
Proof.
  intros s.
  assert (Hs : inv s) by (unfold inv, capacity, Go.len; cbn; lia).
  split; [exact Hs|]. exact (Insert_grows_by_ten "x"%char s Hs).
Defined.

(** X3.  [InsertBytes] returns and puts the bytes at the cursor in their
    order: the text is the old text before the cursor, the bytes, the old
    text after the cursor; cursor and length grow by the number of bytes. *)
Theorem InsertBytes_contract (chs : list byte) (s : lineBuf) :
  inv s ->
  exists s',
    InsertBytes chs s = Ok tt s' /\
    content s' = firstn (Z.to_nat s.(cursor)) (content s)
                 ++ chs ++ skipn (Z.to_nat s.(cursor)) (content s) /\
    s'.(cursor) = s.(cursor) + Go.len chs /\
    s'.(length) = s.(length) + Go.len chs /\
    s'.(yanked) = s.(yanked) /\
    s'.(history) = s.(history) /\
    s'.(historyIndex) = s.(historyIndex).
Proof.
  intros Hs.
  destruct (wp_returns _ _ _ (InsertBytes_spec chs s Hs)) as ([] & s' & E & Hins).
  destruct Hins as (Hl & Hc & Hy & Hk & Hh & Hi & _ & _ & Hcont).
  exists s'. repeat split; assumption.
Qed.

Lemma InsertBytes_contract_witness :
  let s := mkLineBuf 2 1 (Go.bytes_of_string "ab") "" false None (-1) in
  inv s /\
  exists s', InsertBytes (Go.bytes_of_string "xyz") s = Ok tt s' /\
             text s' = "axyzb"%string /\ s'.(cursor) = 4.
Proof.
  intros s.
  assert (Hs : inv s) by (unfold inv, capacity, Go.len; cbn; lia).
  split; [exact Hs|].
  destruct (InsertBytes_contract (Go.bytes_of_string "xyz") s Hs) as (s' & E & Hcont & Hc & _).
  exists s'. split; [exact E|]. unfold text. rewrite Hcont. split; [reflexivity|exact Hc].
Defined.

(** The text after [copy(b[lo:], b[hi:])] and a length shorter by
    [hi - lo]. *)
Lemma text_after_shift_left (b : list byte) (lo hi n : nat) :
  (lo <= hi)%nat -> (hi <= n)%nat -> (n <= List.length b)%nat ->
  firstn (n - (hi - lo)) (firstn lo b ++ Go.copy (skipn lo b) (skipn hi b))
  = firstn lo (firstn n b) ++ skipn hi (firstn n b).
Proof.
  intros H1 H2 H3. rewrite shift_left by lia.
  assert (Hp : List.length (firstn lo b) = lo) by (rewrite length_firstn; lia).
  rewrite firstn_app, Hp, firstn_firstn, firstn_app, length_skipn.
  rewrite firstn_firstn, skipn_firstn_comm.
  replace (Nat.min (n - (hi - lo)) lo) with lo by lia.
  replace (Nat.min lo n) with lo by lia.
  f_equal.
  replace (n - (hi - lo) - lo - (List.length b - hi))%nat with O by lia.
  rewrite firstn_0, app_nil_r. f_equal. lia.
Qed.

Lemma Delete_spec (s : lineBuf) :
  inv s -> s.(cursor) < s.(length) ->
  wp Delete
     (fun r s' =>
        r = true /\
        content s' = firstn (Z.to_nat s.(cursor)) (content s)
                     ++ skipn (S (Z.to_nat s.(cursor))) (content s) /\
        s'.(length) = s.(length) - 1 /\ s'.(cursor) = s.(cursor) /\
        s'.(yanking) = false /\ s'.(yanked) = s.(yanked) /\
        s'.(history) = s.(history) /\ s'.(historyIndex) = s.(historyIndex) /\
        capacity s' = capacity s)
     never s.
Proof.
  intros (H0 & H1 & H2) Hlt. unfold Delete. steps.
  replace (cursor s <? length s) with true by (symmetry; apply Z.ltb_lt; lia).
  steps. apply wp_copy_within; unfold capacity in *; fields; try lia.
  steps. unfold capacity, content; fields.
  split; [reflexivity|]. split.
  - replace (Z.to_nat (length s - 1))
      with (Z.to_nat (length s) - (Z.to_nat (cursor s + 1) - Z.to_nat (cursor s)))%nat by lia.
    rewrite text_after_shift_left by (unfold Go.len in *; lia).
    do 2 f_equal. lia.
  - repeat split. unfold Go.len. f_equal.
    rewrite length_app, length_copy, length_firstn, length_skipn.
    unfold Go.len in *. lia.
Qed.

(** X4.  [Delete] on a buffer with [0 <= cursor <= length <= capacity]:
    with a byte under the cursor it removes that byte (the bytes after it
    move left), returns true and leaves cursor, register and history alone;
    with the cursor at the end it returns false and changes nothing but
    the coalescing flag, which it clears in both cases. *)
Theorem Delete_contract (s : lineBuf) :
  inv s ->
  (s.(cursor) < s.(length) ->
   exists s',
     Delete s = Ok true s' /\
     content s' = firstn (Z.to_nat s.(cursor)) (content s)
                  ++ skipn (S (Z.to_nat s.(cursor))) (content s) /\
     s'.(length) = s.(length) - 1 /\ s'.(cursor) = s.(cursor) /\
     s'.(yanking) = false /\ s'.(yanked) = s.(yanked) /\
     s'.(history) = s.(history) /\ s'.(historyIndex) = s.(historyIndex)) /\
  (s.(cursor) = s.(length) -> Delete s = Ok false (set_yanking false s)).
Proof.
  intros Hs. split.
  - intros Hlt.
    destruct (wp_returns _ _ _ (Delete_spec s Hs Hlt))
      as (r & s' & E & -> & Hc & Hl & Hcu & Hk & Hy & Hh & Hi & _).
    exists s'. repeat split; assumption.
  - intros Heq. unfold Delete, bind, modify, get, ret. fields.
    now replace (cursor s <? length s) with false by (symmetry; apply Z.ltb_ge; lia).
Qed.

Lemma Delete_contract_witness :
  let s := mkLineBuf 3 1 (Go.bytes_of_string "abc") "" false None (-1) in
  inv s /\ exists s', Delete s = Ok true s' /\ text s' = "ac"%string /\ s'.(cursor) = 1.
Proof.
  intros s.
  assert (Hs : inv s) by (unfold inv, capacity, Go.len; cbn; lia).
  split; [exact Hs|].
  destruct (Delete_contract s Hs) as (H & _).
  destruct H as (s' & E & Hcont & _ & Hc & _); [cbn; lia|].
  exists s'. split; [exact E|]. unfold text. rewrite Hcont. split; [reflexivity|exact Hc].
Defined.

Lemma backspace_spec (s : lineBuf) :
  inv s -> 0 < s.(cursor) ->
  wp backspace
     (fun _ s' =>
        content s' = firstn (Z.to_nat (s.(cursor) - 1)) (content s)
                     ++ skipn (Z.to_nat s.(cursor)) (content s) /\
        s'.(cursor) = s.(cursor) - 1 /\ s'.(length) = s.(length) - 1 /\ inv s')
     never s.
Proof.
  intros Hs Hc. pose proof Hs as (H0 & H1 & H2). unfold backspace, Backward. steps.
  replace (cursor s >? 0) with true by (symmetry; rewrite Z.gtb_ltb; apply Z.ltb_lt; lia).
  steps.
  set (s1 := mkLineBuf (length s) (cursor s - 1) (buf s) (yanked s) false
                       (history s) (historyIndex s)).
  assert (Hs1 : inv s1) by (unfold inv, capacity in *; subst s1; fields; lia).
  eapply wp_mid; [apply (Delete_spec s1 Hs1); subst s1; fields; lia|].
  intros r s' (_ & Hcont & Hl & Hcu & _ & _ & _ & _ & Hcap). steps.
  change (content s1) with (content s) in Hcont.
  change (cursor s1) with (cursor s - 1) in Hcont, Hcu.
  change (length s1) with (length s) in Hl.
  change (capacity s1) with (capacity s) in Hcap.
  replace (S (Z.to_nat (cursor s - 1))) with (Z.to_nat (cursor s)) in Hcont by lia.
  split; [exact Hcont|]. split; [exact Hcu|]. split; [exact Hl|].
  unfold inv. lia.
Qed.

Lemma backspaces_spec (n : nat) :
  forall s : lineBuf,
    inv s -> Z.of_nat n <= s.(cursor) ->
    wp (backspaces n)
       (fun _ s' =>
          content s' = firstn (Z.to_nat s.(cursor) - n) (content s)
                       ++ skipn (Z.to_nat s.(cursor)) (content s) /\
          s'.(cursor) = s.(cursor) - Z.of_nat n /\
          s'.(length) = s.(length) - Z.of_nat n /\ inv s')
       never s.
Proof.
  induction n as [|n IH]; intros s Hs Hn; cbn [backspaces].
  - step1. rewrite Nat.sub_0_r, firstn_skipn.
    split; [reflexivity|]. split; [lia|]. split; [lia|exact Hs].
  - step1. eapply wp_mid; [apply (backspace_spec s Hs); lia|].
    intros ? s1 (Hcont1 & Hc1 & Hl1 & Hs1). cbv beta.
    eapply wp_mid; [apply (IH s1 Hs1); lia|].
    intros ? s2 (Hcont2 & Hc2 & Hl2 & Hs2). cbv beta.
    pose proof Hs as (H0 & H1 & H2).
    assert (Hlen : List.length (content s) = Z.to_nat (length s)).
    { pose proof (content_length s) as Hc. unfold Go.len in Hc. lia. }
    assert (Hp : List.length (firstn (Z.to_nat (cursor s - 1)) (content s))
                 = Z.to_nat (cursor s - 1)) by (rewrite length_firstn; lia).
    split; [|split; [lia|split; [lia|exact Hs2]]].
    rewrite Hcont2, Hc1, Hcont1.
    rewrite firstn_app, Hp, firstn_firstn.
    replace (Z.to_nat (cursor s - 1) - n - Z.to_nat (cursor s - 1))%nat with O by lia.
    rewrite firstn_0, app_nil_r, skipn_exact by exact Hp.
    f_equal. f_equal. lia.
Qed.

(** X5.  Typing and erasing: on a buffer with
    [0 <= cursor <= length <= capacity], inserting any bytes and then
    pressing DELETE (Backward, then Delete if it moved) once for each of
    them returns and gives back the text, the cursor and the length the
    buffer had. *)
Theorem typed_then_erased (chs : list byte) (s : lineBuf) :
  inv s ->
  exists s',
    (InsertBytes chs ;; backspaces (List.length chs)) s = Ok tt s' /\
    content s' = content s /\ s'.(cursor) = s.(cursor) /\ s'.(length) = s.(length).
Proof.
  intros Hs. pose proof Hs as (H0 & H1 & H2).
  enough (H : wp (InsertBytes chs ;; backspaces (List.length chs))
                 (fun _ s' => content s' = content s /\ cursor s' = cursor s /\
                              length s' = length s) never s).
  { destruct (wp_returns _ _ _ H) as ([] & s' & E & HQ). now exists s'. }
  step1. eapply wp_mid; [apply (InsertBytes_spec chs s Hs)|].
  intros ? s1 Hins. cbv beta.
  pose proof (inserted_bytes_inv chs s s1 Hs Hins) as Hs1.
  destruct Hins as (Hl & Hc & _ & _ & _ & _ & _ & _ & Hcont). unfold Go.len in *.
  eapply wp_mid; [apply (backspaces_spec (List.length chs) s1 Hs1); lia|].
  intros ? s2 (Hcont2 & Hc2 & Hl2 & _). cbv beta.
  assert (Hlen : List.length (content s) = Z.to_nat (length s)).
  { pose proof (content_length s) as Hx. unfold Go.len in Hx. lia. }
  assert (Hp : List.length (firstn (Z.to_nat (cursor s)) (content s)) = Z.to_nat (cursor s))
    by (rewrite length_firstn; lia).
  repeat split; try lia.
  rewrite Hcont2, Hcont, Hc.
  replace (Z.to_nat (cursor s + Z.of_nat (List.length chs)) - List.length chs)%nat
    with (Z.to_nat (cursor s)) by lia.
  rewrite firstn_exact by exact Hp.
  replace (Z.to_nat (cursor s + Z.of_nat (List.length chs)))
    with (List.length chs + Z.to_nat (cursor s))%nat by lia.
  rewrite <- skipn_skipn. rewrite (skipn_exact _ _ _ Hp).
  rewrite skipn_exact by reflexivity.
  apply firstn_skipn.
Qed.

Lemma typed_then_erased_witness :
  let s := mkLineBuf 2 1 (Go.bytes_of_string "ab") "" false None (-1) in
  inv s /\
  exists s',
    (InsertBytes (Go.bytes_of_string "xyz") ;; backspaces 3) s = Ok tt s' /\
    content s' = content s /\ s'.(cursor) = s.(cursor) /\ s'.(length) = s.(length).
Proof.
  intros s.
  assert (Hs : inv s) by (unfold inv, capacity, Go.len; cbn; lia).
  split; [exact Hs|]. exact (typed_then_erased (Go.bytes_of_string "xyz") s Hs).
Defined.

(** ** Kill, yank and ranges *)

(** X6.  [KillToEnd] on a buffer with [0 <= cursor <= length <= capacity]
    returns the number of bytes after the cursor, cuts the text at the
    cursor, leaves the cursor where it is and clears the coalescing flag;
    the bytes cut are appended to the register when the flag was set and
    replace it otherwise. *)
Theorem KillToEnd_contract (s : lineBuf) :
  inv s ->
  exists s',
    KillToEnd s = Ok (s.(length) - s.(cursor)) s' /\
    content s' = firstn (Z.to_nat s.(cursor)) (content s) /\
    s'.(length) = s.(cursor) /\ s'.(cursor) = s.(cursor) /\
    s'.(yanking) = false /\
    s'.(yanked) = (if s.(yanking)
                   then (s.(yanked)
                         ++ Go.string_of_bytes (skipn (Z.to_nat s.(cursor)) (content s)))%string
                   else Go.string_of_bytes (skipn (Z.to_nat s.(cursor)) (content s))) /\
    s'.(history) = s.(history) /\ s'.(historyIndex) = s.(historyIndex).
Proof.
  intros Hs. pose proof Hs as (H0 & H1 & H2).
  destruct (wp_returns _ _ _ (KillToEnd_spec s Hs)) as (n & s' & E & -> & Hk).
  unfold killed_to_end in Hk. rewrite span_to_end in Hk by exact Hs.
  exists s'. split; [exact E|]. subst s'. unfold content; fields.
  repeat split. rewrite firstn_firstn. f_equal. lia.
Qed.

Lemma KillToEnd_contract_witness :
  let s := mkLineBuf 4 1 (Go.bytes_of_string "abcd") "" false None (-1) in
  inv s /\
  exists s', KillToEnd s = Ok 3 s' /\ text s' = "a"%string /\ s'.(yanked) = "bcd"%string.
Proof.
  intros s.
  assert (Hs : inv s) by (unfold inv, capacity, Go.len; cbn; lia).
  split; [exact Hs|].
  destruct (KillToEnd_contract s Hs) as (s' & E & Hcont & _ & _ & _ & Hy & _).
  exists s'. split; [exact E|]. unfold text. rewrite Hcont, Hy. split; reflexivity.
Defined.

Lemma length_bytes_of_string (str : string) :
  List.length (Go.bytes_of_string str) = String.length str.
Proof.
  induction str as [|a r IH]; cbn; [reflexivity|]. f_equal. exact IH.
Qed.

(** X7.  [Yank] on a buffer with [0 <= cursor <= length <= capacity]
    returns the length of the register, puts the bytes of the register at
    the cursor and leaves the register as it is; the coalescing flag is set
    afterwards only when the register is empty, because every byte inserted
    clears it again. *)
Theorem Yank_contract (s : lineBuf) :
  inv s ->
  exists s',
    Yank s = Ok (Z.of_nat (String.length s.(yanked))) s' /\
    content s' = firstn (Z.to_nat s.(cursor)) (content s)
                 ++ Go.bytes_of_string s.(yanked)
                 ++ skipn (Z.to_nat s.(cursor)) (content s) /\
    s'.(cursor) = s.(cursor) + Z.of_nat (String.length s.(yanked)) /\
    s'.(length) = s.(length) + Z.of_nat (String.length s.(yanked)) /\
    s'.(yanked) = s.(yanked) /\
    s'.(yanking) = (if String.eqb s.(yanked) "" then true else false).
Proof.
  intros Hs.
  destruct (wp_returns _ _ _ (Yank_spec s Hs)) as (n & s' & E & -> & Hins).
  destruct Hins as (Hl & Hc & Hy & Hk & _ & _ & _ & _ & Hcont). fields.
  assert (Hlen : Go.len (Go.bytes_of_string (yanked s)) = Z.of_nat (String.length (yanked s)))
    by (unfold Go.len; now rewrite length_bytes_of_string).
  rewrite Hlen in Hl, Hc.
  exists s'.
  split; [exact E|]. split; [exact Hcont|]. split; [exact Hc|]. split; [exact Hl|].
  split; [exact Hy|]. rewrite Hk. destruct (yanked s); reflexivity.
Qed.

Lemma Yank_contract_witness :
  let s := mkLineBuf 2 1 (Go.bytes_of_string "ab") "xy" false None (-1) in
  inv s /\
  exists s', Yank s = Ok 2 s' /\ text s' = "axyb"%string /\ s'.(yanking) = false.
Proof.
  intros s.
  assert (Hs : inv s) by (unfold inv, capacity, Go.len; cbn; lia).
  split; [exact Hs|].
  destruct (Yank_contract s Hs) as (s' & E & Hcont & _ & _ & _ & Hk).
  exists s'. split; [exact E|]. unfold text. rewrite Hcont. split; [reflexivity|exact Hk].
Defined.

(** X8.  [DeleteRange(begin, end)] with both arguments inside
    [0 .. length] and [end <= begin] changes nothing and returns
    [end - begin], which is negative when the range is inverted. *)
Theorem DeleteRange_inverted (begin end_ : Z) (s : lineBuf) :
  inv s ->
  0 <= begin <= s.(length) -> 0 <= end_ <= s.(length) -> end_ <= begin ->
  DeleteRange begin end_ s = Ok (end_ - begin) s.
Proof.
  intros Hs Hb He Hinv.
  destruct (wp_returns _ _ _ (DeleteRange_spec begin end_ s Hs)) as (n & s' & E & H).
  replace ((begin >? length s) || (end_ <? 0)) with false in H.
  - cbv zeta in H.
    replace (Z.max begin 0) with begin in H by lia.
    replace (Z.min end_ (length s)) with end_ in H by lia.
    replace (begin <? end_) with false in H by (symmetry; apply Z.ltb_ge; lia).
    destruct H as (-> & ->). exact E.
  - symmetry. apply orb_false_iff. rewrite Z.gtb_ltb, !Z.ltb_ge. lia.
Qed.

Lemma DeleteRange_inverted_witness :
  let s := mkLineBuf 5 2 (Go.bytes_of_string "ab cd") "" false None (-1) in
  inv s /\ DeleteRange 3 1 s = Ok (-2) s.
Proof.
  intros s.
  assert (Hs : inv s) by (unfold inv, capacity, Go.len; cbn; lia).
  split; [exact Hs|].
  apply (DeleteRange_inverted 3 1 s Hs); cbn; lia.
Defined.

(** ** Word motion and word deletion *)

Lemma is_space_true (x : byte) : is_space x = true <-> x = SPACE.
Proof. unfold is_space. apply Ascii.eqb_eq. Qed.

Lemma is_space_false (x : byte) : is_space x = false <-> x <> SPACE.
Proof. unfold is_space. apply Ascii.eqb_neq. Qed.

Lemma wp_load_some (i : Z) (Q : byte -> lineBuf -> Prop) R (s : lineBuf) :
  0 <= i < capacity s -> (forall x, byte_at s i = Some x -> Q x s) -> wp (load i) Q R s.
Proof.
  intros Hi HQ. destruct (load_in_range i s Hi) as (x & E & Hx).
  apply wp_of_eq with (a := x) (s' := s); [exact E|]. now apply HQ.
Qed.

Lemma forward_over_spaces_scan (k : nat) (i : Z) (s : lineBuf) :
  0 <= i -> i + Z.of_nat k <= capacity s ->
  wp (forward_over_spaces k i)
     (fun j s' =>
        s' = s /\ i <= j <= i + Z.of_nat k /\
        (forall m, i <= m < j -> byte_at s m = Some SPACE) /\
        (j < i + Z.of_nat k -> exists x, byte_at s j = Some x /\ x <> SPACE))
     never s.
Proof.
  revert i. induction k as [|k IH]; intros i H0 H1; cbn [forward_over_spaces].
  - step1. split; [reflexivity|]. split; [lia|]. split; intros; lia.
  - step1. apply wp_load_some; [lia|]. intros x Hx.
    destruct (is_space x) eqn:Ex; cbn [negb].
    + eapply wp_mid; [apply IH; lia|]. cbv beta.
      intros j s' (-> & Hj & Hsp & Hns).
      split; [reflexivity|]. split; [lia|]. split.
      * intros m Hm. destruct (Z.eq_dec m i) as [->|Hne].
        -- apply is_space_true in Ex. now subst x.
        -- apply Hsp. lia.
      * intros Hlt. apply Hns. lia.
    + step1. split; [reflexivity|]. split; [lia|]. split; [intros; lia|].
      intros _. exists x. split; [exact Hx|]. now apply is_space_false.
Qed.

Lemma forward_to_space_scan (k : nat) (i : Z) (s : lineBuf) :
  0 <= i -> i + Z.of_nat k <= capacity s ->
  wp (forward_to_space k i)
     (fun r s' =>
        s' = s /\
        match r with
        | Some j => i <= j < i + Z.of_nat k /\ byte_at s j = Some SPACE /\
                    forall m, i <= m < j -> exists x, byte_at s m = Some x /\ x <> SPACE
        | None => forall m, i <= m < i + Z.of_nat k ->
                            exists x, byte_at s m = Some x /\ x <> SPACE
        end)
     never s.
Proof.
  revert i. induction k as [|k IH]; intros i H0 H1; cbn [forward_to_space].
  - step1. split; [reflexivity|]. intros; lia.
  - step1. apply wp_load_some; [lia|]. intros x Hx.
    destruct (is_space x) eqn:Ex.
    + step1. split; [reflexivity|]. split; [lia|]. split.
      * apply is_space_true in Ex. now subst x.
      * intros; lia.
    + apply is_space_false in Ex.
      eapply wp_mid; [apply IH; lia|]. cbv beta.
      intros [j|] s' (-> & Hr); (split; [reflexivity|]).
      * destruct Hr as (Hj & Hsp & Hns). split; [lia|]. split; [exact Hsp|].
        intros m Hm. destruct (Z.eq_dec m i) as [->|Hne]; [now exists x|apply Hns; lia].
      * intros m Hm. destruct (Z.eq_dec m i) as [->|Hne]; [now exists x|apply Hr; lia].
Qed.

Lemma WordForward_wp (s : lineBuf) :
  inv s ->
  wp WordForward
     (fun _ s' => exists c' m, s' = set_cursor c' s /\
        cursor s <= m /\ m <= c' /\ c' <= length s /\
        (forall i, cursor s <= i < m -> byte_at s i = Some SPACE) /\
        (forall i, m <= i < c' -> exists x, byte_at s i = Some x /\ x <> SPACE) /\
        (m < length s -> exists x, byte_at s m = Some x /\ x <> SPACE) /\
        (c' < length s -> byte_at s c' = Some SPACE))
     never s.
Proof.
  intros (H0 & H1 & H2).
  unfold WordForward. step1. step1. cbv beta.
  step1. eapply wp_mid; [apply forward_over_spaces_scan; lia|]. cbv beta.
  intros m s' (-> & Hm & Hsp & Hns). step1.
  eapply wp_mid; [apply forward_to_space_scan; lia|]. cbv beta.
  intros [j|] s' (-> & Hr).
  - destruct Hr as (Hj & Hjsp & Hjns). step1.
    exists j, m. split; [reflexivity|].
    split; [lia|]. split; [lia|]. split; [lia|]. split; [exact Hsp|].
    split; [exact Hjns|]. split; [intros Hlt; apply Hns; lia|]. intros _. exact Hjsp.
  - step1. exists (length s), m. split; [reflexivity|].
    split; [lia|]. split; [lia|]. split; [lia|]. split; [exact Hsp|].
    split; [intros i Hi; apply Hr; lia|]. split; [intros Hlt; apply Hns; lia|]. lia.
Qed.

(** X10.  [WordForward] on a buffer with
    [0 <= cursor <= length <= capacity] returns and changes the cursor only.
    From the old cursor there is a run of spaces up to some [m], then a run
    of bytes other than space up to the new cursor, and the new cursor is at
    a space or at the end of the text; [m] is at a byte other than space or
    at the end of the text. *)
Theorem WordForward_contract (s : lineBuf) :
  inv s ->
  exists c' m,
    WordForward s = Ok tt (set_cursor c' s) /\
    s.(cursor) <= m /\ m <= c' /\ c' <= s.(length) /\
    (forall i, s.(cursor) <= i < m -> byte_at s i = Some SPACE) /\
    (forall i, m <= i < c' -> exists x, byte_at s i = Some x /\ x <> SPACE) /\
    (m < s.(length) -> exists x, byte_at s m = Some x /\ x <> SPACE) /\
    (c' < s.(length) -> byte_at s c' = Some SPACE).
Proof.
  intros Hs.
  destruct (wp_returns _ _ _ (WordForward_wp s Hs)) as ([] & s' & E & c' & m & -> & HQ).
  now exists c', m.
Qed.

Lemma WordForward_contract_witness :
  let s := mkLineBuf 7 1 (Go.bytes_of_string "a  bc d") "" false None (-1) in
  inv s /\ exists c' m, WordForward s = Ok tt (set_cursor c' s) /\ s.(cursor) <= m /\ m <= c'.
Proof.
  intros s.
  assert (Hs : inv s) by (unfold inv, capacity, Go.len; cbn; lia).
  split; [exact Hs|].
  destruct (WordForward_contract s Hs) as (c' & m & E & Hm & Hc & _).
  exists c', m. auto.
Defined.

Lemma back_over_spaces_scan (k : nat) (i : Z) (s : lineBuf) :
  0 <= i - Z.of_nat k -> i < capacity s ->
  wp (back_over_spaces k i)
     (fun j s' =>
        s' = s /\ i - Z.of_nat k <= j <= i /\
        (forall m, j < m <= i -> byte_at s m = Some SPACE) /\
        (i - Z.of_nat k < j -> exists x, byte_at s j = Some x /\ x <> SPACE))
     never s.
Proof.
  revert i. induction k as [|k IH]; intros i H0 H1; cbn [back_over_spaces].
  - step1. split; [reflexivity|]. split; [lia|]. split; intros; lia.
  - step1. apply wp_load_some; [lia|]. intros x Hx.
    destruct (is_space x) eqn:Ex; cbn [negb].
    + eapply wp_mid; [apply IH; lia|]. cbv beta.
      intros j s' (-> & Hj & Hsp & Hns).
      split; [reflexivity|]. split; [lia|]. split.
      * intros m Hm. destruct (Z.eq_dec m i) as [->|Hne].
        -- apply is_space_true in Ex. now subst x.
        -- apply Hsp. lia.
      * intros Hlt. apply Hns. lia.
    + step1. split; [reflexivity|]. split; [lia|]. split; [intros; lia|].
      intros _. exists x. split; [exact Hx|]. now apply is_space_false.
Qed.

Lemma back_to_space_scan (k : nat) (i : Z) (s : lineBuf) :
  0 <= i - Z.of_nat k -> i < capacity s ->
  wp (back_to_space k i)
     (fun r s' =>
        s' = s /\
        match r with
        | Some j => i - Z.of_nat k < j <= i /\ byte_at s j = Some SPACE /\
                    forall m, j < m <= i -> exists x, byte_at s m = Some x /\ x <> SPACE
        | None => forall m, i - Z.of_nat k < m <= i ->
                            exists x, byte_at s m = Some x /\ x <> SPACE
        end)
     never s.
Proof.
  revert i. induction k as [|k IH]; intros i H0 H1; cbn [back_to_space].
  - step1. split; [reflexivity|]. intros; lia.
  - step1. apply wp_load_some; [lia|]. intros x Hx.
    destruct (is_space x) eqn:Ex.
    + step1. split; [reflexivity|]. split; [lia|]. split.
      * apply is_space_true in Ex. now subst x.
      * intros; lia.
    + apply is_space_false in Ex.
      eapply wp_mid; [apply IH; lia|]. cbv beta.
      intros [j|] s' (-> & Hr); (split; [reflexivity|]).
      * destruct Hr as (Hj & Hsp & Hns). split; [lia|]. split; [exact Hsp|].
        intros m Hm. destruct (Z.eq_dec m i) as [->|Hne]; [now exists x|apply Hns; lia].
      * intros m Hm. destruct (Z.eq_dec m i) as [->|Hne]; [now exists x|apply Hr; lia].
Qed.

(** What the scan of [WordBackward] and [WordBackspace] finds: the place
    [c'] of the cursor afterwards and the end [e] of the word before it. *)
Lemma WordBackward_wp (s : lineBuf) :
  inv s -> 0 < capacity s ->
  wp WordBackward
     (fun _ s' => exists c' e,
        s' = set_cursor c' s /\
        0 <= c' /\ c' <= e /\ e <= Z.max 1 s.(cursor) /\
        (0 < s.(cursor) -> c' < s.(cursor)) /\
        (s.(cursor) = 0 -> c' = 0) /\
        (forall m, e <= m < s.(cursor) -> 1 <= m -> byte_at s m = Some SPACE) /\
        (forall m, c' <= m < e -> 1 <= m -> exists x, byte_at s m = Some x /\ x <> SPACE) /\
        (0 < c' -> byte_at s (c' - 1) = Some SPACE))
     never s.
Proof.
  intros (H0 & H1 & H2) Hcap. unfold WordBackward. step1. step1. cbv beta.
  set (i0 := if cursor s >? 0 then cursor s - 1 else cursor s).
  assert (Hi0 : 0 <= i0 /\ i0 < capacity s /\
                (0 < cursor s -> i0 = cursor s - 1) /\ (cursor s = 0 -> i0 = 0)).
  { subst i0. destruct (Z.gtb_spec (cursor s) 0); lia. }
  destruct Hi0 as (Hi0 & Hi0c & Hi0p & Hi0z).
  step1. eapply wp_mid; [apply back_over_spaces_scan; lia|]. cbv beta.
  intros j1 s' (-> & Hj1 & Hsp & Hns). step1.
  apply wp_load_some; [lia|]. intros x Hx. step1.
  destruct (is_space x) eqn:Ex; cbn [negb].
  - (* the scan ran down to index 0 over spaces *)
    step1. step1.
    assert (Hj0 : j1 = 0).
    { destruct (Z.eq_dec j1 0) as [E|E]; [exact E|].
      destruct Hns as (y & Hy & Hne); [lia|].
      apply is_space_true in Ex. unfold byte_at in *. congruence. }
    exists 0, 0. split; [reflexivity|].
    repeat split; try lia; intros m Hm Hm1; apply Hsp; lia.
  - apply is_space_false in Ex.
    eapply wp_mid; [apply back_to_space_scan; lia|]. cbv beta.
    intros [j|] s' (-> & Hr).
    + destruct Hr as (Hj & Hjsp & Hjns). step1.
      assert (Hjj : j <> j1) by (intros ->; unfold byte_at in *; congruence).
      exists (j + 1), (j1 + 1). split; [reflexivity|].
      split; [lia|]. split; [lia|]. split; [lia|]. split; [lia|]. split; [lia|].
      split; [intros m Hm Hm1; apply Hsp; lia|].
      split; [intros m Hm Hm1; apply Hjns; lia|].
      intros _. now replace (j + 1 - 1) with j by lia.
    + step1. exists 0, (j1 + 1). split; [reflexivity|].
      split; [lia|]. split; [lia|]. split; [lia|]. split; [lia|]. split; [lia|].
      split; [intros m Hm Hm1; apply Hsp; lia|].
      split; [intros m Hm Hm1; apply Hr; lia|]. lia.
Qed.

(** X11.  [WordBackward] on a buffer with
    [0 <= cursor <= length <= capacity] and a non-empty array returns and
    changes the cursor only.  The new cursor [c'] is before the old one
    (or both are 0) and is 0 or just after a space; between it and the old
    cursor lie a run of bytes other than space up to some [e] and then a
    run of spaces, where the byte at index 0 is the one byte the scan does
    not look at as part of a run. *)
Theorem WordBackward_contract (s : lineBuf) :
  inv s -> 0 < capacity s ->
  exists c' e,
    WordBackward s = Ok tt (set_cursor c' s) /\
    0 <= c' /\ c' <= e /\ e <= Z.max 1 s.(cursor) /\
    (0 < s.(cursor) -> c' < s.(cursor)) /\
    (s.(cursor) = 0 -> c' = 0) /\
    (forall m, e <= m < s.(cursor) -> 1 <= m -> byte_at s m = Some SPACE) /\
    (forall m, c' <= m < e -> 1 <= m -> exists x, byte_at s m = Some x /\ x <> SPACE) /\
    (0 < c' -> byte_at s (c' - 1) = Some SPACE).
Proof.
  intros Hs Hcap.
  destruct (wp_returns _ _ _ (WordBackward_wp s Hs Hcap)) as ([] & s' & E & c' & e & -> & HQ).
  now exists c', e.
Qed.

Lemma WordBackward_contract_witness :
  let s := mkLineBuf 7 5 (Go.bytes_of_string "a  bc d") "" false None (-1) in
  inv s /\ 0 < capacity s /\
  exists c' e, WordBackward s = Ok tt (set_cursor c' s) /\ 0 <= c' /\ c' <= e.
Proof.
  intros s.
  assert (Hs : inv s) by (unfold inv, capacity, Go.len; cbn; lia).
  assert (Hc : 0 < capacity s) by (unfold capacity, Go.len; cbn; lia).
  split; [exact Hs|]. split; [exact Hc|].
  destruct (WordBackward_contract s Hs Hc) as (c' & e & E & H1 & H2 & _).
  exists c', e. auto.
Defined.

(** X12.  [WordBackspace] on a buffer with
    [0 <= cursor <= length <= capacity] and a non-empty array returns, and
    what it does is [DeleteRange] from the place where [WordBackward] would
    put the cursor up to the cursor: the bytes removed are the ones
    [WordBackward] moves over and their number is what is returned. *)
Theorem WordBackspace_contract (s : lineBuf) :
  inv s -> 0 < capacity s ->
  exists c' n s',
    WordBackward s = Ok tt (set_cursor c' s) /\
    WordBackspace s = Ok n s' /\
    DeleteRange c' s.(cursor) s = Ok n s' /\
    n = s.(cursor) - c' /\
    content s' = firstn (Z.to_nat c') (content s) ++ skipn (Z.to_nat s.(cursor)) (content s) /\
    s'.(cursor) = c' /\ s'.(length) = s.(length) - n.
Proof.
  intros Hs Hcap. pose proof Hs as (H0 & H1 & H2).
  destruct (wp_returns _ _ _ (WordBackward_wp s Hs Hcap))
    as ([] & s1 & E & c' & e & -> & Hc0 & Hce & He & Hlt & Hz & _).
  pose proof (WordBackspace_scan s) as Hscan. rewrite E in Hscan. fields.
  destruct (wp_returns _ _ _ (DeleteRange_spec c' (cursor s) s Hs)) as (n & s' & Ed & Hd).
  replace ((c' >? length s) || (cursor s <? 0)) with false in Hd
    by (symmetry; apply orb_false_iff; rewrite Z.gtb_ltb, !Z.ltb_ge; lia).
  cbv zeta in Hd.
  replace (Z.max c' 0) with c' in Hd by lia.
  replace (Z.min (cursor s) (length s)) with (cursor s) in Hd by lia.
  destruct Hd as (-> & Hd).
  exists c', (cursor s - c'), s'. rewrite Hscan.
  split; [exact E|]. split; [exact Ed|]. split; [exact Ed|]. split; [reflexivity|].
  destruct (Z.ltb_spec c' (cursor s)) as [Hlt'|Hge].
  - destruct Hd as (Hl & Hc & _ & _ & _ & _ & _ & Hcont). repeat split; assumption || lia.
  - subst s'. assert (c' = cursor s) by lia. subst c'.
    rewrite firstn_skipn. repeat split; lia.
Qed.

Lemma WordBackspace_contract_witness :
  let s := mkLineBuf 7 5 (Go.bytes_of_string "a  bc d") "" false None (-1) in
  inv s /\ 0 < capacity s /\
  exists n s', WordBackspace s = Ok n s' /\ s'.(length) = s.(length) - n.
Proof.
  intros s.
  assert (Hs : inv s) by (unfold inv, capacity, Go.len; cbn; lia).
  assert (Hc : 0 < capacity s) by (unfold capacity, Go.len; cbn; lia).
  split; [exact Hs|]. split; [exact Hc|].
  destruct (WordBackspace_contract s Hs Hc) as (c' & n & s' & _ & E & _ & _ & _ & _ & Hl).
  exists n, s'. auto.
Defined.

(** X13.  [WordDelete] on a buffer with
    [0 <= cursor <= length <= capacity]: with the cursor at 0 it panics on
    the read of [lb.buf[-1]] and leaves the buffer as it was; with the
    cursor after the first byte it returns and keeps
    [0 <= cursor <= length <= capacity]. *)
Theorem WordDelete_returns_unless_at_start (s : lineBuf) :
  inv s ->
  (s.(cursor) = 0 -> WordDelete s = Panic (IndexOutOfRange (-1) (capacity s)) s) /\
  (0 < s.(cursor) -> exists n s', WordDelete s = Ok n s' /\ inv s').
Proof.
  intros Hs. pose proof Hs as (H0 & H1 & H2). split.
  - intros Hc. apply WordDelete_panics_at_start; lia.
  - intros Hc. destruct (wp_returns _ _ _ (WordDelete_returns s Hs Hc)) as (n & s' & E & Hs').
    now exists n, s'.
Qed.

Lemma WordDelete_returns_unless_at_start_witness :
  let s := mkLineBuf 5 2 (Go.bytes_of_string "ab cd") "" false None (-1) in
  inv s /\ exists n s', WordDelete s = Ok n s' /\ inv s'.
Proof.
  intros s.
  assert (Hs : inv s) by (unfold inv, capacity, Go.len; cbn; lia).
  split; [exact Hs|].
  destruct (WordDelete_returns_unless_at_start s Hs) as (_ & H).
  apply H. cbn. lia.
Defined.

(** ** History *)




Lemma hist_ok_same (s s' : lineBuf) :
  s'.(history) = s.(history) -> s'.(historyIndex) = s.(historyIndex) ->
  hist_ok s -> hist_ok s'.
Proof.
  unfold hist_ok, history_length. intros -> ->. exact (fun H => H).
Qed.

Lemma index_valid {A : Type} (l : list A) (i : Z) :
  0 <= i < Go.len l -> exists x, Go.index l i = Some x.
Proof. apply index_in_range. Qed.

Lemma recalled_stepped (n : Z) (s0 s : lineBuf) (r : Z) (s' : lineBuf) (h : list string) :
  s.(history) = Some h -> 0 <= s.(historyIndex) < Go.len h ->
  s0.(history) = Some h -> capacity s0 = capacity s -> n = s0.(length) ->
  recalled n s r s' -> stepped s0 r s'.
Proof.
  intros Eh Hi Eh0 Hcap Hn Hr. pose proof (recalled_inv _ _ _ _ Hr) as Hinv.
  destruct Hr as (h' & e & Eh' & Ee & Hins & Hret).
  destruct Hins as (_ & _ & _ & _ & Hh & Hx & _ & Hgrow & _). fields.
  unfold stepped. split; [exact Hinv|]. split.
  - unfold hist_ok, history_length. rewrite Hh, Hx, Eh. lia.
  - split; [congruence|]. split.
    + unfold capacity in *. fields. lia.
    + subst r n. destruct (Z.gtb_spec (length s') (length s0)); lia.
Qed.

Lemma PrevInHistory_stepped (s : lineBuf) :
  inv s -> hist_ok s -> wp PrevInHistory (stepped s) never s.
Proof.
  intros Hs (Hlo & Hhi). pose proof Hs as (H0 & H1 & H2).
  unfold history_length in Hhi.
  unfold PrevInHistory. steps.
  destruct (history s) as [h|] eqn:Eh.
  2:{ step1. unfold stepped, hist_ok, history_length. rewrite Eh.
      repeat split; try assumption; lia. }
  step1.
  set (i := if historyIndex s <? 0 then Go.len h - 1 else historyIndex s - 1).
  apply wp_mid with (I := fun _ s1 => s1 = set_historyIndex i s).
  { subst i. destruct (historyIndex s <? 0); now step1. }
  intros ? s1 ->. do 2 step1. fields.
  assert (Hi : -1 <= i /\ (0 <= i -> i < Go.len h)).
  { subst i. pose proof (len_nonneg h). destruct (Z.ltb_spec (historyIndex s) 0); lia. }
  destruct (Z.geb_spec i 0) as [Hge|Hlt].
  - assert (Hv : 0 <= i < Go.len h) by lia.
    destruct (index_valid h i Hv) as (e & He).
    eapply wp_mid;
      [apply recall_returns with (h := h) (e := e); fields; assumption|].
    intros r s' Hr.
    eapply recalled_stepped with (h := h) (3 := Eh); [| | | |exact Hr]; fields;
      (reflexivity || assumption).
  - steps. unfold stepped, hist_ok, history_length, inv, capacity in *. fields.
    rewrite Eh. pose proof (len_nonneg h). repeat split; lia.
Qed.

Lemma NextInHistory_stepped (s : lineBuf) :
  inv s -> hist_ok s -> wp NextInHistory (stepped s) never s.
Proof.
  intros Hs (Hlo & Hhi). pose proof Hs as (H0 & H1 & H2).
  unfold history_length in Hhi.
  assert (Hsame : stepped s (length s) s).
  { unfold stepped, hist_ok, history_length. repeat split; try assumption; lia. }
  unfold NextInHistory. steps.
  destruct (history s) as [h|] eqn:Eh; [|now step1].
  destruct (Z.geb_spec (historyIndex s) 0) as [Hge|Hlt]; [|now step1].
  steps.
  destruct (Z.ltb_spec (historyIndex s + 1) (Go.len h)) as [Hin|Hout].
  - assert (Hv : 0 <= historyIndex s + 1 < Go.len h) by lia.
    destruct (index_valid h _ Hv) as (e & He).
    eapply wp_mid;
      [apply recall_returns with (h := h) (e := e); fields; assumption|].
    intros r s' Hr.
    eapply recalled_stepped with (h := h) (3 := Eh); [| | | |exact Hr]; fields;
      (reflexivity || assumption).
  - steps. unfold stepped, hist_ok, history_length, inv, capacity in *. fields.
    rewrite Eh. repeat split; try lia.
Qed.

(** X15.  Browsing the history is safe: on a buffer with
    [0 <= cursor <= length <= capacity] whose history index is -1, an index
    of the history, or 0, both [PrevInHistory] and [NextInHistory] return;
    they keep these two properties and the history itself, never shrink the
    array, and return the larger of the old and the new length. *)
Theorem history_steps_are_safe (s : lineBuf) :
  inv s -> hist_ok s ->
  (exists r s', PrevInHistory s = Ok r s' /\ stepped s r s') /\
  (exists r s', NextInHistory s = Ok r s' /\ stepped s r s').
Proof.
  intros Hs Hh. split.
  - destruct (wp_returns _ _ _ (PrevInHistory_stepped s Hs Hh)) as (r & s' & E & HQ).
    now exists r, s'.
  - destruct (wp_returns _ _ _ (NextInHistory_stepped s Hs Hh)) as (r & s' & E & HQ).
    now exists r, s'.
Qed.

Lemma history_steps_are_safe_witness :
  let s := mkLineBuf 2 1 (Go.bytes_of_string "ab") "" false (Some ["x"; "y"]%string) 1 in
  inv s /\ hist_ok s /\
  (exists r s', PrevInHistory s = Ok r s' /\ stepped s r s') /\
  (exists r s', NextInHistory s = Ok r s' /\ stepped s r s').
Proof.
  intros s.
  assert (Hs : inv s) by (unfold inv, capacity, Go.len; cbn; lia).
  assert (Hh : hist_ok s) by (unfold hist_ok, history_length, Go.len; cbn; lia).
  split; [exact Hs|]. split; [exact Hh|].
  exact (history_steps_are_safe s Hs Hh).
Defined.

(** ** All operations together *)

Lemma wp_eq {S A : Type} (c c' : M S A) (Q : A -> S -> Prop) R (s : S) :
  c s = c' s -> wp c' Q R s -> wp c Q R s.
Proof. unfold wp. now intros ->. Qed.

Lemma kept_frame (s s' : lineBuf) :
  sound s -> inv s' -> capacity s <= capacity s' ->
  s'.(history) = s.(history) -> s'.(historyIndex) = s.(historyIndex) ->
  kept s s'.
Proof.
  intros (Hi & Hc & Hh) Hi' Hcap Hhist Hidx. unfold kept, sound.
  split; [|exact Hcap]. split; [exact Hi'|]. split; [lia|].
  now apply (hist_ok_same s s').
Qed.

Ltac framed :=
  apply kept_frame; try assumption; try reflexivity;
  unfold inv, capacity in *; fields; lia.

Lemma kept_refl (s : lineBuf) : sound s -> kept s s.
Proof. intros Hs. split; [exact Hs|lia]. Qed.

Lemma Insert_kept (ch : byte) (s : lineBuf) :
  sound s -> wp (Insert ch) (fun _ s' => kept s s') never s.
Proof.
  intros Hs. pose proof Hs as (Hi & _).
  eapply wp_mid; [apply (Insert_spec ch s Hi)|]. intros ? s' Hins.
  pose proof (inserted_inv ch s s' Hi Hins) as Hi'.
  destruct Hins as (_ & _ & _ & _ & Hh & Hx & _ & Hcap & _).
  now apply kept_frame.
Qed.

Lemma InsertBytes_kept (chs : list byte) (s : lineBuf) :
  sound s -> wp (InsertBytes chs) (fun _ s' => kept s s') never s.
Proof.
  intros Hs. pose proof Hs as (Hi & _).
  eapply wp_mid; [apply (InsertBytes_spec chs s Hi)|]. intros ? s' Hins.
  pose proof (inserted_bytes_inv chs s s' Hi Hins) as Hi'.
  destruct Hins as (_ & _ & _ & _ & Hh & Hx & _ & Hcap & _).
  now apply kept_frame.
Qed.

Lemma Delete_kept (s : lineBuf) :
  sound s -> wp Delete (fun _ s' => kept s s') never s.
Proof.
  intros Hs. pose proof Hs as ((H0 & H1 & H2) & _).
  destruct (Z.ltb_spec (cursor s) (length s)) as [Hlt|Hge].
  - eapply wp_mid; [apply Delete_spec; [apply Hs|exact Hlt]|].
    intros r s' (_ & _ & Hl & Hc & _ & _ & Hh & Hx & Hcap).
    apply kept_frame; try assumption; [|lia]. unfold inv. lia.
  - unfold Delete. steps.
    replace (cursor s <? length s) with false by (symmetry; apply Z.ltb_ge; lia).
    steps. framed.
Qed.

Lemma KillToEnd_kept (s : lineBuf) :
  sound s -> wp KillToEnd (fun _ s' => kept s s') never s.
Proof.
  intros Hs. pose proof Hs as ((H0 & H1 & H2) & _).
  eapply wp_mid; [apply KillToEnd_spec, Hs|].
  intros n s' (_ & Hk). unfold killed_to_end in Hk. subst s'.
  framed.
Qed.

Lemma DeleteRange_kept (begin end_ : Z) (s : lineBuf) :
  sound s -> wp (DeleteRange begin end_) (fun _ s' => kept s s') never s.
Proof.
  intros Hs. pose proof Hs as (Hi & _). pose proof Hi as (H0 & H1 & H2).
  eapply wp_mid; [apply (DeleteRange_spec begin end_ s Hi)|].
  intros n s'. cbv beta zeta.
  destruct ((begin >? length s) || (end_ <? 0)) eqn:E.
  - intros (_ & ->). now apply kept_refl.
  - apply orb_false_iff in E. destruct E as (E1 & E2).
    rewrite Z.gtb_ltb in E1. apply Z.ltb_ge in E1, E2.
    intros (_ & Hr).
    destruct (Z.ltb_spec (Z.max begin 0) (Z.min end_ (length s))) as [E|E].
    + destruct Hr as (Hl & Hc & _ & _ & Hh & Hx & Hcap & _).
      apply kept_frame; try assumption; [|lia]. unfold inv. lia.
    + subst s'. now apply kept_refl.
Qed.

Lemma Yank_kept (s : lineBuf) :
  sound s -> wp Yank (fun _ s' => kept s s') never s.
Proof.
  intros Hs. pose proof Hs as (Hi & _).
  eapply wp_mid; [apply (Yank_spec s Hi)|]. intros n s' (_ & Hins).
  assert (Hi' : inv s') by (eapply inserted_bytes_inv; [|exact Hins]; exact Hi).
  destruct Hins as (_ & _ & _ & _ & Hh & Hx & _ & Hcap & _).
  now apply kept_frame.
Qed.

Lemma set_cursor_kept (c : Z) (s : lineBuf) :
  sound s -> 0 <= c <= s.(length) -> kept s (set_cursor c s).
Proof.
  intros Hs Hc. pose proof Hs as ((H0 & H1 & H2) & _).
  framed.
Qed.

Lemma WordForward_kept (s : lineBuf) :
  sound s -> wp WordForward (fun _ s' => kept s s') never s.
Proof.
  intros Hs. pose proof Hs as ((H0 & H1 & H2) & _).
  eapply wp_mid; [apply WordForward_wp, Hs|].
  intros ? s' (c' & m & -> & Hm & Hc & Hl & _). apply set_cursor_kept; [exact Hs|lia].
Qed.

Lemma WordBackward_kept (s : lineBuf) :
  sound s -> wp WordBackward (fun _ s' => kept s s') never s.
Proof.
  intros Hs. pose proof Hs as ((H0 & H1 & H2) & Hcap & _).
  eapply wp_mid; [apply WordBackward_wp; [apply Hs|exact Hcap]|].
  intros ? s' (c' & e & -> & Hc0 & Hce & He & Hlt & Hz & _).
  apply set_cursor_kept; [exact Hs|].
  destruct (Z.eq_dec (cursor s) 0); lia.
Qed.

Lemma WordBackspace_kept (s : lineBuf) :
  sound s -> wp WordBackspace (fun _ s' => kept s s') never s.
Proof.
  intros Hs. pose proof Hs as (Hi & Hcap & _).
  destruct (wp_returns _ _ _ (WordBackward_wp s Hi Hcap)) as ([] & s1 & E & _).
  pose proof (WordBackspace_scan s) as Hscan. rewrite E in Hscan.
  eapply wp_eq; [exact Hscan|]. now apply DeleteRange_kept.
Qed.

Lemma WordDelete_kept (s : lineBuf) :
  sound s -> 0 < s.(cursor) -> wp WordDelete (fun _ s' => kept s s') never s.
Proof.
  intros Hs Hc. pose proof Hs as ((H0 & H1 & H2) & _). unfold WordDelete. steps.
  eapply wp_mid; [apply forward_over_spaces_returns; lia|].
  cbv beta. intros i s' (-> & Hi). step1.
  eapply wp_mid; [apply forward_to_space_returns; lia|].
  cbv beta. intros [j|] s' (-> & Hj).
  - now apply DeleteRange_kept.
  - step1. now apply kept_refl.
Qed.

Lemma Backward_kept (s : lineBuf) :
  sound s -> wp Backward (fun _ s' => kept s s') never s.
Proof.
  intros Hs. pose proof Hs as ((H0 & H1 & H2) & _). unfold Backward. steps.
  destruct (Z.gtb_spec (cursor s) 0); steps;
    framed.
Qed.

Lemma Forward_kept (s : lineBuf) :
  sound s -> wp Forward (fun _ s' => kept s s') never s.
Proof.
  intros Hs. pose proof Hs as ((H0 & H1 & H2) & _). unfold Forward. steps.
  destruct (Z.ltb_spec (cursor s) (length s)); steps;
    framed.
Qed.

Lemma Begin_kept (s : lineBuf) :
  sound s -> wp Begin (fun _ s' => kept s s') never s.
Proof.
  intros Hs. pose proof Hs as ((H0 & H1 & H2) & _). unfold Begin. steps.
  framed.
Qed.

Lemma End_kept (s : lineBuf) :
  sound s -> wp End (fun _ s' => kept s s') never s.
Proof.
  intros Hs. pose proof Hs as ((H0 & H1 & H2) & _). unfold End. steps.
  framed.
Qed.

Lemma Clear_kept (s : lineBuf) :
  sound s -> wp Clear (fun _ s' => kept s s') never s.
Proof.
  intros Hs. pose proof Hs as ((H0 & H1 & H2) & _). unfold Clear. steps.
  framed.
Qed.

Lemma AddToHistory_kept (line : string) (s : lineBuf) :
  sound s -> wp (AddToHistory line) (fun _ s' => kept s s') never s.
Proof.
  intros Hs. pose proof Hs as ((H0 & H1 & H2) & Hcap & _). unfold AddToHistory. steps.
  unfold kept, sound, inv, hist_ok, history_length, capacity in *. fields.
  repeat split; try lia.
Qed.

Lemma PrevInHistory_kept (s : lineBuf) :
  sound s -> wp PrevInHistory (fun _ s' => kept s s') never s.
Proof.
  intros Hs. pose proof Hs as (Hi & Hcap & Hh).
  eapply wp_mid; [apply (PrevInHistory_stepped s Hi Hh)|].
  intros r s' (Hi' & Hh' & _ & Hgrow & _). unfold kept, sound.
  split; [split; [exact Hi'|split; [lia|exact Hh']]|exact Hgrow].
Qed.

Lemma NextInHistory_kept (s : lineBuf) :
  sound s -> wp NextInHistory (fun _ s' => kept s s') never s.
Proof.
  intros Hs. pose proof Hs as (Hi & Hcap & Hh).
  eapply wp_mid; [apply (NextInHistory_stepped s Hi Hh)|].
  intros r s' (Hi' & Hh' & _ & Hgrow & _). unfold kept, sound.
  split; [split; [exact Hi'|split; [lia|exact Hh']]|exact Hgrow].
Qed.

Lemma wp_discard_kept {A : Type} (c : M lineBuf A) (s : lineBuf) :
  wp c (fun _ s' => kept s s') never s -> wp (discard c) (fun _ s' => kept s s') never s.
Proof.
  intros H. unfold discard. step1. eapply wp_mid; [exact H|]. now intros a s' HP.
Qed.

Lemma perform_kept (o : operation) (s : lineBuf) :
  sound s -> o <> OpWordDelete \/ 0 < s.(cursor) ->
  wp (perform o) (fun _ s' => kept s s') never s.
Proof.
  intros Hs Ho. destruct o; cbn [perform]; try apply wp_discard_kept.
  - now apply Insert_kept.
  - now apply InsertBytes_kept.
  - now apply Delete_kept.
  - now apply KillToEnd_kept.
  - now apply DeleteRange_kept.
  - now apply WordBackspace_kept.
  - apply WordDelete_kept; [exact Hs|]. destruct Ho as [Ho|Ho]; [congruence|exact Ho].
  - now apply WordForward_kept.
  - now apply WordBackward_kept.
  - now apply Yank_kept.
  - now apply Backward_kept.
  - now apply Forward_kept.
  - now apply Begin_kept.
  - now apply End_kept.
  - now apply Clear_kept.
  - now apply PrevInHistory_kept.
  - now apply NextInHistory_kept.
  - now apply AddToHistory_kept.
Qed.

(** X9.  On a sound buffer ([0 <= cursor <= length <= capacity], a
    non-empty array, a history index that is -1, 0 or an index of the
    history) every operation of the edit buffer other than [WordDelete]
    returns, and [WordDelete] returns when the cursor is not at 0; whatever
    the operation, the buffer it leaves is sound again and its array is not
    shorter than before. *)
Theorem operations_are_safe (o : operation) (s : lineBuf) :
  sound s ->
  kept s (final (perform o s)) /\
  (o <> OpWordDelete \/ 0 < s.(cursor) -> exists s', perform o s = Ok tt s').
Proof.
  intros Hs.
  assert (Hret : o <> OpWordDelete \/ 0 < cursor s ->
                 exists s', perform o s = Ok tt s' /\ kept s s').
  { intros Ho. destruct (wp_returns _ _ _ (perform_kept o s Hs Ho)) as ([] & s' & E & HQ).
    exists s'. split; [exact E|exact HQ]. }
  split.
  - destruct (Z.eq_dec (cursor s) 0) as [Hc|Hc].
    + destruct o;
        try (destruct Hret as (s' & E & HQ); [left; discriminate|];
             rewrite E; exact HQ).
      cbn [perform]. unfold discard, bind.
      rewrite WordDelete_panics_at_start by (destruct Hs as ((?&?&?)&_); lia).
      cbn [final]. now apply kept_refl.
    + destruct Hret as (s' & E & HQ);
        [right; destruct Hs as ((?&?&?)&_); lia|].
      rewrite E. exact HQ.
  - intros Ho. destruct (Hret Ho) as (s' & E & _). exists s'. exact E.
Qed.

Lemma operations_are_safe_witness :
  let s := mkLineBuf 5 2 (Go.bytes_of_string "ab cd") "" false None (-1) in
  sound s /\
  kept s (final (perform OpWordBackspace s)) /\
  exists s', perform OpWordBackspace s = Ok tt s'.
Proof.
  intros s.
  assert (Hs : sound s).
  { unfold sound, inv, hist_ok, history_length, capacity, Go.len. cbn. lia. }
  split; [exact Hs|].
  destruct (operations_are_safe OpWordBackspace s Hs) as (Hk & Hr).
  split; [exact Hk|]. apply Hr. left. discriminate.
Defined.

(** ** The loop, key by key *)

Create HintDb safe discriminated.

Section Safety.
Context {H : Type}.

Lemma safe_ret {A : Type} (a : A) : safe (H := H) (ret a).
Proof. intros w Hw. exact Hw. Qed.

Lemma safe_bind {A B : Type} (c : M (world H) A) (k : A -> M (world H) B) :
  safe c -> (forall a, safe (k a)) -> safe (bind c k).
Proof.
  intros Hc Hk w Hw. apply wp_bind. eapply wp_mid; [apply Hc, Hw|].
  intros a w' Hw'. now apply Hk.
Qed.

Lemma safe_if {A : Type} (b : bool) (c1 c2 : M (world H) A) :
  safe c1 -> safe c2 -> safe (if b then c1 else c2).
Proof. now destruct b. Qed.

Lemma safe_emit (e : event) : safe (H := H) (emit e).
Proof. intros w Hw. exact Hw. Qed.

Lemma safe_putChar (b : byte) : safe (H := H) (putChar b).
Proof. apply safe_emit. Qed.

Lemma safe_putString (s : string) : safe (H := H) (putString s).
Proof. apply safe_emit. Qed.

Lemma safe_println (s : string) : safe (H := H) (println s).
Proof. apply safe_emit. Qed.

Lemma safe_cursorForward : safe (H := H) cursorForward.
Proof. apply safe_emit. Qed.

Lemma safe_cursorBackward : safe (H := H) cursorBackward.
Proof. apply safe_emit. Qed.

Lemma safe_drawline (prompt : string) (extra : Z) : safe (H := H) (drawline prompt extra).
Proof.
  intros w Hw. pose proof Hw as ((H0 & H1 & H2) & _).
  eapply wp_of_eq; [apply drawline_spec; lia|]. exact Hw.
Qed.

Lemma safe_print_options (opts : list string) : safe (H := H) (print_options opts).
Proof.
  induction opts as [|o rest IH]; cbn [print_options].
  - apply safe_ret.
  - apply safe_bind; [apply safe_putChar|]. intros _.
    apply safe_bind; [apply safe_putString|]. intros _. exact IH.
Qed.

Lemma safe_highlightMatch (prompt : string) (chOpen chClose : byte) :
  safe (H := H) (highlightMatch prompt chOpen chClose).
Proof.
  intros w Hw. pose proof Hw as ((H0 & H1 & H2) & _).
  unfold highlightMatch. apply wp_bind.
  apply wp_of_eq with (a := lb w) (s' := w); [destruct w; reflexivity|].
  destruct (Z.eq_dec (cursor (lb w)) 0) as [E|E].
  - rewrite E. cbn [Z.sub Z.opp Z.add Z.to_nat highlight_scan]. now apply safe_putChar.
  - eapply wp_of_eq; [apply highlight_scan_spec; lia|]. exact Hw.
Qed.

(** A buffer operation that keeps soundness is safe in the loop. *)
Lemma safe_on_buf {A : Type} (c : M lineBuf A) :
  (forall s, sound s -> wp c (fun _ s' => kept s s') never s) -> safe (H := H) (on_buf c).
Proof.
  intros Hc w Hw. apply wp_on_buf. eapply wp_conseq; [apply Hc, Hw| |auto].
  intros a s' (Hs' & _). exact Hs'.
Qed.

Lemma IsEmpty_kept (s : lineBuf) : sound s -> wp IsEmpty (fun _ s' => kept s s') never s.
Proof. intros Hs. unfold IsEmpty. steps. now apply kept_refl. Qed.

Lemma get_kept (s : lineBuf) : sound s -> wp get (fun _ s' => kept s s') never s.
Proof. intros Hs. step1. now apply kept_refl. Qed.

Lemma String_kept (s : lineBuf) : sound s -> wp String_ (fun _ s' => kept s s') never s.
Proof.
  intros Hs. pose proof Hs as ((H0 & H1 & H2) & _).
  eapply wp_of_eq; [apply String_spec; lia|]. now apply kept_refl.
Qed.

End Safety.

#[export] Hint Resolve safe_ret safe_emit safe_putChar safe_putString safe_println
  safe_cursorForward safe_cursorBackward safe_drawline safe_print_options
  safe_highlightMatch : safe.
#[export] Hint Resolve Insert_kept InsertBytes_kept Delete_kept KillToEnd_kept
  DeleteRange_kept Yank_kept WordForward_kept WordBackward_kept WordBackspace_kept
  Backward_kept Forward_kept Begin_kept End_kept Clear_kept AddToHistory_kept
  PrevInHistory_kept NextInHistory_kept IsEmpty_kept get_kept String_kept : safe.

(** Takes a computation of the loop apart along its binds, conditionals and
    pattern matches, and closes the parts with the lemmas above. *)
Ltac safety :=
  repeat first
    [ solve [auto with safe]
    | apply safe_bind; [|intro]
    | apply safe_if
    | apply safe_on_buf; intros ? ?; solve [auto with safe]
    | match goal with
      | |- safe (match ?x with _ => _ end) => destruct x
      end ].

Section Dispatch.
Context {H value error : Type}.
Variable show_value : value -> string.
Variable show_error : error -> string.
Variable handler : ReplHandler H value error.

Lemma safe_call_Eval (s : string) : safe (call_Eval handler s).
Proof.
  intros w Hw. destruct w as [b h o]. unfold wp, call_Eval, bind, emit, modify.
  cbn [lb hs out set_hs]. now destruct (Eval handler s h).
Qed.

Lemma safe_call_Complete (s : string) : safe (call_Complete handler s).
Proof.
  intros w Hw. destruct w as [b h o]. unfold wp, call_Complete, bind, emit, modify.
  cbn [lb hs out set_hs]. now destruct (Complete handler s h).
Qed.

Lemma safe_call_Prompt : safe (call_Prompt handler).
Proof.
  intros w Hw. destruct w as [b h o]. unfold wp, call_Prompt, bind, emit, modify.
  cbn [lb hs out set_hs]. now destruct (Prompt handler h).
Qed.

Lemma safe_call_Reset : safe (call_Reset handler).
Proof. intros w Hw. exact Hw. Qed.

Lemma safe_call_Stop (history : option (list string)) : safe (call_Stop handler history).
Proof. intros w Hw. exact Hw. Qed.

#[local] Hint Resolve safe_call_Eval safe_call_Complete safe_call_Prompt safe_call_Reset
  safe_call_Stop : safe.

Lemma safe_key_RETURN (l : locals) : safe (key_RETURN show_value show_error handler l).
Proof. unfold key_RETURN. safety. Qed.

(** The slice [buf.buf[0:buf.cursor]] is in range for the cursor just read. *)
Lemma safe_prefix {A : Type} (k : list byte -> M (world H) A) :
  (forall bs, safe (k bs)) ->
  safe (b <- on_buf get ; bs <- on_buf (sliced 0 b.(cursor)) ; k bs).
Proof.
  intros Hk w Hw. pose proof Hw as ((H0 & H1 & H2) & _).
  apply wp_bind. apply wp_of_eq with (a := lb w) (s' := w); [destruct w; reflexivity|].
  apply wp_bind. apply wp_on_buf. apply wp_sliced; try lia.
  replace (set_lb (lb w) w) with w by (destruct w; reflexivity).
  now apply Hk.
Qed.

Lemma safe_key_TAB (l : locals) : safe (key_TAB handler l).
Proof.
  unfold key_TAB. destruct (Ascii.eqb (lastChar l) TAB).
  - safety.
  - apply safe_prefix. intros bs. safety.
Qed.

Lemma safe_plain_key (ch : byte) (l : locals) :
  safe (plain_key show_value show_error handler ch l).
Proof.
  pose proof safe_key_RETURN. pose proof safe_key_TAB.
  unfold plain_key. safety.
Qed.

End Dispatch.

#[export] Hint Resolve safe_call_Eval safe_call_Complete safe_call_Prompt safe_call_Reset
  safe_call_Stop safe_key_RETURN safe_key_TAB safe_plain_key : safe.

Section Keys.
Context {H value error : Type}.
Variable show_value : value -> string.
Variable show_error : error -> string.
Variable handler : ReplHandler H value error.

Local Abbreviation iteration_ := (iteration show_value show_error handler).
Local Abbreviation loop_ := (loop show_value show_error handler).
Local Abbreviation repl_ := (repl show_value show_error handler).
Local Abbreviation REPL_ := (REPL show_value show_error handler).
Local Abbreviation plain_key_ := (plain_key show_value show_error handler).

Lemma returns_soundly {A : Type} (c : M (world H) A) (w : world H)
    (R : fault -> world H -> Prop) :
  wp c (fun _ w' => sound w'.(lb)) never w ->
  match c w with Ok _ w' => sound w'.(lb) | Panic f w' => R f w' end.
Proof. unfold wp, never. destruct (c w); [auto|tauto]. Qed.

Lemma safe_after_key (ch : byte) (c : M (world H) (flow error)) :
  safe c ->
  safe (f <- c ;
        match f with
        | Next l' => ret (Next (set_lastChar ch l'))
        | Return e => ret (Return e)
        end).
Proof. intros Hc. apply safe_bind; [exact Hc|]. intros []; apply safe_ret. Qed.

Lemma safe_meta_key (ch : byte) (l : locals) :
  Ascii.eqb ch "d"%char = false -> safe (H := H) (meta_key (error := error) ch l).
Proof.
  intros Hd. unfold meta_key. rewrite Hd. safety.
Qed.

Lemma safe_WordDelete_key (l : locals) (w : world H) :
  sound w.(lb) -> 0 < w.(lb).(cursor) ->
  wp (meta_key (error := error) "d"%char l) (fun _ w' => sound w'.(lb)) never w.
Proof.
  intros Hw Hc. unfold meta_key. cbn [Ascii.eqb Bool.eqb DELETE ascii_of_nat].
  change (Ascii.eqb "d"%char DELETE) with false. cbv iota.
  change (Ascii.eqb "d"%char "d"%char) with true. cbv iota.
  apply wp_bind. apply wp_bind. apply wp_on_buf.
  eapply wp_conseq; [apply WordDelete_kept; assumption| |auto].
  intros n s' (Hs' & _).
  eapply wp_mid; [apply safe_drawline; exact Hs'|].
  intros ? w' Hw'. exact Hw'.
Qed.

(** The one way a pass can go wrong: ESC, then [d], with the cursor at 0. *)
Lemma panic_case_dec (r : byte * option error) (l : locals) (w : world H) :
  {r = ("d"%char, None) /\ l.(meta) = true /\ w.(lb).(cursor) = 0} +
  {r = ("d"%char, None) -> l.(meta) = true -> w.(lb).(cursor) <> 0}.
Proof.
  destruct r as [ch [err|]]; [right; discriminate|].
  destruct (Ascii.eqb_spec ch "d"%char) as [->|Hch]; [|right; congruence].
  destruct (meta l); [|right; discriminate].
  destruct (Z.eq_dec (cursor (lb w)) 0) as [Hc|Hc]; [left|right]; auto.
Qed.

Lemma iteration_panics (r : byte * option error) (l : locals) (w : world H) :
  sound w.(lb) ->
  r = ("d"%char, None) -> l.(meta) = true -> w.(lb).(cursor) = 0 ->
  iteration_ r l w = Panic (IndexOutOfRange (-1) (capacity w.(lb))) w.
Proof.
  intros Hw -> Hmeta Hc.
  unfold iteration. rewrite Hmeta. unfold meta_key.
  change (Ascii.eqb "d"%char DELETE) with false. cbv iota.
  change (Ascii.eqb "d"%char "d"%char) with true. cbv iota.
  unfold bind, on_buf.
  rewrite WordDelete_panics_at_start by (destruct Hw as ((?&?&?)&_); lia).
  destruct w; reflexivity.
Qed.

Lemma iteration_returns (r : byte * option error) (l : locals) (w : world H) :
  sound w.(lb) ->
  (r = ("d"%char, None) -> l.(meta) = true -> w.(lb).(cursor) <> 0) ->
  wp (iteration_ r l) (fun _ w' => sound w'.(lb)) never w.
Proof.
  intros Hw Hn. destruct r as [ch [err|]].
  - (* the read failed *)
    clear Hn. revert w Hw.
    change (safe (iteration_ (ch, Some err) l)).
    unfold iteration. safety.
  - destruct (meta l) eqn:Hmeta.
    + destruct (Ascii.eqb ch "d"%char) eqn:Hd.
      * apply Ascii.eqb_eq in Hd. subst ch.
        assert (Hpos : 0 < cursor (lb w)).
        { specialize (Hn eq_refl eq_refl). destruct Hw as ((?&?&?)&_). lia. }
        unfold iteration. rewrite Hmeta. apply wp_bind.
        eapply wp_mid; [apply safe_WordDelete_key; assumption|].
        intros [l'|e] w' Hw'; exact Hw'.
      * clear Hn. revert w Hw.
        change (safe (iteration_ (ch, None) l)).
        unfold iteration. rewrite Hmeta. apply safe_after_key.
        now apply safe_meta_key.
    + clear Hn. revert w Hw.
      change (safe (iteration_ (ch, None) l)).
      unfold iteration. rewrite Hmeta. apply safe_after_key.
      apply safe_plain_key.
Qed.

(** X16.  One pass of the loop on a sound buffer returns with a sound
    buffer, whatever the byte read, the read error, the handler and the
    pending state, with one exception: ESC followed by [d] with the cursor
    at 0 panics on the read of [buf[-1]], before anything is written or
    changed. *)
Theorem key_dispatch_is_safe (r : byte * option error) (l : locals) (w : world H) :
  sound w.(lb) ->
  match iteration_ r l w with
  | Ok _ w' => sound w'.(lb)
  | Panic f w' =>
      r = ("d"%char, None) /\ l.(meta) = true /\ w.(lb).(cursor) = 0 /\
      f = IndexOutOfRange (-1) (capacity w.(lb)) /\ w' = w
  end.
Proof.
  intros Hw. destruct (panic_case_dec r l w) as [(Hr & Hm & Hc)|Hn].
  - rewrite (iteration_panics r l w Hw Hr Hm Hc).
    split; [exact Hr|]. split; [exact Hm|]. split; [exact Hc|]. split; reflexivity.
  - apply returns_soundly. now apply iteration_returns.
Qed.

Lemma loop_is_safe (input : list (read error)) :
  forall (l : locals) (w : world H),
    sound w.(lb) ->
    match loop_ input l w with
    | Ok _ w' => sound w'.(lb)
    | Panic f w' =>
        sound w'.(lb) /\ w'.(lb).(cursor) = 0 /\
        f = IndexOutOfRange (-1) (capacity w'.(lb))
    end.
Proof.
  induction input as [|r rest IH]; intros l w Hw; cbn [loop].
  - exact Hw.
  - unfold bind.
    destruct (panic_case_dec (getChar r) l w) as [(Hr & Hm & Hc)|Hn].
    + rewrite (iteration_panics _ l w Hw Hr Hm Hc). auto.
    + pose proof (iteration_returns _ l w Hw Hn) as Hk. unfold wp in Hk.
      destruct (iteration_ (getChar r) l w) as [[l'|e] w'|f w'].
      * now apply IH.
      * exact Hk.
      * destruct Hk.
Qed.

Lemma newLineBuf_sound (h : option (list string)) :
  sound (set_history h (newLineBuf 1024)).
Proof.
  unfold sound, inv, hist_ok, history_length, capacity, Go.len. cbn.
  repeat split; lia.
Qed.

Lemma repl_is_safe (input : list (read error)) (w : world H) :
  match repl_ input w with
  | Ok _ w' => sound w'.(lb)
  | Panic f w' =>
      sound w'.(lb) /\ w'.(lb).(cursor) = 0 /\
      f = IndexOutOfRange (-1) (capacity w'.(lb))
  end.
Proof.
  destruct w as [b h o]. unfold repl.
  rewrite bind_ok with (a := tt) (s' := mkWorld (newLineBuf 1024) h o) by reflexivity.
  unfold bind at 1, call_Start at 1, bind at 1, emit at 1, modify at 1.
  cbn [lb hs out set_hs].
  destruct (Start handler h) as [hist h1]. cbn [lb hs out set_hs].
  set (b1 := set_history hist (newLineBuf 1024)).
  rewrite bind_ok with (a := tt) (s' := mkWorld b1 h1 (o ++ [CallStart]))
    by (subst b1; destruct hist; reflexivity).
  assert (Hb1 : sound b1) by apply newLineBuf_sound.
  unfold bind at 1, call_Prompt at 1, bind at 1, emit at 1, modify at 1.
  cbn [lb hs out set_hs].
  destruct (Prompt handler h1) as [p h2]. cbn [lb hs out set_hs].
  rewrite bind_ok with (a := tt)
    (s' := mkWorld b1 h2 (((o ++ [CallStart]) ++ [CallPrompt]) ++ [Write p]))
    by reflexivity.
  apply loop_is_safe. exact Hb1.
Qed.

(** X17.  A whole session, for every handler and every sequence of reads,
    run by [REPL] once cbreak mode is on: if it returns, it returns nil
    with a sound buffer after the deferred restore; while it waits for the
    next byte the buffer is sound; and the only panic it can end in is the
    read of [buf[-1]] by [WordDelete] with the cursor at 0, after which the
    restore still runs. *)
Theorem session_is_safe (input : list (read error)) (w : world H) :
  match REPL_ None input w with
  | Ok (Returned e) w' =>
      e = None /\ sound w'.(lb) /\ exists evs, w'.(out) = evs ++ [Restore]
  | Ok (Waiting _) w' => sound w'.(lb)
  | Panic f w' =>
      sound w'.(lb) /\ w'.(lb).(cursor) = 0 /\
      f = IndexOutOfRange (-1) (capacity w'.(lb)) /\
      exists evs, w'.(out) = evs ++ [Restore]
  end.
Proof.
  cbn [REPL]. pose proof (repl_is_safe input w) as Hr.
  destruct (repl_ input w) as [[e|l] w'|f w'];
    unfold bind, emit, modify, ret, panic; cbn [lb hs out].
  - split; [reflexivity|]. split; [exact Hr|]. exists (out w'). reflexivity.
  - exact Hr.
  - destruct Hr as (Hs & Hc & Hf).
    split; [exact Hs|]. split; [exact Hc|]. split; [exact Hf|].
    exists (out w'). reflexivity.
Qed.

(** X18.  A read at end of file (no byte, no error) is taken for the byte
    0: the pass writes BEEP, changes neither buffer nor handler, and the
    loop goes on; so a session whose input stays at end of file never
    returns, it writes one BEEP per read. *)
Theorem end_of_file_only_beeps (n : nat) (l : locals) (w : world H) :
  loop_ (repeat ReadEOF (S n)) l w
  = Ok (Waiting (mkLocals l.(prompt) false zero l.(options)))
       (mkWorld w.(lb) w.(hs) (w.(out) ++ repeat (Write (String BEEP "")) (S n))).
Proof.
  assert (Hone : forall l w,
    iteration_ (getChar ReadEOF) l w
    = Ok (Next (mkLocals l.(prompt) false zero l.(options)))
         (mkWorld w.(lb) w.(hs) (w.(out) ++ [Write (String BEEP "")]))).
  { intros [p m c o] [b h ev]. destruct m; reflexivity. }
  revert l w. induction n as [|n IH]; intros l w.
  - cbn [repeat loop]. rewrite bind_ok with (1 := Hone l w). reflexivity.
  - change (repeat ReadEOF (S (S n))) with (ReadEOF (error := error) :: repeat ReadEOF (S n)).
    cbn [loop]. rewrite bind_ok with (1 := Hone l w). rewrite IH. cbn [lb hs out prompt options].
    do 2 f_equal. rewrite <- app_assoc. reflexivity.
Qed.

(** X19.  Ctrl-D outside a meta sequence: on an empty buffer it writes a
    newline, calls [Stop] with the history and makes the loop return nil;
    on a buffer with text (and [0 <= cursor <= length <= capacity]) it is
    [Delete] followed by a redraw with one byte of padding, also when the
    cursor is at the end and nothing is deleted. *)
Theorem end_of_input_key (l : locals) (w : world H) :
  l.(meta) = false ->
  (w.(lb).(length) = 0 ->
   iteration_ (CTRL_D, None) l w
   = Ok (Return None)
        (stopped handler
           (mkWorld w.(lb) w.(hs) (w.(out) ++ [Write (String NEWLINE "")])))) /\
  (inv w.(lb) -> 0 < w.(lb).(length) ->
   exists r b',
     Delete w.(lb) = Ok r b' /\
     iteration_ (CTRL_D, None) l w
     = Ok (Next (set_lastChar CTRL_D l))
          (mkWorld b' w.(hs) (w.(out) ++ rendered l.(prompt) 1 b'))).
Proof.
  intros Hmeta.
  assert (Hkey : plain_key_ CTRL_D l
                 = (e <- on_buf IsEmpty ;
                    if e then
                      putString (String NEWLINE "") ;;
                      b <- on_buf get ;
                      call_Stop handler b.(history) ;;
                      ret (Return None)
                    else on_buf Delete ;; drawline l.(prompt) 1 ;; ret (Next l)))
    by reflexivity.
  assert (Hempty : on_buf IsEmpty w = Ok (length (lb w) =? 0) w)
    by (destruct w; reflexivity).
  split.
  - intros Hlen. unfold iteration. rewrite Hmeta, Hkey.
    rewrite bind_ok with (a := Return None)
      (s' := stopped handler
               (mkWorld (lb w) (hs w) (out w ++ [Write (String NEWLINE "")]))).
    + reflexivity.
    + rewrite bind_ok with (1 := Hempty). rewrite Hlen.
      destruct w; reflexivity.
  - intros Hinv Hpos.
    destruct (wp_returns _ _ _ (Delete_inv (lb w) Hinv)) as (r & b' & E & Hb').
    exists r, b'. split; [exact E|].
    unfold iteration. rewrite Hmeta, Hkey.
    rewrite bind_ok with (a := Next l)
      (s' := mkWorld b' (hs w) (out w ++ rendered (prompt l) 1 b')).
    + reflexivity.
    + rewrite bind_ok with (1 := Hempty).
      replace (length (lb w) =? 0) with false by (symmetry; apply Z.eqb_neq; lia).
      rewrite bind_ok with (a := r) (s' := mkWorld b' (hs w) (out w))
        by (unfold on_buf; now rewrite E).
      rewrite bind_ok with (a := tt)
        (s' := mkWorld b' (hs w) (out w ++ rendered (prompt l) 1 b')).
      * reflexivity.
      * destruct Hb' as (? & ? & ?).
        apply (drawline_spec (prompt l) 1 (mkWorld b' (hs w) (out w))); cbn [lb]; lia.
Qed.

End Keys.

Lemma key_dispatch_is_safe_witness :
  let w := mkWorld (mkLineBuf 2 0 (Go.bytes_of_string "ab") "" false None (-1)) tt [] in
  let l := mkLocals "> " true zero None in
  sound w.(lb) /\
  match iteration (fun s => s) (fun s => s) echo ("d"%char, None) l w with
  | Ok _ w' => sound w'.(lb)
  | Panic f w' =>
      l.(meta) = true /\ w.(lb).(cursor) = 0 /\
      f = IndexOutOfRange (-1) (capacity w.(lb)) /\ w' = w
  end.
Proof.
  intros w l.
  assert (Hs : sound w.(lb)).
  { unfold sound, inv, hist_ok, history_length, capacity, Go.len. cbn. lia. }
  split; [exact Hs|].
  pose proof (key_dispatch_is_safe (fun s => s) (fun s => s) echo ("d"%char, None) l w Hs) as Hk.
  destruct (iteration (fun s => s) (fun s => s) echo ("d"%char, None) l w).
  - exact Hk.
  - destruct Hk as (_ & Hk). exact Hk.
Defined.

Lemma end_of_input_key_witness :
  let w := mkWorld (mkLineBuf 0 0 (Go.bytes_of_string "ab") "" false None (-1)) tt [] in
  let l := mkLocals "> " false zero None in
  l.(meta) = false /\
  iteration (fun s => s) (fun s => s) echo (CTRL_D, None) l w
  = Ok (Return None)
       (stopped echo (mkWorld w.(lb) w.(hs) (w.(out) ++ [Write (String NEWLINE "")]))).
Proof.
  intros w l. split; [reflexivity|].
  apply (end_of_input_key (fun s => s) (fun s => s) echo l w eq_refl). reflexivity.
Defined.

(** ** Typing and completing *)

Lemma firstn_middle {A : Type} (p chs q : list A) (n : nat) :
  List.length p = n ->
  firstn (n + List.length chs) (p ++ chs ++ q) = p ++ chs.
Proof.
  intros Hp. rewrite app_assoc. apply firstn_exact. rewrite length_app. lia.
Qed.

Lemma skipn_middle {A : Type} (p chs q : list A) (n : nat) :
  List.length p = n ->
  skipn (n + List.length chs) (p ++ chs ++ q) = q.
Proof.
  intros Hp. rewrite app_assoc. apply skipn_exact. rewrite length_app. lia.
Qed.

Section Typing.
Context {H value error : Type}.
Variable show_value : value -> string.
Variable show_error : error -> string.
Variable handler : ReplHandler H value error.

Local Abbreviation iteration_ := (iteration show_value show_error handler).
Local Abbreviation plain_key_ := (plain_key show_value show_error handler).

Lemma highlightMatch_eq (prompt : string) (chOpen chClose : byte) (w : world H) :
  inv w.(lb) ->
  highlightMatch prompt chOpen chClose w
  = Ok tt (mkWorld w.(lb) w.(hs) (w.(out) ++ flashed prompt chOpen chClose w.(lb))).
Proof.
  intros (H0 & H1 & H2). unfold highlightMatch, flashed.
  rewrite bind_ok with (a := lb w) (s' := w) by (destruct w; reflexivity).
  destruct (Z.eq_dec (cursor (lb w)) 0) as [E|E].
  - rewrite E. cbn [Z.sub Z.opp Z.add Z.to_nat highlight_scan firstn rev opener_before].
    destruct w; reflexivity.
  - apply highlight_scan_spec; lia.
Qed.

Lemma plain_key_printable (ch : byte) (l : locals) :
  printable ch = true ->
  plain_key_ ch l
  = (on_buf (Insert ch) ;;
     drawline l.(prompt) 0 ;;
     (let m := matching ch in
      if negb (Ascii.eqb m zero) then highlightMatch l.(prompt) m ch else ret tt) ;;
     ret (Next l)).
Proof.
  destruct ch as [[] [] [] [] [] [] [] []]; intros Hp;
    first [discriminate Hp | reflexivity].
Qed.

(** X20.  A printable byte (32 to 126) outside a meta sequence is typed
    into the buffer: on a buffer with [0 <= cursor <= length <= capacity]
    the pass returns, leaves the buffer exactly as [Insert] of that byte
    does, redraws the line once, and, for a closing bracket only, adds what
    [highlightMatch] writes for its opener; the handler is not called. *)
Theorem printable_key_inserts (ch : byte) (l : locals) (w : world H) :
  l.(meta) = false -> printable ch = true -> inv w.(lb) ->
  exists b',
    Insert ch w.(lb) = Ok tt b' /\
    iteration_ (ch, None) l w
    = Ok (Next (set_lastChar ch l))
         (mkWorld b' w.(hs)
            (w.(out) ++ rendered l.(prompt) 0 b'
             ++ (if Ascii.eqb (matching ch) zero then []
                 else flashed l.(prompt) (matching ch) ch b'))).
Proof.
  intros Hmeta Hp Hinv.
  destruct (wp_returns _ _ _ (Insert_spec ch (lb w) Hinv)) as ([] & b' & E & Hins).
  pose proof (inserted_inv ch (lb w) b' Hinv Hins) as Hinv'.
  pose proof Hinv' as (H0 & H1 & H2).
  exists b'. split; [exact E|].
  unfold iteration. rewrite Hmeta, (plain_key_printable ch l Hp).
  set (w3 := mkWorld b' (hs w)
               (out w ++ rendered (prompt l) 0 b'
                ++ (if Ascii.eqb (matching ch) zero then []
                    else flashed (prompt l) (matching ch) ch b'))).
  rewrite bind_ok with (a := Next l) (s' := w3); [reflexivity|].
  rewrite bind_ok with (a := tt) (s' := mkWorld b' (hs w) (out w))
    by (unfold on_buf; now rewrite E).
  rewrite bind_ok with (a := tt)
    (s' := mkWorld b' (hs w) (out w ++ rendered (prompt l) 0 b'))
    by (apply (drawline_spec (prompt l) 0 (mkWorld b' (hs w) (out w))); cbn [lb]; lia).
  rewrite bind_ok with (a := tt) (s' := w3); [reflexivity|].
  subst w3. cbv zeta. destruct (Ascii.eqb (matching ch) zero); cbn [negb].
  - unfold ret. now rewrite app_nil_r.
  - rewrite highlightMatch_eq by exact Hinv'. cbn [lb hs out].
    now rewrite <- app_assoc.
Qed.

(** X21.  Tab, when the key before was not Tab, completes the text before
    the cursor: [Complete] gets exactly the bytes before the cursor, and
    when it answers with one candidate the addendum and one space are
    inserted at the cursor, the line is redrawn once and the remembered
    options are cleared. *)
Theorem single_completion_is_inserted (l : locals) (w : world H)
    (addendum cand : string) (h' : H) :
  l.(meta) = false -> l.(lastChar) <> TAB -> inv w.(lb) ->
  let before := Go.string_of_bytes (firstn (Z.to_nat w.(lb).(cursor)) w.(lb).(buf)) in
  handler.(Complete) before w.(hs) = ((addendum, Some [cand]), h') ->
  exists b',
    iteration_ (TAB, None) l w
    = Ok (Next (mkLocals l.(prompt) false TAB None))
         (mkWorld b' h' (w.(out) ++ CallComplete before :: rendered l.(prompt) 0 b')) /\
    content b' = firstn (Z.to_nat w.(lb).(cursor)) (content w.(lb))
                 ++ Go.bytes_of_string addendum
                 ++ " "%char :: skipn (Z.to_nat w.(lb).(cursor)) (content w.(lb)) /\
    b'.(cursor) = w.(lb).(cursor) + Go.len (Go.bytes_of_string addendum) + 1.
Proof.
  intros Hmeta Hlast Hinv before Hcomp. pose proof Hinv as (H0 & H1 & H2).
  set (chs := Go.bytes_of_string addendum).
  destruct (wp_returns _ _ _ (InsertBytes_spec chs (lb w) Hinv)) as ([] & b1 & E1 & Hins1).
  pose proof (inserted_bytes_inv chs (lb w) b1 Hinv Hins1) as Hinv1.
  destruct (wp_returns _ _ _ (Insert_spec " "%char b1 Hinv1)) as ([] & b2 & E2 & Hins2).
  pose proof (inserted_inv " "%char b1 b2 Hinv1 Hins2) as (G0 & G1 & G2).
  exists b2. split; [|split].
  - unfold iteration. rewrite Hmeta.
    change (plain_key_ TAB l) with (key_TAB handler l). unfold key_TAB.
    replace (Ascii.eqb (lastChar l) TAB) with false
      by (symmetry; now apply Ascii.eqb_neq).
    set (w1 := mkWorld (lb w) h' (out w ++ [CallComplete before])).
    set (w4 := mkWorld b2 h' (out w ++ CallComplete before :: rendered (prompt l) 0 b2)).
    rewrite bind_ok with (a := Next (set_options None l)) (s' := w4).
    { unfold set_lastChar, set_options. cbn [prompt meta lastChar options].
      now rewrite Hmeta. }
    rewrite bind_ok with (a := lb w) (s' := w) by (destruct w; reflexivity).
    rewrite bind_ok with (a := firstn (Z.to_nat (cursor (lb w))) (buf (lb w))) (s' := w).
    2:{ unfold on_buf, sliced. rewrite slice_in_range by (unfold capacity in *; lia).
        rewrite Z.sub_0_r. destruct w; reflexivity. }
    rewrite bind_ok with (a := (addendum, Some [cand])) (s' := w1).
    2:{ unfold call_Complete, bind, emit, modify. cbn [lb hs out].
        fold before. rewrite Hcomp. reflexivity. }
    rewrite bind_ok with (a := tt) (s' := mkWorld b1 h' (out w ++ [CallComplete before])).
    2:{ subst w1 chs. destruct addendum as [|a rest].
        - cbn in E1. injection E1 as <-. reflexivity.
        - change (0 <? String.length (String a rest))%nat with true. cbv iota.
          unfold on_buf. cbn [lb]. now rewrite E1. }
    rewrite bind_ok with (a := set_options None l)
      (s' := mkWorld b2 h' (out w ++ [CallComplete before])).
    2:{ cbn [List.length Nat.eqb].
        rewrite bind_ok with (a := tt) (s' := mkWorld b2 h' (out w ++ [CallComplete before]))
          by (unfold on_buf; cbn [lb]; now rewrite E2).
        reflexivity. }
    rewrite bind_ok with (a := tt) (s' := w4); [reflexivity|].
    subst w4.
    rewrite (drawline_spec (prompt l) 0 (mkWorld b2 h' (out w ++ [CallComplete before])))
      by (cbn [lb]; lia).
    cbn [lb hs out]. now rewrite <- app_assoc.
  - destruct Hins1 as (L1 & C1 & _ & _ & _ & _ & _ & _ & T1).
    destruct Hins2 as (_ & _ & _ & _ & _ & _ & _ & _ & T2).
    rewrite T2, T1, C1.
    assert (Hp : List.length (firstn (Z.to_nat (cursor (lb w))) (content (lb w)))
                 = Z.to_nat (cursor (lb w))).
    { rewrite length_firstn. pose proof (content_length (lb w)) as Hl.
      unfold Go.len in Hl. lia. }
    replace (Z.to_nat (cursor (lb w) + Go.len chs))
      with (Z.to_nat (cursor (lb w)) + List.length chs)%nat by (unfold Go.len; lia).
    rewrite firstn_middle, skipn_middle by exact Hp.
    now rewrite <- app_assoc.
  - destruct Hins1 as (_ & C1 & _). destruct Hins2 as (_ & C2 & _). fold chs. lia.
Qed.

End Typing.

Lemma printable_key_inserts_witness :
  let w := mkWorld (mkLineBuf 2 1 (Go.bytes_of_string "ab") "" false None (-1)) tt [] in
  let l := mkLocals "> " false zero None in
  l.(meta) = false /\ printable "x"%char = true /\ inv w.(lb) /\
  exists b',
    Insert "x"%char w.(lb) = Ok tt b' /\
    iteration (fun s => s) (fun s => s) echo ("x"%char, None) l w
    = Ok (Next (set_lastChar "x"%char l))
         (mkWorld b' tt (rendered "> " 0 b' ++ [])).
Proof.
  intros w l.
  assert (Hw : inv w.(lb)) by (unfold inv, capacity, Go.len; cbn; lia).
  split; [reflexivity|]. split; [reflexivity|]. split; [exact Hw|].
  exact (printable_key_inserts (fun s => s) (fun s => s) echo "x"%char l w eq_refl eq_refl Hw).
Defined.

Lemma single_completion_is_inserted_witness :
  let w := mkWorld (mkLineBuf 3 3 (Go.bytes_of_string "hel") "" false None (-1)) tt [] in
  let l := mkLocals "> " false zero None in
  l.(meta) = false /\ l.(lastChar) <> TAB /\ inv w.(lb) /\
  exists b',
    iteration (fun s => s) (fun s => s) (completer "lo" "hello") (TAB, None) l w
    = Ok (Next (mkLocals "> " false TAB None))
         (mkWorld b' tt (CallComplete "hel" :: rendered "> " 0 b')) /\
    text b' = "hello "%string /\ b'.(cursor) = 6.
Proof.
  intros w l.
  assert (Hl : l.(lastChar) <> TAB) by discriminate.
  assert (Hw : inv w.(lb)) by (unfold inv, capacity, Go.len; cbn; lia).
  split; [reflexivity|]. split; [exact Hl|]. split; [exact Hw|].
  destruct (single_completion_is_inserted (fun s => s) (fun s => s)
              (completer "lo" "hello") l w "lo" "hello" tt eq_refl Hl Hw eq_refl)
    as (b' & E & Hcont & Hc).
  exists b'. split; [exact E|]. split; [|exact Hc].
  unfold text. rewrite Hcont. reflexivity.
Defined.
